(** * canbox: a Kademlia DHT over UDP — shallow embedding and properties

    The embedding follows the JavaScript sources:
      - [p2p/kademlia/storage.js]   (IStorage, ForgetfulStorage)
      - [p2p/kademlia/utils.js]     (OrderedSet, sharedPrefix, bytesToBitString, compare)
      - [p2p/kademlia/node.js]      (Node, NodeHeap)
      - [p2p/kademlia/routing.js]   (KBucket, TableTraverser, RoutingTable)
      - [p2p/kademlia/protocol.js]  (KademliaProtocol)
      - [p2p/kademlia/crawling.js]  (SpiderCrawl, NodeSpiderCrawl, ValueSpiderCrawl,
                                     RPCFindResponse)
      - [p2p/kademlia/network.js]   (Server)
      - [p2p/rpcudp/index.js]       (RPCProtocol)

    Conventions.
      - A node identifier is a canonical 40-digit lowercase hex string; such
        strings are in bijection with the integers of [0, 2^160) and the
        embedding carries the integer.  The XOR of two 20-byte buffers read as
        a big-endian number is [Z.lxor] of the two integers.
      - [Date.now()] is an explicit argument [now] (milliseconds, in [Z]).
      - A JavaScript [Map] is kept as the list of its entries in insertion
        order, which is the order its iterators follow.
      - Mutation is explicit state passing: a method returns the new object. *)

From Stdlib Require Import ZArith QArith List Bool Lia String Ascii.
From Stdlib Require Import Strings.Byte Strings.HexString.
From Stdlib Require Import Sorting.Sorted Sorting.Permutation.
From stdpp Require Import gmap sorting.
Import ListNotations.

Local Open Scope Z_scope.

(** Values kept in the store are Node.js Buffers. *)
Definition Buffer : Type := list Byte.byte.

(** The outcome of a call that can throw: a value, a JavaScript [TypeError]
    (reading a property of [undefined], or calling a class without [new] as
    [rpc] does on an oversize request), or the bound put on a recursion being
    reached. *)
Inductive result (A : Type) : Type :=
| Ok (a : A)
| TypeError
| OutOfFuel.

Arguments Ok {A} a.
Arguments TypeError {A}.
Arguments OutOfFuel {A}.

#[global] Instance result_ret : MRet result := fun A a => Ok a.

#[global] Instance result_bind : MBind result := fun A B f m =>
  match m with
  | Ok a => f a
  | TypeError => TypeError
  | OutOfFuel => OutOfFuel
  end.

(** Using a value that may be [undefined]. *)
Definition defined {A : Type} (o : option A) : result A :=
  match o with
  | Some a => Ok a
  | None => TypeError
  end.

(* ===================================================================== *)
(** * The [bignumber.js] package *)
(* ===================================================================== *)

(** [bignumber.js] is a dependency of the repository.  A BigNumber is an
    arbitrary-precision decimal, kept here as a rational.  [plus], [minus]
    and [times] are exact; [div] rounds its quotient to [DECIMAL_PLACES] = 20
    decimals and [integerValue] rounds to an integer, both with the default
    rounding mode ROUND_HALF_UP (to the nearest, ties away from zero). *)
Module BN.

Definition t : Type := Q.

Definition of_Z (z : Z) : t := inject_Z z.

Definition plus (a b : t) : t := Qred (a + b)%Q.
Definition minus (a b : t) : t := Qred (a - b)%Q.
Definition times (a b : t) : t := Qred (a * b)%Q.

Definition round_half_up (q : Q) : Z :=
  let n := Qnum q in
  let d := Z.pos (Qden q) in
  if 0 <=? n then (2 * n + d) / (2 * d) else - ((2 * - n + d) / (2 * d)).

Definition DECIMAL_PLACES : Z := 20.

Definition div (a b : t) : t :=
  let scale := inject_Z (10 ^ DECIMAL_PLACES) in
  Qred (inject_Z (round_half_up (a / b * scale)%Q) / scale)%Q.

Definition integerValue (a : t) : Z := round_half_up a.

Definition lte (a b : t) : bool := Qle_bool a b.
Definition gte (a b : t) : bool := Qle_bool b a.
Definition lt (a b : t) : bool := negb (Qle_bool b a).
Definition gt (a b : t) : bool := negb (Qle_bool a b).

(** [toString(16)] of an integer. *)
Definition toString16 (z : Z) : string :=
  match z with
  | Z0 => "0"
  | Z.pos p => HexString.Raw.of_pos p EmptyString
  | Z.neg p => String "-" (HexString.Raw.of_pos p EmptyString)
  end.

(** [BN(s, 16)] of a string of hex digits. *)
Definition of_hex (s : string) : Z := Z.of_N (HexString.Raw.to_N s 0%N).

End BN.

(* ===================================================================== *)
(** * storage.js *)
(* ===================================================================== *)

Module Storage.

(** One entry of the underlying [Map]: [key -> [ stamp, value ]]. *)
Definition entry : Type := Z * (Z * Buffer).

Definition key_of (e : entry) : Z := fst e.
Definition stamp_of (e : entry) : Z := fst (snd e).
Definition value_of (e : entry) : Buffer := snd (snd e).

(** [ForgetfulStorage]: the [ttl] field and the entries of the [Map] it
    extends, oldest insertion first. *)
Record t : Type := mk { ttl : Z; entries : list entry }.

(** [new ForgetfulStorage(ttl)]. *)
Definition create (ttl0 : Z) : t := mk ttl0 [].

Definition size (s : t) : nat := length (entries s).

(** [Map.prototype.has]. *)
Definition has (key : Z) (s : t) : bool :=
  existsb (fun e => key_of e =? key) (entries s).

(** [Map.prototype.delete]: the entry of [key] goes, the others keep their
    order. *)
Definition delete (key : Z) (s : t) : t :=
  mk (ttl s) (List.filter (fun e => negb (key_of e =? key)) (entries s)).

(** [Map.prototype.set] ([super.set]): an existing key keeps its position
    and takes the new value, a new key is appended. *)
Fixpoint assoc_set (key : Z) (x : Z * Buffer) (l : list entry) : list entry :=
  match l with
  | [] => [(key, x)]
  | e :: l' => if key_of e =? key then (key, x) :: l' else e :: assoc_set key x l'
  end.

Definition super_set (key : Z) (x : Z * Buffer) (s : t) : t :=
  mk (ttl s) (assoc_set key x (entries s)).

(** [Map.prototype.get] ([super.get]). *)
Definition super_get (key : Z) (s : t) : option (Z * Buffer) :=
  option_map snd (List.find (fun e => key_of e =? key) (entries s)).

Inductive direction : Type := FIFO | LIFO.

(** [IStorage.pop(dir)]: the value of the first (FIFO) or last entry, which
    is deleted by key; [null] on an empty store. *)
Definition pop (dir : direction) (s : t) : option Buffer * t :=
  match entries s with
  | [] => (None, s)
  | e0 :: _ =>
      let e := match dir with FIFO => e0 | LIFO => List.last (entries s) e0 end in
      (option_map snd (super_get (key_of e) s), delete (key_of e) s)
  end.

(** [tripleIterable]. *)
Definition tripleIterable (s : t) : list (Z * Z * Buffer) :=
  List.map (fun e => (key_of e, stamp_of e, value_of e)) (entries s).

(** [iteritemsOlderThan(secondsOld)]: [minBirthday >= t]. *)
Definition iteritemsOlderThan (now secondsOld : Z) (s : t) : list (Z * Buffer) :=
  let minBirthday := now - secondsOld in
  let matches :=
    List.filter (fun '(_, t, _) => minBirthday >=? t) (tripleIterable s) in
  List.map (fun '(k, _, v) => (k, v)) matches.

(** [ForgetfulStorage.cull]: the array of expired items is computed first,
    then the loop body [this.pop()] runs once per item of it. *)
Definition cull (now : Z) (s : t) : t :=
  Nat.iter (length (iteritemsOlderThan now (ttl s) s))
           (fun s' => snd (pop FIFO s')) s.

(** [IStorage.set(key, value)]. *)
Definition set (now : Z) (key : Z) (value : Buffer) (s : t) : t :=
  let s1 := if has key s then delete key s else s in
  cull now (super_set key (now, value) s1).

(** [IStorage.get(key, def = null)]: the value read and the culled store. *)
Definition get (now : Z) (key : Z) (s : t) : option Buffer * t :=
  let s1 := cull now s in
  if has key s1 then (option_map snd (super_get key s1), s1) else (None, s1).

(** [ForgetfulStorage.items()]. *)
Definition items (now : Z) (s : t) : list (Z * Buffer) * t :=
  let s1 := cull now s in
  (List.map (fun e => (key_of e, value_of e)) (entries s1), s1).

(** The calls a client can make on a store. *)
Inductive op : Type :=
| OSet (key : Z) (value : Buffer)
| OGet (key : Z)
| OPop (dir : direction)
| OCull
| OItems.

Definition exec (now : Z) (o : op) (s : t) : t :=
  match o with
  | OSet k v => set now k v s
  | OGet k => snd (get now k s)
  | OPop d => snd (pop d s)
  | OCull => cull now s
  | OItems => snd (items now s)
  end.

(** A history: each call happens [delay] milliseconds after the previous
    one (the clock does not run backwards). *)
Fixpoint run (clock : Z) (s : t) (tr : list (N * op)) : Z * t :=
  match tr with
  | [] => (clock, s)
  | (delay, o) :: tr' =>
      let now := clock + Z.of_N delay in
      run now (exec now o s) tr'
  end.

(** An entry is expired at [now] when [now - ttl >= stamp]. *)
Definition expired (now ttl0 : Z) (e : entry) : bool :=
  now - ttl0 >=? stamp_of e.

Definition stamps (s : t) : list Z := List.map stamp_of (entries s).
Definition keys (s : t) : list Z := List.map key_of (entries s).

(** The store invariant at clock value [clock]: keys are unique (it is a
    [Map]), stamps do not decrease along the iteration order, and no stamp
    lies in the future. *)
Definition inv (clock : Z) (s : t) : Prop :=
  NoDup (keys s) /\ Sorted Z.le (stamps s) /\ Forall (fun x => x <= clock) (stamps s).

(** Calls that write [key], and calls that pop. *)
Definition sets_key (key : Z) (o : op) : bool :=
  match o with OSet k _ => k =? key | _ => false end.

Definition is_pop (o : op) : bool :=
  match o with OPop _ => true | _ => false end.

(** No call of the history writes [key]. *)
Definition leaves_key (key : Z) (tr : list (N * op)) : bool :=
  forallb (fun x => negb (sets_key key (snd x))) tr.

(** No call of the history pops. *)
Definition pop_free (tr : list (N * op)) : bool :=
  forallb (fun x => negb (is_pop (snd x))) tr.

(** The invariant on the bare list of entries, with the strong form of
    sortedness (every earlier stamp is below every later one). *)
Definition linv (clock : Z) (l : list entry) : Prop :=
  NoDup (List.map key_of l)
  /\ StronglySorted Z.le (List.map stamp_of l)
  /\ Forall (fun x => x <= clock) (List.map stamp_of l).

End Storage.

(* ===================================================================== *)
(** * utils.js and the [heap] package *)
(* ===================================================================== *)

Module Utils.

(** [compare(a, b)]: orders two [ [ distance, item ] ] pairs by their first
    component ([x.lt(y)] gives -1, [x.gt(y)] gives 1, otherwise 0). *)
Definition compare {A : Type} (a b : Z * A) : Z :=
  let x := fst a in
  let y := fst b in
  if x <? y then -1 else if x >? y then 1 else 0.

(** [len(o)] of an array. *)
Definition len {A : Type} (o : list A) : nat := length o.

End Utils.

(** The [heap] package (required as [heapq]) is a dependency of the
    repository, not part of it.  A heap array is kept here as the list of the
    items pushed on it: the repository never reads the position of an item in
    the array, only the items through [nsmallest] and the least one through
    [pop].  [nsmallest(array, n, cmp)]
    returns the [n] least items in ascending [cmp] order; the order the
    package gives to items that compare equal is not modelled (a merge sort
    stands for it). *)
Module Heapq.

Definition push {A : Type} (array : list A) (item : A) : list A := array ++ [item].

(** [a] may stand before [b] in ascending [cmp] order. *)
Definition before {A : Type} (cmp : A -> A -> Z) (a b : A) : Prop := cmp a b <= 0.

#[global] Instance before_dec {A : Type} (cmp : A -> A -> Z) : RelDecision (before cmp) :=
  fun a b => decide (cmp a b <= 0).

Definition nsmallest {A : Type} (array : list A) (n : nat) (cmp : A -> A -> Z) : list A :=
  take n (merge_sort (before cmp) array).

(** [pop(array)] takes out and returns [array[0]]; on an array built by
    [push] with a comparison that is a least item for the comparison (the
    order of the items left in the array is not modelled). *)
Definition pop {A : Type} (array : list A) (cmp : A -> A -> Z) : option A * list A :=
  match merge_sort (before cmp) array with
  | [] => (None, array)
  | x :: rest => (Some x, rest)
  end.

End Heapq.

(* ===================================================================== *)
(** * node.js *)
(* ===================================================================== *)

Module Node.

(** [new Node(node_id, ip = null, port = null)].  [long_id], the buffer of
    the hex digits of [id], is the same number as [id]. *)
Record t : Type := mk { id : Z; ip : option string; port : option Z }.

Definition loose_eq_ip (a b : option string) : bool :=
  match a, b with
  | Some x, Some y => String.eqb x y
  | None, None => true
  | _, _ => false
  end.

Definition loose_eq_port (a b : option Z) : bool :=
  match a, b with
  | Some x, Some y => x =? y
  | None, None => true
  | _, _ => false
  end.

(** [sameHomeAs(node)]. *)
Definition sameHomeAs (this node : t) : bool :=
  loose_eq_ip (ip this) (ip node) && loose_eq_port (port this) (port node).

(** [distanceTo(node)]: the bytewise XOR of the two identifiers, read as a
    number. *)
Definition distanceTo (this node : t) : Z := Z.lxor (id this) (id node).

End Node.

Module NodeHeap.

(** [NodeHeap]: the node distances are measured from, the heap array of
    [ [ distance, node ] ] pairs, the set of contacted ids and [maxsize]. *)
Record t : Type := mk {
  node : Node.t;
  heap : list (Z * Node.t);
  contacted : gset Z;
  maxsize : nat
}.

(** [new NodeHeap(node, maxsize)]. *)
Definition create (node0 : Node.t) (maxsize0 : nat) : t := mk node0 [] ∅ maxsize0.

(** [has(node)]: some entry of the heap carries the id of [node]. *)
Definition has (h : t) (n : Node.t) : bool :=
  existsb (fun e => Node.id n =? Node.id (snd e)) (heap h).

(** One turn of the loop of [push]. *)
Definition push_one (h : t) (n : Node.t) : t :=
  if has h n then h
  else
    let distance := Node.distanceTo (node h) n in
    mk (node h) (Heapq.push (heap h) (distance, n)) (contacted h) (maxsize h).

(** [push(nodes)]; a single node is pushed as the array holding it. *)
Definition push (h : t) (nodes : list Node.t) : t := fold_left push_one nodes h.

(** [remove(peerIDs)]: the heap is rebuilt from the entries whose id is not
    listed. *)
Definition remove (h : t) (peerIDs : list Z) : t :=
  match peerIDs with
  | [] => h
  | _ =>
      let keep e := negb (existsb (Z.eqb (Node.id (snd e))) peerIDs) in
      mk (node h)
         (fold_left (fun nheap e => if keep e then Heapq.push nheap e else nheap)
                    (heap h) [])
         (contacted h) (maxsize h)
  end.

(** [getNodeById(node_id)]. *)
Definition getNodeById (h : t) (node_id : Z) : option Node.t :=
  option_map snd (List.find (fun e => Node.id (snd e) =? node_id) (heap h)).

(** [markContacted(node)]. *)
Definition markContacted (h : t) (n : Node.t) : t :=
  mk (node h) (heap h) ({[ Node.id n ]} ∪ contacted h) (maxsize h).

(** [[Symbol.iterator]]: the nodes of the [maxsize] nearest entries of a
    copy of the heap, nearest first. *)
Definition iter (h : t) : list Node.t :=
  List.map snd (Heapq.nsmallest (heap h) (maxsize h) Utils.compare).

(** [getIDs()]. *)
Definition getIDs (h : t) : list Z := List.map Node.id (iter h).

(** [getUncontacted()]. *)
Definition getUncontacted (h : t) : list Node.t :=
  List.filter (fun n => negb (bool_decide (Node.id n ∈ contacted h))) (iter h).

(** [allBeenContacted()]. *)
Definition allBeenContacted (h : t) : bool :=
  Nat.eqb (Utils.len (getUncontacted h)) 0.

(** The [len] getter. *)
Definition len (h : t) : nat := Nat.min (Utils.len (heap h)) (maxsize h).

(** [popleft()]: the nearest node of the heap, which is taken out of it;
    [null] when [len] is 0. *)
Definition popleft (h : t) : result (option Node.t * t) :=
  if (0 <? len h)%nat then
    let '(item, rest) := Heapq.pop (heap h) Utils.compare in
    e ← defined item;
    Ok (Some (snd e), mk (node h) rest (contacted h) (maxsize h))
  else Ok (None, h).

(** The ids held in the heap array. *)
Definition ids (h : t) : list Z := List.map (fun e => Node.id (snd e)) (heap h).

(** The calls that change a heap, and a heap after a sequence of them. *)
Inductive op : Type :=
| OPush (nodes : list Node.t)
| ORemove (peerIDs : list Z)
| OMarkContacted (n : Node.t).

Definition exec (h : t) (o : op) : t :=
  match o with
  | OPush nodes => push h nodes
  | ORemove peerIDs => remove h peerIDs
  | OMarkContacted n => markContacted h n
  end.

Definition run (h : t) (ops : list op) : t := fold_left exec ops h.

End NodeHeap.

(* ===================================================================== *)
(** * utils.js: OrderedSet, sharedPrefix, bytesToBitString *)
(* ===================================================================== *)

(** [OrderedSet]: a [Map] keyed by [JSON.stringify(thing)].  For a node that
    is the text of [ [ id, ip, port ] ], so two nodes share a key when their
    three fields agree.  The set is kept as the list of its values in
    insertion order. *)
Module OrderedSet.

Definition t : Type := list Node.t.

Definition same_key (a b : Node.t) : bool :=
  (Node.id a =? Node.id b)
  && Node.loose_eq_ip (Node.ip a) (Node.ip b)
  && Node.loose_eq_port (Node.port a) (Node.port b).

Definition has (thing : Node.t) (s : t) : bool := existsb (same_key thing) s.

Definition delete (thing : Node.t) (s : t) : t :=
  List.filter (fun x => negb (same_key thing x)) s.

(** [Map.prototype.set] under the key of [thing]. *)
Fixpoint set (thing : Node.t) (s : t) : t :=
  match s with
  | [] => [thing]
  | x :: s' => if same_key thing x then thing :: s' else x :: set thing s'
  end.

(** [push(thing)]: an item already present is removed, then the item goes to
    the end. *)
Definition push (thing : Node.t) (s : t) : t :=
  set thing (if has thing s then delete thing s else s).

(** [pop()]: the last item and the set without it; [null] when empty. *)
Definition pop (s : t) : option Node.t * t :=
  match s with
  | [] => (None, s)
  | x :: s' => (Some (List.last s' x), List.removelast s)
  end.

End OrderedSet.

Module Bits.

(** [bytesToBitString(id)]: the 160 binary digits of a 20-byte identifier,
    most significant first. *)
Definition bytesToBitString (id0 : Z) : list bool :=
  List.map (fun i => Z.testbit id0 (159 - Z.of_nat i)) (seq 0 160).

(** The test [len(new Set(args.map(v => v[i]))) !== 1] of [sharedPrefix],
    negated: all strings carry the same digit at [i] (and there is one). *)
Definition same_digit (i : nat) (args : list (list bool)) : bool :=
  match args with
  | [] => false
  | a :: rest => forallb (fun v => Bool.eqb (nth i v false) (nth i a false)) rest
  end.

(** The [while (i < min)] loop of [sharedPrefix], which runs at most [min]
    times. *)
Fixpoint prefix_loop (bound : nat) (i : nat) (args : list (list bool)) : nat :=
  match bound with
  | O => i
  | S bound' => if same_digit i args then prefix_loop bound' (S i) args else i
  end.

(** [sharedPrefix(args)]; on an empty array [args[0].substring] throws. *)
Definition sharedPrefix (args : list (list bool)) : result (list bool) :=
  match args with
  | [] => TypeError
  | a :: _ =>
      let min := fold_right Nat.min (length a) (List.map (@length bool) args) in
      Ok (take (prefix_loop min 0 args) a)
  end.

End Bits.

(* ===================================================================== *)
(** * routing.js *)
(* ===================================================================== *)

Module KBucket.

(** [KBucket]: [range], the [Map] of nodes keyed by id (its values in
    insertion order; every key is the id of its value), the replacement
    set, [lastUpdated] and [ksize]. *)
Record t : Type := mk {
  range : BN.t * BN.t;
  nodes : list Node.t;
  replacementNodes : OrderedSet.t;
  lastUpdated : Z;
  ksize : nat
}.

(** [new KBucket(rangeLower, rangeUpper, ksize)]. *)
Definition create (now : Z) (rangeLower rangeUpper : BN.t) (ksize0 : nat) : t :=
  mk (rangeLower, rangeUpper) [] [] now ksize0.

Definition touchLastUpdated (now : Z) (b : t) : t :=
  mk (range b) (nodes b) (replacementNodes b) now (ksize b).

Definition getNodes (b : t) : list Node.t := nodes b.

(** [Map] operations of [this.nodes]. *)
Definition nodes_has (id0 : Z) (m : list Node.t) : bool :=
  existsb (fun n => Node.id n =? id0) m.

Definition nodes_delete (id0 : Z) (m : list Node.t) : list Node.t :=
  List.filter (fun n => negb (Node.id n =? id0)) m.

Fixpoint nodes_set (id0 : Z) (n : Node.t) (m : list Node.t) : list Node.t :=
  match m with
  | [] => [n]
  | x :: m' => if Node.id x =? id0 then n :: m' else x :: nodes_set id0 n m'
  end.

Definition with_nodes (b : t) (m : list Node.t) : t :=
  mk (range b) m (replacementNodes b) (lastUpdated b) (ksize b).

(** [split()]. *)
Definition split (now : Z) (b : t) : t * t :=
  let '(min, max) := range b in
  let midpoint := BN.div (BN.plus min max) (BN.of_Z 2) in
  let ksz := ksize b in
  let one := create now min midpoint ksz in
  let two := create now (BN.plus midpoint (BN.of_Z 1)) max ksz in
  fold_left
    (fun (acc : t * t) (node : Node.t) =>
       let '(one, two) := acc in
       let id0 := Node.id node in
       if BN.gt midpoint (BN.of_Z id0)
       then (with_nodes one (nodes_set id0 node (nodes one)), two)
       else (one, with_nodes two (nodes_set id0 node (nodes two))))
    (nodes b) (one, two).

(** [removeNode(node)]. *)
Definition removeNode (b : t) (node : Node.t) : t :=
  if negb (nodes_has (Node.id node) (nodes b)) then b
  else
    let m := nodes_delete (Node.id node) (nodes b) in
    match OrderedSet.pop (replacementNodes b) with
    | (Some newnode, rest) =>
        mk (range b) (nodes_set (Node.id newnode) newnode m) rest (lastUpdated b) (ksize b)
    | (None, _) => with_nodes b m
    end.

(** [hasInRange(node)]. *)
Definition hasInRange (b : t) (node : Node.t) : bool :=
  let '(min, max) := range b in
  let id0 := BN.of_Z (Node.id node) in
  BN.gte id0 min && BN.lte id0 max.

(** [isNewNode(node)]. *)
Definition isNewNode (b : t) (node : Node.t) : bool :=
  negb (nodes_has (Node.id node) (nodes b)).

(** The [len] getter. *)
Definition len (b : t) : nat := length (nodes b).

(** [addNode(node)]: whether the node went in, and the bucket. *)
Definition addNode (b : t) (node : Node.t) : bool * t :=
  let id0 := Node.id node in
  if nodes_has id0 (nodes b) then
    (true, with_nodes b (nodes_set id0 node (nodes_delete id0 (nodes b))))
  else if (len b <? ksize b)%nat then
    (true, with_nodes b (nodes_set id0 node (nodes b)))
  else
    (false, mk (range b) (nodes b) (OrderedSet.push node (replacementNodes b))
               (lastUpdated b) (ksize b)).

(** [depth()]. *)
Definition depth (b : t) : result nat :=
  let keys := List.map Node.id (nodes b) in
  let bits := List.map Bits.bytesToBitString keys in
  prefix ← Bits.sharedPrefix bits; Ok (length prefix).

(** [head()]. *)
Definition head (b : t) : option Node.t := List.head (getNodes b).

End KBucket.

Module TableTraverser.

(** The buckets in the order the iterator takes them once [currentNodes] is
    used up: [leftBuckets.pop()] when [left] is set and a left bucket
    remains, otherwise [rightBuckets.pop()], otherwise the end.  Both lists
    are given last bucket first. *)
Fixpoint order {A : Type} (bound : nat) (leftRev rightRev : list A) (left : bool)
  : list A :=
  match bound with
  | O => []
  | S bound' =>
      match left, leftRev with
      | true, b :: leftRev' => b :: order bound' leftRev' rightRev false
      | _, _ =>
          match rightRev with
          | b :: rightRev' => b :: order bound' leftRev rightRev' true
          | [] => []
          end
      end
  end.

(** The nodes the iterator yields, in order, for the table [buckets] and
    the start bucket [index]: [currentNodes.pop()] takes a bucket's nodes
    last one first. *)
Definition yields (buckets : list KBucket.t) (index : nat) : list Node.t :=
  let currentNodes := match buckets !! index with
                      | Some b => KBucket.getNodes b
                      | None => []
                      end in
  let leftBuckets := take index buckets in
  let rightBuckets := drop (S index) buckets in
  rev currentNodes
  ++ concat (List.map (fun b => rev (KBucket.getNodes b))
               (order (length leftBuckets + length rightBuckets)
                      (rev leftBuckets) (rev rightBuckets) true)).

End TableTraverser.

Module RoutingTable.

(** [RoutingTable]: the node of this server, [ksize] and the buckets.  The
    [protocol] field is only used to ping, which [addContact] reports. *)
Record t : Type := mk {
  node : Node.t;
  ksize : nat;
  buckets : list KBucket.t
}.

Definition with_buckets (rt : t) (bs : list KBucket.t) : t := mk (node rt) (ksize rt) bs.

(** [flush()]: one bucket covering [0, 2^160]. *)
Definition flush (now : Z) (rt : t) : t :=
  with_buckets rt [KBucket.create now (BN.of_Z 0) (BN.of_Z (2 ^ 160)) (ksize rt)].

(** [new RoutingTable(protocol, ksize, node)]. *)
Definition create (now : Z) (ksize0 : nat) (node0 : Node.t) : t :=
  flush now (mk node0 ksize0 []).

(** [splitBucket(index)]. *)
Definition splitBucket (now : Z) (rt : t) (index : nat) : result t :=
  b ← defined (buckets rt !! index);
  let '(one, two) := KBucket.split now b in
  let assigned := <[index := one]> (buckets rt) in
  Ok (with_buckets rt (take (S index) assigned ++ two :: drop (S index) assigned)).

(** [getLonelyBuckets()]. *)
Definition getLonelyBuckets (now : Z) (rt : t) : list KBucket.t :=
  let hrago := now - 3600000 in
  List.filter (fun b => KBucket.lastUpdated b <? hrago) (buckets rt).

(** [getBucketFor(node)]: the index of the first bucket whose upper bound
    reaches the id; [undefined] when there is none. *)
Fixpoint first_reaching (id0 : Z) (bs : list KBucket.t) (index : nat) : option nat :=
  match bs with
  | [] => None
  | b :: bs' =>
      if BN.gte (snd (KBucket.range b)) (BN.of_Z id0) then Some index
      else first_reaching id0 bs' (S index)
  end.

Definition getBucketFor (rt : t) (n : Node.t) : option nat :=
  first_reaching (Node.id n) (buckets rt) 0.

(** What the table holds: the range and the nodes of each bucket. *)
Definition contacts (rt : t) : list (BN.t * BN.t * list Node.t) :=
  List.map (fun b => (KBucket.range b, KBucket.nodes b)) (buckets rt).

(** Some bucket has an upper bound that reaches the id. *)
Definition reaches (rt : t) (id0 : Z) : Prop :=
  exists b, b ∈ buckets rt /\ BN.gte (snd (KBucket.range b)) (BN.of_Z id0) = true.

(** [this.buckets[index]] for the index [getBucketFor] gives. *)
Definition bucketFor (rt : t) (n : Node.t) : result (nat * KBucket.t) :=
  index ← defined (getBucketFor rt n);
  b ← defined (buckets rt !! index);
  Ok (index, b).

(** [removeContact(node)]. *)
Definition removeContact (rt : t) (n : Node.t) : result t :=
  '(index, b) ← bucketFor rt n;
  Ok (with_buckets rt (<[index := KBucket.removeNode b n]> (buckets rt))).

(** [isNewNode(node)]. *)
Definition isNewNode (rt : t) (n : Node.t) : result bool :=
  '(index, b) ← bucketFor rt n;
  Ok (KBucket.isNewNode b n).

(** [addContact(node)]: the table, and the arguments of the [callPing]
    calls made.  The method calls itself after a split; [fuel] bounds the
    depth of that recursion. *)
Fixpoint addContact (fuel : nat) (now : Z) (rt : t) (n : Node.t)
  : result (t * list (option Node.t)) :=
  match fuel with
  | O => OutOfFuel
  | S fuel' =>
      '(index, bucket) ← bucketFor rt n;
      let '(added, bucket1) := KBucket.addNode bucket n in
      let rt1 := with_buckets rt (<[index := bucket1]> (buckets rt)) in
      if added then Ok (rt1, [])
      else
        let rng := KBucket.hasInRange bucket1 (node rt) in
        d ← KBucket.depth bucket1;
        let mod5 := negb (Nat.modulo d 5 =? 0)%nat in
        if rng || mod5 then
          rt2 ← splitBucket now rt1 index;
          addContact fuel' now rt2 n
        else Ok (rt1, [KBucket.head bucket1])
  end.

(** The loop of [findNeighbors] over the nodes the traverser yields. *)
Fixpoint collect (k : nat) (target : Node.t) (exclude : option Node.t)
    (neighbors : list Node.t) (nodes0 : list (Z * Node.t)) : list (Z * Node.t) :=
  match neighbors with
  | [] => nodes0
  | neighbor :: rest =>
      let notexcluded := match exclude with
                         | None => true
                         | Some e => negb (Node.sameHomeAs neighbor e)
                         end in
      let nodes1 :=
        if negb (Node.id neighbor =? Node.id target) && notexcluded
        then Heapq.push nodes0 (Node.distanceTo target neighbor, neighbor)
        else nodes0 in
      if (Utils.len nodes1 =? k)%nat then nodes1
      else collect k target exclude rest nodes1
  end.

(** [findNeighbors(node, k = null, exclude = null)]: the neighbours, and the
    table whose start bucket has been touched by the traverser. *)
Definition findNeighbors (now : Z) (rt : t) (target : Node.t)
    (k : option nat) (exclude : option Node.t) : result (list Node.t * t) :=
  let k1 := match k with
            | Some (S k') => S k'
            | _ => ksize rt
            end in
  '(index, b) ← bucketFor rt target;
  let rt1 := with_buckets rt (<[index := KBucket.touchLastUpdated now b]> (buckets rt)) in
  let found := collect k1 target exclude
                 (TableTraverser.yields (buckets rt1) index) [] in
  Ok (List.map snd (Heapq.nsmallest found k1 Utils.compare), rt1).

(** A sequence of [addContact] calls (the pings asked for are dropped). *)
Fixpoint addContacts (fuel : nat) (now : Z) (rt : t) (ns : list Node.t) : result t :=
  match ns with
  | [] => Ok rt
  | n :: ns' =>
      '(rt1, _) ← addContact fuel now rt n;
      addContacts fuel now rt1 ns'
  end.

(** Every node stored in a bucket has its id within the range of the
    bucket. *)
Definition ids_within_ranges (rt : t) : bool :=
  forallb (fun b => forallb (KBucket.hasInRange b) (KBucket.nodes b)) (buckets rt).

(** The number of buckets whose range holds the id. *)
Definition covering (rt : t) (id0 : Z) : nat :=
  length (List.filter (fun b => KBucket.hasInRange b (Node.mk id0 None None)) (buckets rt)).

(** The table holds a contact of the id: a node of one of its buckets
    carries it. *)
Definition holds (rt : t) (id0 : Z) : Prop :=
  exists b, b ∈ buckets rt /\ id0 ∈ List.map Node.id (KBucket.nodes b).

(** A bucket that holds a contact of the id is the bucket [getBucketFor]
    gives for the id, where [addContact], [isNewNode] and [removeContact]
    look for it. *)
Definition held_where_mapped (rt : t) (id0 : Z) : Prop :=
  forall j b,
    buckets rt !! j = Some b -> id0 ∈ List.map Node.id (KBucket.nodes b) ->
    first_reaching id0 (buckets rt) 0 = Some j.

(** What a lookup leaves of a table: everything but the [lastUpdated]
    stamps of its buckets. *)
Definition unstamped (rt : t)
  : Node.t * nat * list (BN.t * BN.t * list Node.t * OrderedSet.t * nat) :=
  (node rt, ksize rt,
   List.map (fun b => (KBucket.range b, KBucket.nodes b, KBucket.replacementNodes b,
                       KBucket.ksize b))
            (buckets rt)).

End RoutingTable.

(* ===================================================================== *)
(** * rpcudp/index.js *)
(* ===================================================================== *)

Module RPCProtocol.

(** The decoded body of a response. *)
Inductive body : Type :=
| Nodes (l : list Node.t)      (* a list of [ id, ip, port ] triples *)
| Value (v : Buffer)           (* { "value": v } *)
| Id (i : Z)                   (* the id a ping or a hole answers with *)
| Stored                       (* the [true] a store answers with *)
| Address (a : string * Z)     (* the [ ip, port ] pair a stun answers with *)
| Text (s : string).

(** What the promise of an RPC is resolved with: [ [ true, data ] ] or
    [ [ false, null ] ]. *)
Definition outcome : Type := bool * option body.

(** Who awaits the promise [rpc] returns: one of [callFindNode],
    [callFindValue], [callPing] and [callStore], which pass the result to
    [handleCallResponse(result, nodeToAsk)], or a caller that uses the method
    itself ([bootstrap_node] with [ping], [_stun] with [stun], [rpc_stun]
    with [punch], [rpc_punch] with [hole]). *)
Inductive awaiter : Type :=
| ViaCall (nodeToAsk : Node.t)
| Plain (address : string * Z).

(** [RPCProtocol]: [_outstanding] maps a message id to [ [ f, timeout ] ];
    the promise [f] is stood for by its awaiter, the timer by the message id
    in [timers] while it is armed.  [resolved] lists the calls of
    [f.resolve] made so far, each with the message id of [f]. *)
Record t : Type := mk {
  _waitTimeout : Z;
  _outstanding : gmap Z awaiter;
  timers : gset Z;
  resolved : list (Z * outcome)
}.

(** [new RPCProtocol(waitTimeout = 5000)]. *)
Definition create (waitTimeout : Z) : t := mk waitTimeout ∅ ∅ [].

(** [rpc(name, address, ...args)] up to [transport.send]: [msgid] is the
    digest drawn for the message, [fits] tells whether the framed request is
    within 512 bytes (otherwise the method throws), and the timer is
    armed. *)
Definition rpc (msgid : Z) (fits : bool) (p : t) : result t :=
  if fits then Ok (mk (_waitTimeout p) (_outstanding p) ({[ msgid ]} ∪ timers p) (resolved p))
  else TypeError.

(** The callback of [transport.send]: the entry is registered. *)
Definition sent (msgid : Z) (who : awaiter) (p : t) : t :=
  mk (_waitTimeout p) (<[msgid := who]> (_outstanding p)) (timers p) (resolved p).

(** [_acceptResponse(msgid, data, address)]: the state, and the awaiter
    that resumes with its result when the promise was resolved. *)
Definition _acceptResponse (msgid : Z) (data : body) (p : t)
  : t * option (awaiter * outcome) :=
  match _outstanding p !! msgid with
  | None => (p, None)
  | Some who =>
      (mk (_waitTimeout p) (delete msgid (_outstanding p)) (timers p ∖ {[ msgid ]})
          (resolved p ++ [(msgid, (true, Some data))]),
       Some (who, (true, Some data)))
  end.

(** [_timeout(msgid, action, port, ip)], run by the timer when it fires. *)
Definition _timeout (msgid : Z) (p : t) : result (t * (awaiter * outcome)) :=
  who ← defined (_outstanding p !! msgid);
  Ok (mk (_waitTimeout p) (delete msgid (_outstanding p)) (timers p ∖ {[ msgid ]})
         (resolved p ++ [(msgid, (false, None))]),
      (who, (false, None))).

(** The number of times the promise of [msgid] has been resolved. *)
Definition completions (msgid : Z) (p : t) : nat :=
  length (List.filter (fun r => fst r =? msgid) (resolved p)).

End RPCProtocol.

(** The framing of datagrams: one byte for the kind of message, the 20
    bytes of the message id, then the msgpack encoding of the body.  The
    codec of the [msgpack5] package is a parameter: [decode] gives nothing
    when the package throws. *)
Module Datagram.

Section WithCodec.
Variable body : Type.
Variable encode : body -> list Byte.byte.
Variable decode : list Byte.byte -> option body.

(** What [_solveDatagram] does with a datagram. *)
Inductive dispatch : Type :=
| TooSmall                                              (* logged and ignored *)
| DecodeThrows                                          (* [decode] throws *)
| AcceptRequest (msgid : list Byte.byte) (data : body)  (* [_acceptRequest(msgid, data, address)] *)
| AcceptResponse (msgid : list Byte.byte) (data : body) (* [_acceptResponse(msgid, data, address)] *)
| UnknownKind.                                          (* logged and ignored *)

(** [_solveDatagram(datagram, address)].  [method] is the text of the first
    byte in hex, compared with the numbers 0 and 1: only the bytes 00 and 01
    compare equal. *)
Definition _solveDatagram (datagram : list Byte.byte) : dispatch :=
  if (length datagram <? 22)%nat then TooSmall
  else
    let method := take 1 datagram in
    let msgid := take 20 (drop 1 datagram) in
    match decode (drop 21 datagram) with
    | None => DecodeThrows
    | Some data =>
        match method with
        | [x00%byte] => AcceptRequest msgid data
        | [x01%byte] => AcceptResponse msgid data
        | _ => UnknownKind
        end
    end.

(** [Buffer.concat([ method, msgid, encode(data) ])], as [rpc] builds a
    request and [_acceptRequest] an answer. *)
Definition frame (method : Byte.byte) (msgid : list Byte.byte) (data : body)
  : list Byte.byte :=
  [method] ++ msgid ++ encode data.

(** The datagram [rpc] sends, unless it is longer than 512 bytes. *)
Definition request (msgid : list Byte.byte) (data : body) : result (list Byte.byte) :=
  let datagram := frame x00%byte msgid data in
  if (512 <? length datagram)%nat then TypeError else Ok datagram.

(** The datagram [_acceptRequest] answers with. *)
Definition answer (msgid : list Byte.byte) (response : body) : list Byte.byte :=
  frame x01%byte msgid response.

End WithCodec.

Arguments TooSmall {body}.
Arguments DecodeThrows {body}.
Arguments AcceptRequest {body} msgid data.
Arguments AcceptResponse {body} msgid data.
Arguments UnknownKind {body}.

End Datagram.

(* ===================================================================== *)
(** * protocol.js *)
(* ===================================================================== *)

Module KademliaProtocol.

(** The RPCs a method starts without awaiting them. *)
Inductive call : Type :=
| callStore (nodeToAsk : Node.t) (key : Z) (value : Buffer)
| callPing (nodeToAsk : option Node.t)
| punch (peer : string * Z) (sender : string * Z)
| hole (peer : string * Z) (id0 : Z).

(** A method of the protocol: the RPCs it has started, in order, and the
    value it returns or the exception that ends it.  The RPCs started before
    an exception stay started. *)
Definition eff (A : Type) : Type := list call * result A.

#[global] Instance eff_ret : MRet eff := fun A a => ([], Ok a).

#[global] Instance eff_bind : MBind eff := fun A B f m =>
  match m with
  | (calls, Ok a) => let '(more, r) := f a in (calls ++ more, r)
  | (calls, TypeError) => (calls, TypeError)
  | (calls, OutOfFuel) => (calls, OutOfFuel)
  end.

Definition lift {A : Type} (r : result A) : eff A := ([], r).

Definition start (c : call) : eff unit := ([c], Ok tt).

(** [KademliaProtocol extends RPCProtocol]. *)
Record t : Type := mk {
  rpc : RPCProtocol.t;
  router : RoutingTable.t;
  storage : Storage.t;
  sourceNode : Node.t
}.

Definition with_rpc (st : t) (p : RPCProtocol.t) : t :=
  mk p (router st) (storage st) (sourceNode st).

Definition with_router (st : t) (rt : RoutingTable.t) : t :=
  mk (rpc st) rt (storage st) (sourceNode st).

Definition with_storage (st : t) (s : Storage.t) : t :=
  mk (rpc st) (router st) s (sourceNode st).

Definition BIT_EMPTY : string := "0000000000000000000000000000000000000000".
Definition BIT_SPACE : nat := 40.

(** [s.slice(-n)]: the last [n] characters. *)
Definition slice_last (n : nat) (s : string) : string :=
  String.substring (String.length s - n) n s.

(** The body of the [map] of [getRefreshIDs] for one bucket, [rnd] being
    the value [random()] returns. *)
Definition refreshID (b : KBucket.t) (rnd : BN.t) : string :=
  let '(min, max) := KBucket.range b in
  let sub := BN.minus max min in
  let num := BN.integerValue (BN.plus (BN.times sub rnd) sub) in
  let hex := BN.toString16 num in
  slice_last BIT_SPACE (BIT_EMPTY ++ hex).

(** [getRefreshIDs()]; [rnds] are the successive values of [random()]. *)
Definition getRefreshIDs (now : Z) (st : t) (rnds : list BN.t) : list string :=
  List.map (fun '(b, rnd) => refreshID b rnd)
           (List.combine (RoutingTable.getLonelyBuckets now (router st)) rnds).

(** [far] is a furthest, [near] a closest of the [neighbors] of [keynode]. *)
Definition is_furthest (keynode : Node.t) (neighbors : list Node.t) (far : Node.t) : Prop :=
  far ∈ neighbors
  /\ forall m, m ∈ neighbors -> Node.distanceTo m keynode <= Node.distanceTo far keynode.

Definition is_closest (keynode : Node.t) (neighbors : list Node.t) (near : Node.t) : Prop :=
  near ∈ neighbors
  /\ forall m, m ∈ neighbors -> Node.distanceTo near keynode <= Node.distanceTo m keynode.

(** The condition under which a stored key is sent to a new node: there are
    no neighbours, or the new node is strictly closer to the key than the
    furthest neighbour and this node strictly closer than the closest. *)
Definition mustStore (node thisNode keynode : Node.t) (neighbors : list Node.t) : Prop :=
  neighbors = []
  \/ ((exists far, is_furthest keynode neighbors far
                   /\ Node.distanceTo node keynode < Node.distanceTo far keynode)
      /\ (exists near, is_closest keynode neighbors near
                       /\ Node.distanceTo thisNode keynode < Node.distanceTo near keynode)).

Section WithDigest.

(** [digest] of utils.js: the SHA-1 of a string, as the identifier it
    spells. *)
Variable digest : Z -> Z.

(** [new Node(digest(key))]. *)
Definition keynodeOf (key : Z) : Node.t := Node.mk (digest key) None None.

(** The neighbours [findNeighbors(keynode)] returns for a stored key. *)
Definition neighborsOf (now : Z) (rt : RoutingTable.t) (key : Z) : list Node.t :=
  match RoutingTable.findNeighbors now rt (keynodeOf key) None None with
  | Ok (l, _) => l
  | _ => []
  end.

(** The tests [welcomeIfNewNode] makes on the neighbours of one stored key:
    [l === 0 || (newNodeClose && thisNodeClosest)]. *)
Definition shouldStore (node thisNode keynode : Node.t) (neighbors : list Node.t) : bool :=
  match neighbors with
  | [] => true
  | first_ :: _ =>
      let last_ := Node.distanceTo (List.last neighbors first_) keynode in
      let newNodeClose := Node.distanceTo node keynode <? last_ in
      let first := Node.distanceTo first_ keynode in
      let thisNodeClosest := Node.distanceTo thisNode keynode <? first in
      newNodeClose && thisNodeClosest
  end.

(** The loop of [welcomeIfNewNode] over [storages]. *)
Fixpoint welcomeLoop (now : Z) (node thisNode : Node.t) (storages : list (Z * Buffer))
    (rt : RoutingTable.t) : eff RoutingTable.t :=
  match storages with
  | [] => mret rt
  | (key, value) :: rest =>
      let keynode := keynodeOf key in
      '(neighbors, rt1) ← lift (RoutingTable.findNeighbors now rt keynode None None);
      _ ← (if shouldStore node thisNode keynode neighbors
           then start (callStore node key value) else mret tt);
      welcomeLoop now node thisNode rest rt1
  end.

(** [welcomeIfNewNode(node)]. *)
Definition welcomeIfNewNode (fuel : nat) (now : Z) (st : t) (node : Node.t) : eff t :=
  isNew ← lift (RoutingTable.isNewNode (router st) node);
  if negb isNew then mret st
  else
    let '(storages, storage1) := Storage.items now (storage st) in
    rt1 ← welcomeLoop now node (sourceNode st) storages (router st);
    '(rt2, pings) ← lift (RoutingTable.addContact fuel now rt1 node);
    (List.map callPing pings, Ok (mk (rpc st) rt2 storage1 (sourceNode st))).

(** [handleCallResponse(result, node)]. *)
Definition handleCallResponse (fuel : nat) (now : Z) (st : t)
    (result_ : RPCProtocol.outcome) (node : Node.t) : eff t :=
  if negb (fst result_) then
    rt1 ← lift (RoutingTable.removeContact (router st) node);
    mret (with_router st rt1)
  else welcomeIfNewNode fuel now st node.

(** The awaiter of a promise resumes with the value it was resolved with. *)
Definition resume (fuel : nat) (now : Z) (st : t)
    (who : RPCProtocol.awaiter) (result_ : RPCProtocol.outcome) : eff t :=
  match who with
  | RPCProtocol.ViaCall nodeToAsk => handleCallResponse fuel now st result_ nodeToAsk
  | RPCProtocol.Plain _ => mret st
  end.

(** The timer of [msgid] fires. *)
Definition timerFires (fuel : nat) (now : Z) (msgid : Z) (st : t) : eff t :=
  '(p, (who, result_)) ← lift (RPCProtocol._timeout msgid (rpc st));
  resume fuel now (with_rpc st p) who result_.

(** A response datagram for [msgid] arrives. *)
Definition responseArrives (fuel : nat) (now : Z) (msgid : Z) (data : RPCProtocol.body)
    (st : t) : eff t :=
  match RPCProtocol._acceptResponse msgid data (rpc st) with
  | (p, Some (who, result_)) => resume fuel now (with_rpc st p) who result_
  | (p, None) => mret (with_rpc st p)
  end.

(** The requests [_acceptRequest] dispatches to the [rpc_] methods. *)
Inductive request : Type :=
| ping (nodeid : Z)
| store (nodeid : Z) (key : Z) (value : Buffer)
| find_node (nodeid : Z) (key : Z)
| find_value (nodeid : Z) (key : Z)
| stun (peers : list (string * Z))
| punch_ (peer : string * Z)
| hole_.

(** [new Node(nodeid, ip, port)] for the sender of a request. *)
Definition sourceOf (sender : string * Z) (nodeid : Z) : Node.t :=
  Node.mk nodeid (Some (fst sender)) (Some (snd sender)).

(** [rpc_find_node(sender, nodeid, key)]. *)
Definition rpc_find_node (fuel : nat) (now : Z) (st : t) (sender : string * Z)
    (nodeid key : Z) : eff (t * RPCProtocol.body) :=
  let source := sourceOf sender nodeid in
  st1 ← welcomeIfNewNode fuel now st source;
  let node := Node.mk key None None in
  '(neighbors, rt1) ← lift (RoutingTable.findNeighbors now (router st1) node None (Some source));
  mret (with_router st1 rt1, RPCProtocol.Nodes neighbors).

(** The [rpc_] method a request selects, applied to the sender and the
    arguments: the state and the value returned. *)
Definition handle (fuel : nat) (now : Z) (st : t) (sender : string * Z) (req : request)
  : eff (t * RPCProtocol.body) :=
  match req with
  | ping nodeid =>
      st1 ← welcomeIfNewNode fuel now st (sourceOf sender nodeid);
      mret (st1, RPCProtocol.Id (Node.id (sourceNode st1)))
  | store nodeid key value =>
      st1 ← welcomeIfNewNode fuel now st (sourceOf sender nodeid);
      mret (with_storage st1 (Storage.set now key value (storage st1)), RPCProtocol.Stored)
  | find_node nodeid key => rpc_find_node fuel now st sender nodeid key
  | find_value nodeid key =>
      st1 ← welcomeIfNewNode fuel now st (sourceOf sender nodeid);
      let '(value, storage1) := Storage.get now key (storage st1) in
      let st2 := with_storage st1 storage1 in
      match value with
      | None => rpc_find_node fuel now st2 sender nodeid key
      | Some v => mret (st2, RPCProtocol.Value v)
      end
  | stun peers =>
      (List.map (fun peer => punch peer sender) peers, Ok (st, RPCProtocol.Address sender))
  | punch_ peer =>
      _ ← start (hole peer (Node.id (sourceNode st)));
      mret (st, RPCProtocol.Text "hole")
  | hole_ => mret (st, RPCProtocol.Id (Node.id (sourceNode st)))
  end.

End WithDigest.

End KademliaProtocol.

(* ===================================================================== *)
(** * crawling.js *)
(* ===================================================================== *)

Module RPCFindResponse.

(** [happened()]. *)
Definition happened (response : RPCProtocol.outcome) : bool := fst response.

(** [getNodeList()]: [ (this.response[1] || []).map(...) ]; a body that is
    not an array has no [map]. *)
Definition getNodeList (response : RPCProtocol.outcome) : result (list Node.t) :=
  match snd response with
  | None => Ok []
  | Some (RPCProtocol.Nodes l) => Ok l
  | Some _ => TypeError
  end.

(** [hasValue()]: the body is an object with a [value]. *)
Definition hasValue (response : RPCProtocol.outcome) : bool :=
  match snd response with
  | Some (RPCProtocol.Value _) => true
  | _ => false
  end.

(** [getValue()]. *)
Definition getValue (response : RPCProtocol.outcome) : option Buffer :=
  match snd response with
  | Some (RPCProtocol.Value v) => Some v
  | _ => None
  end.

End RPCFindResponse.

Module NodeSpiderCrawl.

(** [SpiderCrawl]: [ksize], [alpha], the node looked for, the heap
    [nearest] and [lastIDsCrawled].  The latter is the concatenation of the
    ids of a round; ids have a fixed length of 40 digits, so it is kept as
    the list of these ids.  The [protocol] is stood for by the answers of the
    network, the [gateways] are left out: the [stun] calls of [_stun] do not
    touch the crawl. *)
Record t : Type := mk {
  ksize : nat;
  alpha : nat;
  node : Node.t;
  nearest : NodeHeap.t;
  lastIDsCrawled : list Z
}.

(** [new NodeSpiderCrawl(protocol, node, peers, ksize, alpha, gateways)]. *)
Definition create (node0 : Node.t) (peers : list Node.t) (ksize0 alpha0 : nat) : t :=
  mk ksize0 alpha0 node0 (NodeHeap.push (NodeHeap.create node0 ksize0) peers) [].

(** [_nodesFound(responses)] up to the test that ends the crawl: the heap
    after the pushes and the removal. *)
Fixpoint absorb (responses : list (Z * RPCProtocol.outcome)) (h : NodeHeap.t)
    (toremove : list Z) : result (NodeHeap.t * list Z) :=
  match responses with
  | [] => Ok (h, toremove)
  | (peerid, response) :: rest =>
      if negb (RPCFindResponse.happened response)
      then absorb rest h (toremove ++ [peerid])
      else
        l ← RPCFindResponse.getNodeList response;
        absorb rest (NodeHeap.push h l) toremove
  end.

(** [find()]: [_find(callFindNode)] and [_nodesFound], which calls [find]
    again until every node of [nearest] has been contacted.  [network] gives
    the result [callFindNode(peer, node)] resolves with; [fuel] bounds the
    number of rounds. *)
Fixpoint find (fuel : nat) (network : Node.t -> RPCProtocol.outcome) (c : t)
  : result (list Node.t) :=
  match fuel with
  | O => OutOfFuel
  | S fuel' =>
      let nears := NodeHeap.getIDs (nearest c) in
      let count :=
        if bool_decide (nears = lastIDsCrawled c) then (40 * length nears)%nat
        else alpha c in
      let uc := take count (NodeHeap.getUncontacted (nearest c)) in
      let marked := fold_left NodeHeap.markContacted uc (nearest c) in
      let found := List.map (fun peer => (Node.id peer, network peer)) uc in
      '(pushed, toremove) ← absorb found marked [];
      let removed := NodeHeap.remove pushed toremove in
      if NodeHeap.allBeenContacted removed then Ok (NodeHeap.iter removed)
      else find fuel' network (mk (ksize c) (alpha c) (node c) removed nears)
  end.

End NodeSpiderCrawl.

(* ===================================================================== *)
(** * network.js *)
(* ===================================================================== *)

Module Promise.

(** How a promise settles. *)
Inductive settlement : Type :=
| Fulfilled (value : RPCProtocol.outcome)
| Rejected.

(** A promise that settles: the instant at which it does, and how. *)
Record t : Type := mk { instant : nat; how : settlement }.

(** [Promise.race(iter)] called at instant [now]: it settles as the first
    promise of [iter] to settle does (a promise settled before [now] counts
    as settling at [now]; of two that settle together the earlier in [iter]
    wins); on an empty [iter] it never settles. *)
Fixpoint race (now : nat) (iter : list t) : option (nat * settlement) :=
  match iter with
  | [] => None
  | p :: rest =>
      let tp := Nat.max (instant p) now in
      match race now rest with
      | None => Some (tp, how p)
      | Some (t', h') => if (tp <=? t')%nat then Some (tp, how p) else Some (t', h')
      end
  end.

End Promise.

Module ValueSpiderCrawl.

(** [ValueSpiderCrawl]: the fields of [SpiderCrawl] and
    [nearestWithoutValue], a heap of one node. *)
Record t : Type := mk {
  ksize : nat;
  alpha : nat;
  node : Node.t;
  nearest : NodeHeap.t;
  lastIDsCrawled : list Z;
  nearestWithoutValue : NodeHeap.t
}.

(** [new ValueSpiderCrawl(protocol, node, peers, ksize, alpha, gateways)]. *)
Definition create (node0 : Node.t) (peers : list Node.t) (ksize0 alpha0 : nat) : t :=
  mk ksize0 alpha0 node0 (NodeHeap.push (NodeHeap.create node0 ksize0) peers) []
     (NodeHeap.create node0 1).

(** Two Buffers have the same [JSON.stringify] text when they hold the same
    bytes. *)
Fixpoint same_bytes (a b : Buffer) : bool :=
  match a, b with
  | [], [] => true
  | x :: a', y :: b' => Byte.eqb x y && same_bytes a' b'
  | _, _ => false
  end.

(** The [counter] Map of [_handleFoundValues]. *)
Definition counter_get (key : Buffer) (counter : list (Buffer * nat)) : option nat :=
  option_map snd (List.find (fun e => same_bytes (fst e) key) counter).

Fixpoint counter_set (key : Buffer) (cnt : nat) (counter : list (Buffer * nat))
  : list (Buffer * nat) :=
  match counter with
  | [] => [(key, cnt)]
  | e :: counter' =>
      if same_bytes (fst e) key then (key, cnt) :: counter'
      else e :: counter_set key cnt counter'
  end.

(** One turn of the [forEach] of [_handleFoundValues] on [most_common] and
    [counter]. *)
Definition count (acc : (option Buffer * nat) * list (Buffer * nat)) (val : Buffer)
  : (option Buffer * nat) * list (Buffer * nat) :=
  let '(most_common, counter) := acc in
  let cnt := (default 0 (counter_get val counter) + 1)%nat in
  let max := snd most_common in
  let counter1 := counter_set val cnt counter in
  if (max <? cnt)%nat then ((Some val, cnt), counter1) else (most_common, counter1).

(** [most_common] and [counter] after the [forEach]; [most_common] starts
    as [ [ undefined, 0 ] ]. *)
Definition tally (values : list Buffer) : (option Buffer * nat) * list (Buffer * nat) :=
  fold_left count values ((None, 0%nat), []).

(** The arguments of a [callStore(peerToSaveTo, this.node.id, value)]. *)
Definition store_call : Type := Node.t * Z * option Buffer.

(** [_handleFoundValues(values)]: the [callStore] it awaits, if any, and the
    value it returns.  [stores] gives the promise of a [callStore]; a
    rejected one ends the method with its exception. *)
Definition _handleFoundValues (stores : Node.t -> Promise.t) (c : t) (values : list Buffer)
  : result (option store_call * option Buffer) :=
  let value := fst (fst (tally values)) in
  '(peerToSaveTo, _) ← NodeHeap.popleft (nearestWithoutValue c);
  match peerToSaveTo with
  | None => Ok (None, value)
  | Some peer =>
      match Promise.how (stores peer) with
      | Promise.Fulfilled _ => Ok (Some (peer, Node.id (node c), value), value)
      | Promise.Rejected => TypeError
      end
  end.

(** The loop of [_nodesFound(responses)]: [nearest], [nearestWithoutValue],
    [toremove] and [foundValues] after it. *)
Fixpoint absorb (responses : list (Z * RPCProtocol.outcome)) (h nwv : NodeHeap.t)
    (toremove : list Z) (foundValues : list Buffer)
  : result (NodeHeap.t * NodeHeap.t * list Z * list Buffer) :=
  match responses with
  | [] => Ok (h, nwv, toremove, foundValues)
  | (peerid, response) :: rest =>
      if negb (RPCFindResponse.happened response)
      then absorb rest h nwv (toremove ++ [peerid]) foundValues
      else
        match RPCFindResponse.getValue response with
        | Some v => absorb rest h nwv toremove (foundValues ++ [v])
        | None =>
            peer ← defined (NodeHeap.getNodeById h peerid);
            l ← RPCFindResponse.getNodeList response;
            absorb rest (NodeHeap.push h l) (NodeHeap.push nwv [peer]) toremove foundValues
        end
  end.

(** [find()]: [_find(callFindValue)] and [_nodesFound], which ends with the
    values found, with [null] when every node of [nearest] has been
    contacted, and calls [find] again otherwise.  [network] gives the result
    [callFindValue(peer, node)] resolves with; [fuel] bounds the number of
    rounds. *)
Fixpoint find (fuel : nat) (network : Node.t -> RPCProtocol.outcome)
    (stores : Node.t -> Promise.t) (c : t)
  : result (option store_call * option Buffer) :=
  match fuel with
  | O => OutOfFuel
  | S fuel' =>
      let nears := NodeHeap.getIDs (nearest c) in
      let count :=
        if bool_decide (nears = lastIDsCrawled c) then (40 * length nears)%nat
        else alpha c in
      let uc := take count (NodeHeap.getUncontacted (nearest c)) in
      let marked := fold_left NodeHeap.markContacted uc (nearest c) in
      let found := List.map (fun peer => (Node.id peer, network peer)) uc in
      '(pushed, nwv, toremove, foundValues) ←
        absorb found marked (nearestWithoutValue c) [] [];
      let removed := NodeHeap.remove pushed toremove in
      let c1 := mk (ksize c) (alpha c) (node c) removed nears nwv in
      if (0 <? Utils.len foundValues)%nat then _handleFoundValues stores c1 foundValues
      else if NodeHeap.allBeenContacted removed then Ok (None, None)
      else find fuel' network stores c1
  end.

End ValueSpiderCrawl.

Module Server.

(** [Server]: [ksize], [alpha] and the protocol, which holds the storage
    and the node of the server. *)
Record t : Type := mk {
  ksize : nat;
  alpha : nat;
  protocol : KademliaProtocol.t
}.

(** What awaiting [set_digest] gives. *)
Inductive returned : Type :=
| ReturnsFalse                              (* [return false] *)
| Returns (value : RPCProtocol.outcome)     (* the value [any(ds)] resolves with *)
| NeverSettles                              (* [any(ds)] stays pending *)
| Throws.                                   (* an exception, or the crawl ran out of rounds *)

(** The helper [any(iter)] of [set_digest], called at instant [now]. *)
Fixpoint any (now : nat) (iter : list Promise.t) : returned :=
  match iter with
  | [] => NeverSettles
  | _ :: shifted =>
      match Promise.race now iter with
      | None => NeverSettles
      | Some (_, Promise.Fulfilled val) => Returns val
      | Some (t', Promise.Rejected) => any t' shifted
      end
  end.

(** [max.apply(null, distances)] followed by [d.lt(biggest)]: with no
    argument [max] is NaN and the comparison is false. *)
Definition lt_biggest (d : Z) (distances : list Z) : bool :=
  match distances with
  | [] => false
  | x :: rest => d <? fold_left Z.max rest x
  end.

(** [set_digest(dkey, value)]: what the call gives, and the storage of the
    server.  [network] gives the results of the [callFindNode] calls of the
    crawl, [stores] the promises of the [callStore] calls; the changes these
    calls make to the routing table through [handleCallResponse] come after
    the table has been read and are left out. *)
Definition set_digest (fuel : nat) (now : Z) (srv : t)
    (network : Node.t -> RPCProtocol.outcome) (stores : Node.t -> Promise.t)
    (dkey : Z) (value : Buffer) : returned * Storage.t :=
  let st := protocol srv in
  let storage0 := KademliaProtocol.storage st in
  let node := Node.mk dkey None None in
  match RoutingTable.findNeighbors now (KademliaProtocol.router st) node None None with
  | Ok (nearest, _) =>
      if (length nearest =? 0)%nat then (ReturnsFalse, storage0)
      else
        let spider := NodeSpiderCrawl.create node nearest (ksize srv) (alpha srv) in
        match NodeSpiderCrawl.find fuel network spider with
        | Ok nodes =>
            let distances := List.map (fun n => Node.distanceTo n node) nodes in
            let storage1 :=
              if lt_biggest (Node.distanceTo (KademliaProtocol.sourceNode st) node) distances
              then Storage.set now dkey value storage0 else storage0 in
            let ds := List.map stores nodes in
            (any 0 ds, storage1)
        | _ => (Throws, storage0)
        end
  | _ => (Throws, storage0)
  end.

(** [set(key, value)] with a Buffer, [digest] being the SHA-1 of utils.js. *)
Definition set (digest : Z -> Z) (fuel : nat) (now : Z) (srv : t)
    (network : Node.t -> RPCProtocol.outcome) (stores : Node.t -> Promise.t)
    (key : Z) (value : Buffer) : returned * Storage.t :=
  set_digest fuel now srv network stores (digest key) value.

(** [get(key)] on the digest of the key: the [callStore] made, if any, the
    value returned ([null] when the key is not found), and the storage of
    the server.  [network] gives the results of the [callFindValue] calls
    of the crawl. *)
Definition get_digest (fuel : nat) (now : Z) (srv : t)
    (network : Node.t -> RPCProtocol.outcome) (stores : Node.t -> Promise.t) (dkey : Z)
  : result (option ValueSpiderCrawl.store_call * option Buffer) * Storage.t :=
  let st := protocol srv in
  let '(local, storage1) := Storage.get now dkey (KademliaProtocol.storage st) in
  match local with
  | Some _ =>
      let '(again, storage2) := Storage.get now dkey storage1 in
      (Ok (None, again), storage2)
  | None =>
      let node := Node.mk dkey None None in
      match RoutingTable.findNeighbors now (KademliaProtocol.router st) node None None with
      | Ok (nearest, _) =>
          if (length nearest =? 0)%nat then (Ok (None, None), storage1)
          else
            let spider := ValueSpiderCrawl.create node nearest (ksize srv) (alpha srv) in
            (ValueSpiderCrawl.find fuel network stores spider, storage1)
      | TypeError => (TypeError, storage1)
      | OutOfFuel => (OutOfFuel, storage1)
      end
  end.

(** A result that tells success: a tuple whose first component is true. *)
Definition is_success (r : returned) : bool :=
  match r with
  | Returns (true, _) => true
  | _ => false
  end.

End Server.

(* ===================================================================== *)
(** * Tables of the examples *)
(* ===================================================================== *)

Module Scenario.

(** The contact of an id, reached at 10.0.0.1. *)
Definition contactAt (i : Z) : Node.t :=
  Node.mk i (Some "10.0.0.1"%string) (Some (13000 + i mod 1000)).

(** The table of the node of id [me], with [ksize] = 8, after one
    [addContact] for each of [ids], in turn. *)
Definition tableOf (me : Z) (ids : list Z) : RoutingTable.t :=
  let empty := RoutingTable.create 0 8 (Node.mk me None None) in
  match RoutingTable.addContacts 8 0 empty (List.map contactAt ids) with
  | Ok rt => rt
  | _ => empty
  end.

(** The ids of the nodes and of the replacement nodes of each bucket. *)
Definition idsOf (rt : RoutingTable.t) : list (list Z * list Z) :=
  List.map (fun b => (List.map Node.id (KBucket.nodes b),
                      List.map Node.id (KBucket.replacementNodes b)))
           (RoutingTable.buckets rt).

End Scenario.

(* ===================================================================== *)
(** * Invariants used by the properties *)
(* ===================================================================== *)

Module NodeHeapInv.

(** What [push] and [remove] keep of the heap array: each id once, and each
    node with its distance to the node of the heap. *)
Definition sound (h : NodeHeap.t) : Prop :=
  NoDup (NodeHeap.ids h)
  /\ forall e, e ∈ NodeHeap.heap h -> fst e = Node.distanceTo (NodeHeap.node h) (snd e).

End NodeHeapInv.

Module ValueCrawlInv.

(** The number of times [w] occurs in [values]. *)
Definition occurrences (w : Buffer) (values : list Buffer) : nat :=
  List.count_occ (List.list_eq_dec Byte.byte_eq_dec) values w.

(** [most_common] and [counter] once the values [l] have been counted:
    [counter] holds the number of occurrences of each value, and
    [most_common] a value of [l] with the greatest number of them. *)
Definition tallied (l : list Buffer)
    (acc : (option Buffer * nat) * list (Buffer * nat)) : Prop :=
  (forall w, default 0%nat (ValueSpiderCrawl.counter_get w (snd acc)) = occurrences w l)
  /\ (forall w, (occurrences w l <= snd (fst acc))%nat)
  /\ match fst (fst acc) with
     | None => l = [] /\ snd (fst acc) = 0%nat
     | Some v => v ∈ l /\ snd (fst acc) = occurrences v l
     end.

End ValueCrawlInv.

(* ===================================================================== *)
(** * Properties of the store *)
(* ===================================================================== *)

Module StorageFacts.
Import Storage.

Local Arguments key_of : simpl never.
Local Arguments stamp_of : simpl never.
Local Arguments value_of : simpl never.

Lemma filter_notin (key : Z) (l : list entry) :
  key ∉ List.map key_of l ->
  List.filter (fun e => negb (key_of e =? key)) l = l.
Proof.
  induction l as [|e l IH]; simpl; intros Hn; [reflexivity|].
  apply not_elem_of_cons in Hn as [Hne Hn].
  destruct (Z.eqb_spec (key_of e) key) as [Heq|_]; simpl.
  - congruence.
  - f_equal. now apply IH.
Qed.

Lemma pop_fifo_entries (s : t) :
  NoDup (keys s) -> entries (snd (pop FIFO s)) = List.tl (entries s).
Proof.
  destruct s as [tt [|e l]]; unfold pop, keys, delete; simpl; [reflexivity|].
  intros Hnd. apply NoDup_cons in Hnd as [Hnotin _].
  rewrite Z.eqb_refl. simpl. now apply filter_notin.
Qed.

Lemma NoDup_keys_tl (l : list entry) :
  NoDup (List.map key_of l) -> NoDup (List.map key_of (List.tl l)).
Proof. destruct l; simpl; [auto|]. intros H. now apply NoDup_cons in H. Qed.

Lemma iter_pop_entries (n : nat) (s : t) :
  NoDup (keys s) ->
  entries (Nat.iter n (fun s' => snd (pop FIFO s')) s) = List.skipn n (entries s)
  /\ ttl (Nat.iter n (fun s' => snd (pop FIFO s')) s) = ttl s.
Proof.
  revert s. induction n as [|n IH]; intros s Hnd; [now split|].
  rewrite Nat.iter_succ_r.
  assert (Ht : ttl (snd (pop FIFO s)) = ttl s).
  { unfold pop. destruct (entries s); reflexivity. }
  destruct (IH (snd (pop FIFO s))) as [IHe IHt].
  { unfold keys. rewrite pop_fifo_entries by exact Hnd. now apply NoDup_keys_tl. }
  rewrite IHe, IHt, pop_fifo_entries by exact Hnd. split; [|exact Ht].
  destruct (entries s); simpl; [now rewrite List.skipn_nil | reflexivity].
Qed.

Lemma older_length (now age : Z) (s : t) :
  length (iteritemsOlderThan now age s)
  = length (List.filter (expired now age) (entries s)).
Proof.
  unfold iteritemsOlderThan, tripleIterable. rewrite List.length_map.
  induction (entries s) as [|e l IH]; simpl; [reflexivity|].
  unfold expired at 1. destruct (now - age >=? stamp_of e); simpl; now rewrite IH.
Qed.

Lemma cull_skipn (now : Z) (s : t) :
  NoDup (keys s) ->
  entries (cull now s)
  = List.skipn (length (List.filter (expired now (ttl s)) (entries s))) (entries s).
Proof.
  intros Hnd. unfold cull. rewrite older_length. now apply iter_pop_entries.
Qed.

Lemma cull_ttl (now : Z) (s : t) : NoDup (keys s) -> ttl (cull now s) = ttl s.
Proof. intros Hnd. unfold cull. now apply iter_pop_entries. Qed.

(** On a list whose stamps do not decrease, the expired entries form a
    prefix: dropping as many entries as are expired leaves the live ones. *)
Lemma skipn_expired_sorted (now ttl0 : Z) (l : list entry) :
  StronglySorted Z.le (List.map stamp_of l) ->
  List.skipn (length (List.filter (expired now ttl0) l)) l
  = List.filter (fun e => negb (expired now ttl0 e)) l.
Proof.
  induction l as [|e l IH]; simpl; intros Hs; [reflexivity|].
  inversion Hs as [|? ? Hs' Hall]; subst.
  destruct (expired now ttl0 e) eqn:Ee; simpl.
  - now apply IH.
  - assert (Hnone : forall l', Forall (Z.le (stamp_of e)) (List.map stamp_of l') ->
              List.filter (expired now ttl0) l' = []
              /\ List.filter (fun e' => negb (expired now ttl0 e')) l' = l').
    { induction l' as [|e' l' IH']; simpl; intros Hf; [now split|].
      inversion Hf as [|? ? Hle Hf']; subst.
      assert (He' : expired now ttl0 e' = false).
      { unfold expired in *. lia. }
      rewrite He'. simpl. destruct (IH' Hf') as [-> ->]. now split. }
    destruct (Hnone l Hall) as [-> ->]. reflexivity.
Qed.

Lemma inv_strongly (clock : Z) (s : t) :
  inv clock s -> StronglySorted Z.le (stamps s).
Proof.
  intros (_ & Hs & _). apply Sorted_StronglySorted; [|exact Hs].
  intros x y z. apply Z.le_trans.
Qed.

(** [cull] removes exactly the expired entries. *)
Lemma cull_exact (clock now : Z) (s : t) :
  inv clock s ->
  entries (cull now s)
  = List.filter (fun e => negb (expired now (ttl s) e)) (entries s).
Proof.
  intros Hi. rewrite cull_skipn by apply Hi.
  apply skipn_expired_sorted. now apply inv_strongly with clock.
Qed.

Lemma inv_linv (clock : Z) (s : t) : inv clock s <-> linv clock (entries s).
Proof.
  unfold inv, linv, keys, stamps. split; intros (Hk & Hs & Hf); repeat split; auto.
  - apply Sorted_StronglySorted; [|exact Hs]. intros x y z. apply Z.le_trans.
  - now apply StronglySorted_Sorted.
Qed.

Lemma linv_mono (c c' : Z) (l : list entry) : c <= c' -> linv c l -> linv c' l.
Proof.
  intros Hc (Hk & Hs & Hf). repeat split; auto.
  eapply Forall_impl; [exact Hf|]. simpl. lia.
Qed.

Lemma elem_of_map_filter {B} (f : entry -> B) (p : entry -> bool) (l : list entry) (x : B) :
  x ∈ List.map f (List.filter p l) -> x ∈ List.map f l.
Proof.
  rewrite !list_elem_of_In, !in_map_iff. intros (e & He & Hin).
  apply filter_In in Hin as [Hin _]. eauto.
Qed.

Lemma linv_filter (c : Z) (p : entry -> bool) (l : list entry) :
  linv c l -> linv c (List.filter p l).
Proof.
  induction l as [|e l IH]; simpl; intros (Hk & Hs & Hf); [repeat split; auto|].
  apply NoDup_cons in Hk as [Hnotin Hk].
  apply StronglySorted_inv in Hs as [Hs Hall].
  apply Forall_cons in Hf as [He Hf].
  destruct (IH (conj Hk (conj Hs Hf))) as (Hk' & Hs' & Hf').
  destruct (p e); simpl; [|repeat split; auto].
  repeat split.
  - apply NoDup_cons. split; [|exact Hk'].
    intros Hin. apply Hnotin. eapply elem_of_map_filter, Hin.
  - constructor; [exact Hs'|].
    apply Forall_forall. intros x Hx. apply (proj1 (Forall_forall _ _) Hall).
    eapply elem_of_map_filter, Hx.
  - constructor; auto.
Qed.

Lemma assoc_set_fresh (key : Z) (x : Z * Buffer) (l : list entry) :
  key ∉ List.map key_of l -> assoc_set key x l = l ++ [(key, x)].
Proof.
  induction l as [|e l IH]; simpl; intros Hn; [reflexivity|].
  apply not_elem_of_cons in Hn as [Hne Hn].
  destruct (Z.eqb_spec (key_of e) key) as [Heq|_]; [congruence|].
  f_equal. now apply IH.
Qed.

Lemma linv_snoc (c now key : Z) (v : Buffer) (l : list entry) :
  c <= now -> key ∉ List.map key_of l -> linv c l ->
  linv now (l ++ [(key, (now, v))]).
Proof.
  intros Hc Hn (Hk & Hs & Hf). unfold linv. rewrite !List.map_app. simpl.
  repeat split.
  - apply NoDup_app. repeat split; [exact Hk| |apply NoDup_singleton].
    intros x Hx Hx'. apply list_elem_of_singleton in Hx'. now subst.
  - apply StronglySorted_app_2; [|exact Hs|repeat constructor].
    intros x1 x2 Hx1 Hx2. apply list_elem_of_singleton in Hx2. subst.
    apply (proj1 (Forall_forall _ _) Hf) in Hx1. unfold stamp_of. simpl. lia.
  - apply Forall_app. split; [|repeat constructor; unfold stamp_of; simpl; lia].
    eapply Forall_impl; [exact Hf|]. simpl. lia.
Qed.

Lemma delete_notin (key : Z) (l : list entry) :
  key ∉ List.map key_of (List.filter (fun e => negb (key_of e =? key)) l).
Proof.
  rewrite list_elem_of_In, in_map_iff. intros (e & He & Hin).
  apply filter_In in Hin as [_ Hin]. apply negb_true_iff in Hin. lia.
Qed.

Lemma has_spec (key : Z) (s : t) : has key s = true <-> key ∈ keys s.
Proof.
  unfold has, keys. rewrite existsb_exists, list_elem_of_In, in_map_iff.
  split; intros (e & H1 & H2); exists e.
  - split; [lia | exact H1].
  - split; [exact H2 | lia].
Qed.

(** The shape of the store after the operations. *)
Lemma cull_eq (clock now : Z) (s : t) :
  inv clock s ->
  cull now s = mk (ttl s) (List.filter (fun e => negb (expired now (ttl s) e)) (entries s)).
Proof.
  intros Hi. pose proof (cull_exact clock now s Hi) as He.
  pose proof (cull_ttl now s (proj1 Hi)) as Ht.
  destruct (cull now s). simpl in *. now subst.
Qed.

Lemma inv_cull (clock now : Z) (s : t) : inv clock s -> inv clock (cull now s).
Proof.
  intros Hi. rewrite (cull_eq clock) by exact Hi.
  apply inv_linv. simpl. apply linv_filter. now apply inv_linv.
Qed.

(** [set] deletes any prior entry of the key and appends a fresh entry
    stamped [now], then culls. *)
Lemma set_eq (now key : Z) (value : Buffer) (s : t) :
  set now key value s
  = cull now (mk (ttl s) (List.filter (fun e => negb (key_of e =? key)) (entries s)
                          ++ [(key, (now, value))])).
Proof.
  unfold set, super_set. destruct (has key s) eqn:Hh; simpl.
  - rewrite assoc_set_fresh by apply delete_notin. reflexivity.
  - assert (Hn : key ∉ keys s).
    { intros Hin. apply has_spec in Hin. congruence. }
    rewrite assoc_set_fresh by exact Hn. now rewrite filter_notin.
Qed.

Lemma inv_set (clock now key : Z) (value : Buffer) (s : t) :
  clock <= now -> inv clock s -> inv now (set now key value s).
Proof.
  intros Hc Hi. rewrite set_eq. apply inv_cull, inv_linv. simpl.
  apply linv_snoc with clock; [exact Hc|apply delete_notin|].
  apply linv_filter. now apply inv_linv.
Qed.

Lemma inv_pop (clock : Z) (d : direction) (s : t) :
  inv clock s -> inv clock (snd (pop d s)).
Proof.
  intros Hi. unfold pop. destruct (entries s) eqn:E; [exact Hi|]. simpl.
  apply inv_linv. simpl. apply linv_filter. now apply inv_linv.
Qed.

Lemma inv_exec (clock now : Z) (o : op) (s : t) :
  clock <= now -> inv clock s -> inv now (exec now o s).
Proof.
  intros Hc Hi.
  assert (Hi' : inv now s).
  { apply inv_linv, linv_mono with clock; [exact Hc|]. now apply inv_linv. }
  destruct o as [k v|k|d| |]; simpl.
  - now apply inv_set with clock.
  - unfold get. destruct (has k (cull now s)); simpl; now apply inv_cull.
  - now apply inv_pop.
  - now apply inv_cull.
  - now apply inv_cull.
Qed.

Lemma in_cull (clock now : Z) (s : t) (e : entry) :
  inv clock s ->
  In e (entries (cull now s)) <-> In e (entries s) /\ expired now (ttl s) e = false.
Proof.
  intros Hi. rewrite (cull_exact clock) by exact Hi.
  rewrite filter_In, negb_true_iff. reflexivity.
Qed.

Lemma in_set (clock now key : Z) (value : Buffer) (s : t) (e : entry) :
  inv clock s -> clock <= now ->
  In e (entries (set now key value s)) <->
    ((In e (entries s) /\ key_of e <> key) \/ e = (key, (now, value)))
    /\ expired now (ttl s) e = false.
Proof.
  intros Hi Hc. rewrite set_eq.
  assert (Hi' : inv now (mk (ttl s)
                 (List.filter (fun e => negb (key_of e =? key)) (entries s)
                  ++ [(key, (now, value))]))).
  { apply inv_linv. simpl. apply linv_snoc with clock; [exact Hc|apply delete_notin|].
    apply linv_filter. now apply inv_linv. }
  rewrite (in_cull now) by exact Hi'. simpl.
  rewrite in_app_iff, filter_In, negb_true_iff, Z.eqb_neq. simpl.
  intuition congruence.
Qed.

Lemma ttl_set (clock now key : Z) (value : Buffer) (s : t) :
  inv clock s -> clock <= now -> ttl (set now key value s) = ttl s.
Proof.
  intros Hi Hc. rewrite set_eq, cull_ttl; [reflexivity|].
  unfold keys. simpl.
  assert (Hl : linv now (List.filter (fun e => negb (key_of e =? key)) (entries s)
                         ++ [(key, (now, value))])).
  { apply linv_snoc with clock; [exact Hc|apply delete_notin|].
    apply linv_filter. now apply inv_linv. }
  apply Hl.
Qed.

Lemma ttl_exec (clock now : Z) (o : op) (s : t) :
  inv clock s -> clock <= now -> ttl (exec now o s) = ttl s.
Proof.
  intros Hi Hc. destruct o as [k v|k|d| |]; simpl.
  - now apply ttl_set with clock.
  - unfold get. destruct (has k (cull now s)); simpl; apply cull_ttl, Hi.
  - unfold pop. destruct (entries s); reflexivity.
  - apply cull_ttl, Hi.
  - apply cull_ttl, Hi.
Qed.

(** No operation other than a [set] of [key] brings in an entry of [key]. *)
Lemma exec_in_old (clock now key : Z) (o : op) (s : t) (e : entry) :
  inv clock s -> clock <= now -> sets_key key o = false -> key_of e = key ->
  In e (entries (exec now o s)) -> In e (entries s).
Proof.
  intros Hi Hc Ho Hk. destruct o as [k v|k|d| |]; simpl.
  - simpl in Ho. apply Z.eqb_neq in Ho.
    rewrite (in_set clock) by assumption. intros [[[H _]|H] _]; [exact H|].
    subst e. unfold key_of in Hk. simpl in Hk. congruence.
  - unfold get. destruct (has k (cull now s)); simpl;
      rewrite (in_cull clock) by exact Hi; tauto.
  - destruct s as [tt [|e0 l]]; unfold pop, delete; cbn [entries snd]; [tauto|].
    rewrite filter_In. tauto.
  - rewrite (in_cull clock) by exact Hi; tauto.
  - rewrite (in_cull clock) by exact Hi; tauto.
Qed.

(** An entry that is not expired survives every operation that neither
    pops nor sets its key. *)
Lemma exec_in_keep (clock now key : Z) (o : op) (s : t) (e : entry) :
  inv clock s -> clock <= now -> sets_key key o = false -> is_pop o = false ->
  key_of e = key -> expired now (ttl s) e = false ->
  In e (entries s) -> In e (entries (exec now o s)).
Proof.
  intros Hi Hc Ho Hp Hk He Hin. destruct o as [k v|k|d| |]; simpl.
  - simpl in Ho. apply Z.eqb_neq in Ho.
    rewrite (in_set clock) by assumption. split; [left; split; [exact Hin|congruence]|exact He].
  - unfold get. destruct (has k (cull now s)); simpl;
      rewrite (in_cull clock) by exact Hi; tauto.
  - discriminate.
  - rewrite (in_cull clock) by exact Hi; tauto.
  - rewrite (in_cull clock) by exact Hi; tauto.
Qed.

(** Reading a key whose entry is in a store with unique keys. *)
Lemma find_unique (key : Z) (x : Z * Buffer) (l : list entry) :
  NoDup (List.map key_of l) -> In (key, x) l ->
  List.find (fun e => key_of e =? key) l = Some (key, x).
Proof.
  induction l as [|e l IH]; simpl; intros Hnd Hin; [contradiction|].
  apply NoDup_cons in Hnd as [Hnotin Hnd].
  destruct Hin as [->|Hin].
  - unfold key_of at 1. simpl. now rewrite Z.eqb_refl.
  - destruct (Z.eqb_spec (key_of e) key) as [Heq|_]; [|now apply IH].
    exfalso. apply Hnotin. rewrite list_elem_of_In, in_map_iff.
    exists (key, x). split; [now rewrite Heq|exact Hin].
Qed.

Lemma get_present (clock now key : Z) (x : Z * Buffer) (s : t) :
  inv clock s -> In (key, x) (entries s) -> expired now (ttl s) (key, x) = false ->
  fst (get now key s) = Some (snd x).
Proof.
  intros Hi Hin He. unfold get.
  assert (Hin' : In (key, x) (entries (cull now s))).
  { apply (in_cull clock); [exact Hi|]. now split. }
  assert (Hh : has key (cull now s) = true).
  { apply has_spec. unfold keys. rewrite list_elem_of_In, in_map_iff.
    exists (key, x). now split. }
  rewrite Hh. simpl. unfold super_get.
  rewrite (find_unique key x); [reflexivity| |exact Hin'].
  apply (inv_cull clock now s Hi).
Qed.

Lemma get_absent (clock now key : Z) (s : t) :
  inv clock s ->
  (forall e, In e (entries s) -> key_of e = key -> expired now (ttl s) e = true) ->
  fst (get now key s) = None.
Proof.
  intros Hi Hall. unfold get. destruct (has key (cull now s)) eqn:Hh; [|reflexivity].
  exfalso. apply has_spec in Hh. unfold keys in Hh.
  rewrite list_elem_of_In, in_map_iff in Hh. destruct Hh as (e & Hk & Hin).
  apply (in_cull clock) in Hin as [Hin He]; [|exact Hi].
  rewrite (Hall e Hin Hk) in He. discriminate.
Qed.

(** Every store reached from an empty one by a history satisfies the
    invariant. *)
Lemma inv_run (tr : list (N * op)) (clock : Z) (s : t) :
  inv clock s -> inv (fst (run clock s tr)) (snd (run clock s tr)).
Proof.
  revert clock s. induction tr as [|[d o] tr IH]; intros clock s Hi; [exact Hi|].
  simpl. apply IH. apply inv_exec with clock; [lia|exact Hi].
Qed.

Lemma inv_create (clock ttl0 : Z) : inv clock (create ttl0).
Proof. repeat split; constructor. Qed.

Lemma run_clock_le (tr : list (N * op)) (clock : Z) (s : t) :
  clock <= fst (run clock s tr).
Proof.
  revert clock s. induction tr as [|[d o] tr IH]; intros clock s; simpl; [lia|].
  etransitivity; [|apply IH]. lia.
Qed.

Lemma expired_mono (now now' ttl0 : Z) (e : entry) :
  now <= now' -> expired now' ttl0 e = false -> expired now ttl0 e = false.
Proof. unfold expired. lia. Qed.

Section AfterSet.
Variables (key : Z) (e0 : entry).
Hypothesis e0_key : key_of e0 = key.

(** Along a history that never sets [key], the only entry the store can
    hold for [key] is the one written last. *)
Lemma run_only_entry (tr : list (N * op)) (clock : Z) (s : t) :
  inv clock s ->
  (forall e, In e (entries s) -> key_of e = key -> e = e0) ->
  leaves_key key tr = true ->
  ttl (snd (run clock s tr)) = ttl s
  /\ forall e, In e (entries (snd (run clock s tr))) -> key_of e = key -> e = e0.
Proof.
  revert clock s. induction tr as [|[d o] tr IH]; intros clock s Hi Hall Hl; [auto|].
  simpl in *. apply andb_true_iff in Hl as [Ho Hl]. apply negb_true_iff in Ho.
  set (now := clock + Z.of_N d) in *.
  assert (Hc : clock <= now) by (subst now; lia).
  destruct (IH now (exec now o s)) as [Ht Hall']; [| |exact Hl|].
  - now apply inv_exec with clock.
  - intros e Hin Hk. apply Hall; [|exact Hk].
    now apply (exec_in_old clock now key o).
  - split; [|exact Hall']. rewrite Ht. now apply ttl_exec with clock.
Qed.

(** Along a history that neither pops nor sets [key], the entry stays as
    long as it is not expired. *)
Lemma run_keeps_entry (tr : list (N * op)) (clock : Z) (s : t) :
  inv clock s -> In e0 (entries s) ->
  leaves_key key tr = true -> pop_free tr = true ->
  expired (fst (run clock s tr)) (ttl s) e0 = false ->
  In e0 (entries (snd (run clock s tr))).
Proof.
  revert clock s. induction tr as [|[d o] tr IH]; intros clock s Hi Hin Hl Hp He; [auto|].
  simpl in *. apply andb_true_iff in Hl as [Ho Hl]. apply negb_true_iff in Ho.
  apply andb_true_iff in Hp as [Hpo Hp]. apply negb_true_iff in Hpo.
  set (now := clock + Z.of_N d) in *.
  assert (Hc : clock <= now) by (subst now; lia).
  assert (Ht : ttl (exec now o s) = ttl s) by now apply ttl_exec with clock.
  apply IH; [now apply inv_exec with clock| |exact Hl|exact Hp|now rewrite Ht].
  apply (exec_in_keep clock now key); auto.
  eapply expired_mono; [|exact He]. apply run_clock_le.
Qed.
End AfterSet.


(** C9. In a store whose stamps do not decrease along the iteration order,
    [set] deletes any prior entry of the key and appends a fresh entry
    stamped with the current time; [set], [get], [cull] and [pop] keep the
    stamps non-decreasing; and [cull], which pops one oldest entry per
    expired item, leaves exactly the entries that are not expired. *)
Theorem stamps_nondecreasing_cull_exact
    (clock now key : Z) (value : Buffer) (dir : direction) (s : t) :
  inv clock s -> clock <= now ->
  set now key value s
    = cull now (mk (ttl s)
                   (List.filter (fun e => negb (key_of e =? key)) (entries s)
                    ++ [(key, (now, value))]))
  /\ Sorted Z.le (stamps (set now key value s))
  /\ Sorted Z.le (stamps (snd (get now key s)))
  /\ Sorted Z.le (stamps (cull now s))
  /\ Sorted Z.le (stamps (snd (pop dir s)))
  /\ inv now (set now key value s)
  /\ inv now (snd (get now key s))
  /\ inv now (cull now s)
  /\ inv now (snd (pop dir s))
  /\ entries (cull now s)
     = List.filter (fun e => negb (expired now (ttl s) e)) (entries s).
Proof.
  intros Hi Hc.
  pose proof (inv_exec clock now (OSet key value) s Hc Hi) as H1.
  pose proof (inv_exec clock now (OGet key) s Hc Hi) as H2.
  pose proof (inv_exec clock now OCull s Hc Hi) as H3.
  pose proof (inv_exec clock now (OPop dir) s Hc Hi) as H4.
  simpl in H1, H2, H3, H4.
  repeat split; try apply H1; try apply H2; try apply H3; try apply H4.
  - apply set_eq.
  - now apply cull_exact with clock.
Qed.


(** A store holding two entries stamped 100 and 200, culled at t = 20150
    with a twenty-second TTL: the first entry goes, the second stays. *)
Lemma stamps_nondecreasing_cull_exact_witness :
  entries (cull 20150 (mk 20000 [(1, (100, [x61]%byte)); (2, (200, [x62]%byte))]))
  = List.filter (fun e => negb (expired 20150 20000 e))
                [(1, (100, [x61]%byte)); (2, (200, [x62]%byte))].
Proof.
  apply (stamps_nondecreasing_cull_exact 200 20150 3 [x63]%byte FIFO
           (mk 20000 [(1, (100, [x61]%byte)); (2, (200, [x62]%byte))])).
  - apply inv_linv. repeat split; simpl.
    + apply NoDup_cons. split; [|apply NoDup_singleton].
      intros H. apply list_elem_of_singleton in H. discriminate.
    + repeat constructor. unfold stamp_of. simpl. lia.
    + repeat constructor; unfold stamp_of; simpl; lia.
  - lia.
Defined.

End StorageFacts.

(* ===================================================================== *)
(** * Properties of the node heap *)
(* ===================================================================== *)

Module NodeHeapFacts.
Import NodeHeap.

Lemma lxor_inj (a x y : Z) : Z.lxor a x = Z.lxor a y -> x = y.
Proof.
  intros H. rewrite <- (Z.lxor_0_l x), <- (Z.lxor_nilpotent a), Z.lxor_assoc, H.
  now rewrite <- Z.lxor_assoc, Z.lxor_nilpotent, Z.lxor_0_l.
Qed.

Lemma has_ids (h : t) (n : Node.t) : has h n = true <-> Node.id n ∈ ids h.
Proof.
  unfold has, ids. rewrite existsb_exists, list_elem_of_In, in_map_iff.
  split; intros (e & H1 & H2); exists e.
  - split; [lia|exact H1].
  - split; [exact H2|lia].
Qed.

Lemma push_snoc (h : t) (l : list Node.t) (n : Node.t) :
  push h (l ++ [n]) = push_one (push h l) n.
Proof. unfold push. now rewrite fold_left_app. Qed.

Lemma push_app (h : t) (l1 l2 : list Node.t) : push h (l1 ++ l2) = push (push h l1) l2.
Proof. unfold push. now rewrite fold_left_app. Qed.

Lemma push_concat (h : t) (pushes : list (list Node.t)) :
  fold_left push pushes h = push h (concat pushes).
Proof.
  revert h. induction pushes as [|l pushes IH]; intros h; simpl; [reflexivity|].
  now rewrite IH, push_app.
Qed.

Lemma push_one_fields (h : t) (n : Node.t) :
  node (push_one h n) = node h /\ maxsize (push_one h n) = maxsize h
  /\ contacted (push_one h n) = contacted h.
Proof. unfold push_one. destruct (has h n); simpl; auto. Qed.

Lemma push_one_present (h : t) (n : Node.t) :
  Node.id n ∈ ids h -> push_one h n = h.
Proof. intros H. apply has_ids in H. unfold push_one. now rewrite H. Qed.

Lemma push_one_NoDup (h : t) (n : Node.t) : NoDup (ids h) -> NoDup (ids (push_one h n)).
Proof.
  intros Hnd. unfold push_one. destruct (has h n) eqn:Hh; [exact Hnd|].
  unfold ids, Heapq.push. simpl. rewrite List.map_app. simpl.
  apply NoDup_app. repeat split; [exact Hnd| |apply NoDup_singleton].
  intros x Hx Hx'. apply list_elem_of_singleton in Hx'. subst x.
  apply has_ids in Hx. congruence.
Qed.

Lemma push_NoDup (nodes : list Node.t) (h : t) : NoDup (ids h) -> NoDup (ids (push h nodes)).
Proof.
  revert h. induction nodes as [|n nodes IH]; intros h Hnd; [exact Hnd|].
  simpl. apply IH. now apply push_one_NoDup.
Qed.

Lemma remove_heap (h : t) (peerIDs : list Z) :
  heap (remove h peerIDs)
  = List.filter (fun e => negb (existsb (Z.eqb (Node.id (snd e))) peerIDs)) (heap h).
Proof.
  unfold remove. destruct peerIDs as [|p ps].
  { simpl. induction (heap h) as [|e l IH]; simpl; [reflexivity|]. now f_equal. }
  cbn [heap]. set (keep := fun e : Z * Node.t => negb (existsb (Z.eqb (Node.id (snd e))) (p :: ps))).
  assert (H : forall l acc,
             fold_left (fun nheap e => if keep e then Heapq.push nheap e else nheap) l acc
             = acc ++ List.filter keep l).
  { induction l as [|e l IH]; intros acc; simpl; [now rewrite app_nil_r|].
    rewrite IH. destruct (keep e); [|reflexivity].
    unfold Heapq.push. now rewrite <- app_assoc. }
  now rewrite H.
Qed.

Lemma NoDup_map_filter {A B} (f : A -> B) (p : A -> bool) (l : list A) :
  NoDup (List.map f l) -> NoDup (List.map f (List.filter p l)).
Proof.
  induction l as [|x l IH]; simpl; intros Hnd; [exact Hnd|].
  apply NoDup_cons in Hnd as [Hx Hnd]. destruct (p x); simpl; [|now apply IH].
  apply NoDup_cons. split; [|now apply IH].
  intros Hin. apply Hx. rewrite list_elem_of_In, in_map_iff in *.
  destruct Hin as (y & Hy & Hin). apply filter_In in Hin as [Hin _]. eauto.
Qed.

Lemma exec_NoDup (h : t) (o : op) : NoDup (ids h) -> NoDup (ids (exec h o)).
Proof.
  intros Hnd. destruct o as [nodes|peerIDs|n]; simpl.
  - now apply push_NoDup.
  - unfold ids. rewrite remove_heap. now apply NoDup_map_filter.
  - exact Hnd.
Qed.

Lemma run_NoDup (ops : list op) (h : t) : NoDup (ids h) -> NoDup (ids (run h ops)).
Proof.
  revert h. induction ops as [|o ops IH]; intros h Hnd; [exact Hnd|].
  simpl. apply IH. now apply exec_NoDup.
Qed.

(** C10. [push] deduplicates by node id only: a heap built from an empty one
    by pushes, removals and contact marks never holds two entries with the
    same id, and pushing a node whose id is already in the heap leaves the
    heap unchanged, whatever the host and port of the pushed node. *)
Theorem push_dedups_by_id (target : Node.t) (size0 : nat) (ops : list op) (n : Node.t) :
  let h := run (create target size0) ops in
  NoDup (ids h)
  /\ ((exists e, e ∈ heap h /\ Node.id (snd e) = Node.id n) -> push h [n] = h).
Proof.
  intros h. split.
  - apply run_NoDup. constructor.
  - intros (e & He & Hid). simpl. apply push_one_present.
    unfold ids. rewrite list_elem_of_In, in_map_iff. exists e.
    split; [exact Hid|]. now apply list_elem_of_In.
Qed.

(** A heap holding the node of id 5 at 10.0.0.1:13001: pushing the same id
    seen at another address changes nothing. *)
Lemma push_dedups_by_id_witness :
  let a := Node.mk 5 (Some "10.0.0.1"%string) (Some 13001) in
  let b := Node.mk 5 (Some "10.0.0.2"%string) (Some 13002) in
  let h := run (create (Node.mk 0 None None) 20) [OPush [a]] in
  push h [b] = h.
Proof.
  intros a b h.
  apply (push_dedups_by_id (Node.mk 0 None None) 20 [OPush [a]] b).
  exists (5, a). split; [|reflexivity].
  apply list_elem_of_In. vm_compute. now left.
Defined.

(** ** What iteration yields *)

Lemma before_compare {A : Type} (a b : Z * A) :
  Heapq.before Utils.compare a b <-> fst a <= fst b.
Proof.
  unfold Heapq.before, Utils.compare. simpl.
  destruct (Z.ltb_spec (fst a) (fst b)); [lia|].
  destruct (Z.gtb_spec (fst a) (fst b)); lia.
Qed.

#[local] Instance before_compare_trans {A : Type} :
  Transitive (Heapq.before (A := Z * A) Utils.compare).
Proof. intros x y z. rewrite !before_compare. lia. Qed.

#[local] Instance before_compare_total {A : Type} :
  Total (Heapq.before (A := Z * A) Utils.compare).
Proof. intros x y. rewrite !before_compare. lia. Qed.

(** [nsmallest] with [compare]: a prefix of a sorted permutation. *)
Lemma nsmallest_split {A : Type} (array : list (Z * A)) (n : nat) :
  exists rest,
    Heapq.nsmallest array n Utils.compare ++ rest ≡ₚ array
    /\ StronglySorted (fun a b => fst a <= fst b)
         (Heapq.nsmallest array n Utils.compare ++ rest)
    /\ length (Heapq.nsmallest array n Utils.compare) = Nat.min n (length array).
Proof.
  unfold Heapq.nsmallest.
  set (srt := merge_sort (Heapq.before Utils.compare) array).
  assert (Hperm : srt ≡ₚ array) by apply merge_sort_Permutation.
  exists (drop n srt). rewrite take_drop. split; [exact Hperm|]. split.
  - assert (Hs : StronglySorted (Heapq.before Utils.compare) srt)
      by (apply StronglySorted_merge_sort; apply _).
    clearbody srt. clear Hperm. induction Hs as [|x l Hs IH Hall]; constructor; auto.
    eapply Forall_impl; [exact Hall|]. intros y. now rewrite before_compare.
  - rewrite length_take. now rewrite (Permutation_length Hperm).
Qed.

Section Nearest.
Variable target : Node.t.
Variable size0 : nat.

Let dist (n : Node.t) : Z := Node.distanceTo target n.

(** The heap built by pushing [pushed], one node after the other. *)
Lemma push_invariant (pushed : list Node.t) :
  let h := push (create target size0) pushed in
  node h = target /\ maxsize h = size0 /\ NoDup (ids h)
  /\ (forall e, e ∈ heap h -> fst e = dist (snd e) /\ snd e ∈ pushed)
  /\ (forall p, p ∈ pushed -> Node.id p ∈ ids h).
Proof.
  induction pushed as [|n pushed IH] using rev_ind.
  { simpl. split; [reflexivity|]. split; [reflexivity|]. split; [constructor|].
    split; [intros e He; inversion He | intros p Hp; inversion Hp]. }
  simpl in *. rewrite push_snoc.
  destruct IH as (Hn & Hm & Hnd & Hheap & Hcov).
  set (h := push (create target size0) pushed) in *.
  destruct (push_one_fields h n) as (Hn' & Hm' & _).
  split; [congruence|]. split; [congruence|]. split; [now apply push_one_NoDup|].
  split.
  - intros e H. rewrite elem_of_app.
    unfold push_one in H. destruct (has h n).
    { destruct (Hheap e H). auto. }
    simpl in H. unfold Heapq.push in H. apply elem_of_app in H as [H|H].
    { destruct (Hheap e H). auto. }
    apply list_elem_of_singleton in H. subst e. simpl. split.
    + unfold dist. now rewrite Hn.
    + right. now apply list_elem_of_singleton.
  - intros p Hp. apply elem_of_app in Hp as [Hp|Hp].
    + specialize (Hcov p Hp). unfold push_one. destruct (has h n); [exact Hcov|].
      unfold ids, Heapq.push. simpl. rewrite List.map_app, elem_of_app. now left.
    + apply list_elem_of_singleton in Hp. subst p.
      unfold push_one. destruct (has h n) eqn:Hh; [now apply has_ids|].
      unfold ids, Heapq.push. simpl. rewrite List.map_app, elem_of_app. right.
      simpl. now apply list_elem_of_singleton.
Qed.

(** In a sorted list of [ [ distance, node ] ] pairs with distinct ids, the
    distances of the nodes increase strictly. *)
Lemma sorted_strict (l : list (Z * Node.t)) :
  StronglySorted (fun a b => fst a <= fst b) l ->
  NoDup (List.map (fun e => Node.id (snd e)) l) ->
  (forall e, e ∈ l -> fst e = dist (snd e)) ->
  StronglySorted (fun a b => dist a < dist b) (List.map snd l).
Proof.
  induction l as [|x l IH]; simpl; intros Hs Hnd Hd; [constructor|].
  apply StronglySorted_inv in Hs as [Hs Hall].
  apply NoDup_cons in Hnd as [Hx Hnd].
  constructor.
  - apply IH; auto. intros e He. apply Hd. now right.
  - apply Forall_forall. intros n Hn.
    apply list_elem_of_In, in_map_iff in Hn as (e & <- & He).
    apply list_elem_of_In in He.
    pose proof (proj1 (Forall_forall _ _) Hall e He) as Hle. simpl in Hle.
    rewrite (Hd x) in Hle by now left. rewrite (Hd e) in Hle by now right.
    assert (Hne : dist (snd x) <> dist (snd e)).
    { intros Heq. apply lxor_inj in Heq. apply Hx.
      rewrite list_elem_of_In, in_map_iff. exists e. split; [now symmetry|].
      now apply list_elem_of_In. }
    lia.
Qed.

(** C7. After any sequence of [push] calls on a heap of capacity [size0]
    around [target], iteration yields min(number of distinct pushed ids,
    [size0]) nodes; they are pushed nodes, in strictly ascending distance to
    [target], and every pushed node whose id is not yielded lies farther
    from [target] than every yielded node. *)
Theorem iter_yields_nearest (pushes : list (list Node.t)) :
  let h := fold_left push pushes (create target size0) in
  let pushed := concat pushes in
  let out := iter h in
  length out = Nat.min (size (list_to_set (List.map Node.id pushed) : gset Z)) size0
  /\ StronglySorted
       (fun a b => Node.distanceTo target a < Node.distanceTo target b) out
  /\ (forall n, n ∈ out -> n ∈ pushed)
  /\ (forall n p, n ∈ out -> p ∈ pushed -> Node.id p ∉ List.map Node.id out ->
        Node.distanceTo target n < Node.distanceTo target p).
Proof.
  intros h pushed out. subst out h. rewrite push_concat. fold pushed.
  destruct (push_invariant pushed) as (Hn & Hm & Hnd & Hheap & Hcov).
  set (h := push (create target size0) pushed) in *.
  unfold iter. rewrite Hm.
  destruct (nsmallest_split (heap h) size0) as (rest & Hperm & Hs & Hlen).
  set (top := Heapq.nsmallest (heap h) size0 Utils.compare) in *.
  set (out := List.map snd top).
  assert (Hnd' : NoDup (List.map (fun e => Node.id (snd e)) (top ++ rest))).
  { assert (Hp : List.map (fun e : Z * Node.t => Node.id (snd e)) (top ++ rest) ≡ₚ ids h)
      by (unfold ids; now apply Permutation_map).
    now rewrite Hp. }
  assert (Hin : forall e, e ∈ top ++ rest -> e ∈ heap h).
  { intros e He. now rewrite <- Hperm. }
  split; [|split; [|split]].
  - unfold out. rewrite List.length_map, Hlen, Nat.min_comm. f_equal.
    transitivity (length (ids h)); [unfold ids; now rewrite List.length_map|].
    rewrite <- (size_list_to_set (C := gset Z) (ids h)) by exact Hnd.
    f_equal. apply set_eq. intros x. rewrite !elem_of_list_to_set. split.
    + unfold ids. rewrite !list_elem_of_In, !in_map_iff. intros (e & <- & He).
      exists (snd e). split; [reflexivity|].
      apply list_elem_of_In, Hheap. now apply list_elem_of_In.
    + rewrite list_elem_of_In, in_map_iff. intros (p & <- & Hp).
      apply Hcov. now apply list_elem_of_In.
  - apply sorted_strict.
    + eapply StronglySorted_app_1_l, Hs.
    + rewrite List.map_app in Hnd'. now apply NoDup_app in Hnd' as (H & _ & _).
    + intros e He. apply Hheap, Hin, elem_of_app. now left.
  - intros n Hnout. apply list_elem_of_In, in_map_iff in Hnout as (e & <- & He).
    apply Hheap, Hin, elem_of_app. left. now apply list_elem_of_In.
  - intros n p Hnout Hp Hnot.
    apply list_elem_of_In, in_map_iff in Hnout as (e & <- & He).
    apply list_elem_of_In in He.
    pose proof (Hcov p Hp) as Hpid. unfold ids in Hpid.
    apply list_elem_of_In, in_map_iff in Hpid as (ep & Hepid & Hep).
    assert (Hep' : ep ∈ top ++ rest) by (rewrite Hperm; now apply list_elem_of_In).
    apply elem_of_app in Hep' as [Hep'|Hep'].
    { exfalso. apply Hnot. unfold out. rewrite List.map_map.
      rewrite list_elem_of_In, in_map_iff. exists ep. split; [exact Hepid|].
      now apply list_elem_of_In. }
    pose proof (StronglySorted_app_1_elem_of _ _ _ _ _ Hs He Hep') as Hle. simpl in Hle.
    assert (He1 : fst e = dist (snd e)).
    { apply Hheap, Hin, elem_of_app. now left. }
    assert (He2 : fst ep = dist (snd ep)).
    { apply Hheap, Hin, elem_of_app. now right. }
    assert (Hdp : dist (snd ep) = dist p).
    { unfold dist, Node.distanceTo. now rewrite Hepid. }
    assert (Hne : Node.id (snd e) <> Node.id (snd ep)).
    { intros Heq. rewrite List.map_app in Hnd'.
      apply NoDup_app in Hnd' as (_ & Hdisj & _).
      apply (Hdisj (Node.id (snd e))).
      - rewrite list_elem_of_In, in_map_iff. exists e. split; [reflexivity|].
        now apply list_elem_of_In.
      - rewrite list_elem_of_In, in_map_iff. exists ep. split; [now symmetry|].
        now apply list_elem_of_In. }
    assert (Hdne : dist (snd e) <> dist (snd ep)).
    { intros Heq. apply lxor_inj in Heq. contradiction. }
    fold (dist (snd e)). fold (dist p). lia.
Qed.

End Nearest.

End NodeHeapFacts.

(* ===================================================================== *)
(** * Properties of the routing table *)
(* ===================================================================== *)

Module RoutingFacts.

Lemma nodes_has_spec (id0 : Z) (m : list Node.t) :
  KBucket.nodes_has id0 m = true <-> id0 ∈ List.map Node.id m.
Proof.
  unfold KBucket.nodes_has. rewrite existsb_exists, list_elem_of_In, in_map_iff.
  split; intros (n & H1 & H2); exists n.
  - split; [lia|exact H1].
  - split; [exact H2|lia].
Qed.

Lemma nodes_set_fresh (n : Node.t) (m : list Node.t) :
  KBucket.nodes_has (Node.id n) m = false ->
  KBucket.nodes_set (Node.id n) n m = m ++ [n].
Proof.
  induction m as [|x m IH]; simpl; intros H; [reflexivity|].
  apply orb_false_iff in H as [H1 H2]. rewrite H1. now rewrite IH.
Qed.

(** What the loop of [split] does with nodes of distinct ids, none of which
    is in the two buckets yet: those with [midpoint.gt(id)] are appended to
    the first bucket, the others to the second, in order. *)
Lemma split_loop (midpoint : BN.t) (l : list Node.t) :
  forall one two : KBucket.t,
    NoDup (List.map Node.id l) ->
    (forall n, n ∈ l -> (Node.id n ∉ List.map Node.id (KBucket.nodes one))
                        /\ (Node.id n ∉ List.map Node.id (KBucket.nodes two))) ->
    fold_left
      (fun (acc : KBucket.t * KBucket.t) (node : Node.t) =>
         let '(one, two) := acc in
         let id0 := Node.id node in
         if BN.gt midpoint (BN.of_Z id0)
         then (KBucket.with_nodes one (KBucket.nodes_set id0 node (KBucket.nodes one)), two)
         else (one, KBucket.with_nodes two (KBucket.nodes_set id0 node (KBucket.nodes two))))
      l (one, two)
    = (KBucket.with_nodes one
         (KBucket.nodes one
          ++ List.filter (fun n => BN.gt midpoint (BN.of_Z (Node.id n))) l),
       KBucket.with_nodes two
         (KBucket.nodes two
          ++ List.filter (fun n => negb (BN.gt midpoint (BN.of_Z (Node.id n)))) l)).
Proof.
  induction l as [|n l IH]; intros one two Hnd Hfresh.
  { simpl. rewrite !app_nil_r. now destruct one, two. }
  apply NoDup_cons in Hnd as [Hn Hnd].
  destruct (Hfresh n (list_elem_of_here _ _)) as [H1 H2].
  assert (Hone : KBucket.nodes_has (Node.id n) (KBucket.nodes one) = false).
  { apply not_true_is_false. now rewrite nodes_has_spec. }
  assert (Htwo : KBucket.nodes_has (Node.id n) (KBucket.nodes two) = false).
  { apply not_true_is_false. now rewrite nodes_has_spec. }
  cbn [fold_left List.filter]. destruct (BN.gt midpoint (BN.of_Z (Node.id n))); cbn [negb].
  - rewrite (nodes_set_fresh n _ Hone), IH; [|exact Hnd|].
    + cbn [KBucket.nodes KBucket.with_nodes KBucket.range KBucket.replacementNodes
           KBucket.lastUpdated KBucket.ksize].
      now rewrite <- app_assoc.
    + intros n' Hn'. destruct (Hfresh n' (list_elem_of_further _ _ _ Hn')) as [H1' H2'].
      split; [|exact H2']. cbn [KBucket.nodes KBucket.with_nodes].
      rewrite List.map_app, elem_of_app. intros [H|H]; [contradiction|].
      apply list_elem_of_singleton in H. apply Hn. rewrite <- H.
      rewrite list_elem_of_In. apply in_map. now apply list_elem_of_In.
  - rewrite (nodes_set_fresh n _ Htwo), IH; [|exact Hnd|].
    + cbn [KBucket.nodes KBucket.with_nodes KBucket.range KBucket.replacementNodes
           KBucket.lastUpdated KBucket.ksize].
      now rewrite <- app_assoc.
    + intros n' Hn'. destruct (Hfresh n' (list_elem_of_further _ _ _ Hn')) as [H1' H2'].
      split; [exact H1'|]. cbn [KBucket.nodes KBucket.with_nodes].
      rewrite List.map_app, elem_of_app. intros [H|H]; [contradiction|].
      apply list_elem_of_singleton in H. apply Hn. rewrite <- H.
      rewrite list_elem_of_In. apply in_map. now apply list_elem_of_In.
Qed.

(** [split] on a bucket of distinct ids: the ranges of the halves, and the
    nodes of each.  A node goes to the lower half when its id is strictly
    below the midpoint; the two halves together hold the nodes of the
    bucket. *)
Lemma split_spec (now : Z) (b : KBucket.t) :
  NoDup (List.map Node.id (KBucket.nodes b)) ->
  let midpoint := BN.div (BN.plus (fst (KBucket.range b)) (snd (KBucket.range b))) (BN.of_Z 2) in
  let below := fun n => BN.gt midpoint (BN.of_Z (Node.id n)) in
  let one := fst (KBucket.split now b) in
  let two := snd (KBucket.split now b) in
  KBucket.range one = (fst (KBucket.range b), midpoint)
  /\ KBucket.range two = (BN.plus midpoint (BN.of_Z 1), snd (KBucket.range b))
  /\ KBucket.nodes one = List.filter below (KBucket.nodes b)
  /\ KBucket.nodes two = List.filter (fun n => negb (below n)) (KBucket.nodes b)
  /\ KBucket.nodes one ++ KBucket.nodes two ≡ₚ KBucket.nodes b.
Proof.
  intros Hnd midpoint below one two. subst one two. unfold KBucket.split.
  destruct (KBucket.range b) as [lo hi] eqn:Hr. cbn [fst snd] in midpoint.
  fold midpoint. rewrite split_loop; [|exact Hnd|].
  - cbn. fold below. repeat split.
    subst below. generalize (KBucket.nodes b). intros l.
    induction l as [|n l IH]; simpl; [reflexivity|].
    destruct (BN.gt midpoint (BN.of_Z (Node.id n))); simpl.
    + apply perm_skip, IH.
    + rewrite <- Permutation_middle. apply perm_skip, IH.
  - intros n _. cbn. split; intros H; inversion H.
Qed.

(** C3 (the code departs from the claim).  A bucket covering [0, 2^160] that
    holds the node whose id is the midpoint 2^159: [split] gives the lower
    bucket the range [0, 2^159] and the upper bucket the range
    [2^159 + 1, 2^160], and puts the node in the upper bucket, outside the
    range of that bucket, because the test is [midpoint.gt(id)]. *)
Theorem split_puts_midpoint_id_in_upper_bucket :
  let n := Node.mk (2 ^ 159) (Some "10.0.0.1"%string) (Some 13001) in
  let b := KBucket.mk (BN.of_Z 0, BN.of_Z (2 ^ 160)) [n] [] 0 8 in
  let one := fst (KBucket.split 1 b) in
  let two := snd (KBucket.split 1 b) in
  KBucket.range one = (BN.of_Z 0, BN.of_Z (2 ^ 159))
  /\ KBucket.range two = (BN.of_Z (2 ^ 159 + 1), BN.of_Z (2 ^ 160))
  /\ KBucket.nodes one = []
  /\ KBucket.nodes two = [n]
  /\ KBucket.hasInRange one n = true
  /\ KBucket.hasInRange two n = false.
Proof. vm_compute. repeat split. Qed.

(** C2 (the code departs from the claim).  Two tables reached from the
    single bucket covering [0, 2^160], with [ksize] = 8, by [addContact]
    alone.
    - The first nine contacts are the ids 2^159, 1, ..., 8: the ninth call
      splits the bucket, and the node of id 2^159 ends in the bucket of range
      [2^159 + 1, 2^160], which does not hold its id; [getBucketFor] sends
      the same node to the other bucket, where it counts as new.
    - In the second table the bucket [2^158 + 1, 2^159] has been split at
      the midpoint 3 * 2^157 + 1/2, which [div] does not round to an
      integer: the ranges [2^158 + 1, 3 * 2^157 + 1/2] and
      [3 * 2^157 + 3/2, 2^159] leave the id 3 * 2^157 + 1 in no bucket. *)
Theorem reachable_table_breaks_partition :
  let at_ (i : Z) := Node.mk i (Some "10.0.0.1"%string) (Some (13000 + i)) in
  let me := Node.mk 12345 None None in
  let ids1 := [2 ^ 159; 1; 2; 3; 4; 5; 6; 7; 8] in
  let me2 := Node.mk (2 ^ 158 + 12345) None None in
  let ids2 := [2 ^ 158 + 1; 2 ^ 158 + 2; 2 ^ 158 + 3; 2 ^ 158 + 4; 2 ^ 158 + 5;
               2 ^ 158 + 6; 2 ^ 158 + 7; 2 ^ 158 + 8; 3 * 2 ^ 157 + 5] in
  (exists rt,
      RoutingTable.addContacts 8 0 (RoutingTable.create 0 8 me) (List.map at_ ids1) = Ok rt
      /\ List.map (fun b => (KBucket.range b, List.map Node.id (KBucket.nodes b)))
                  (RoutingTable.buckets rt)
         = [ ((BN.of_Z 0, BN.of_Z (2 ^ 159)), [1; 2; 3; 4; 5; 6; 7; 8]);
             ((BN.of_Z (2 ^ 159 + 1), BN.of_Z (2 ^ 160)), [2 ^ 159]) ]
      /\ RoutingTable.ids_within_ranges rt = false
      /\ RoutingTable.getBucketFor rt (at_ (2 ^ 159)) = Some 0%nat
      /\ RoutingTable.isNewNode rt (at_ (2 ^ 159)) = Ok true)
  /\ (exists rt,
      RoutingTable.addContacts 8 0 (RoutingTable.create 0 8 me2) (List.map at_ ids2) = Ok rt
      /\ List.map KBucket.range (RoutingTable.buckets rt)
         = [ (BN.of_Z 0, BN.of_Z (2 ^ 158));
             (BN.of_Z (2 ^ 158 + 1), (3 * 2 ^ 158 + 1) # 2);
             ((3 * 2 ^ 158 + 3) # 2, BN.of_Z (2 ^ 159));
             (BN.of_Z (2 ^ 159 + 1), BN.of_Z (2 ^ 160)) ]
      /\ RoutingTable.covering rt (3 * 2 ^ 157 + 1) = 0%nat).
Proof.
  split.
  - eexists. split; [vm_compute; reflexivity|]. vm_compute. repeat split.
  - eexists. split; [vm_compute; reflexivity|]. vm_compute. repeat split.
Qed.

Lemma first_reaching_some (id0 : Z) (bs : list KBucket.t) (i : nat) :
  (exists b, b ∈ bs /\ BN.gte (snd (KBucket.range b)) (BN.of_Z id0) = true) ->
  exists j b, RoutingTable.first_reaching id0 bs i = Some (i + j)%nat /\ bs !! j = Some b.
Proof.
  revert i. induction bs as [|b0 bs IH]; intros i (b & Hin & Hb).
  { inversion Hin. }
  simpl. destruct (BN.gte (snd (KBucket.range b0)) (BN.of_Z id0)) eqn:E.
  - exists 0%nat, b0. split; [f_equal; lia|reflexivity].
  - apply elem_of_cons in Hin as [->|Hin]; [congruence|].
    destruct (IH (S i)) as (j & b' & Hj & Hb'); [now exists b|].
    exists (S j), b'. split; [rewrite Hj; f_equal; lia|exact Hb'].
Qed.

Lemma bucketFor_defined (rt : RoutingTable.t) (n : Node.t) :
  RoutingTable.reaches rt (Node.id n) ->
  exists index b, RoutingTable.bucketFor rt n = Ok (index, b)
                  /\ RoutingTable.buckets rt !! index = Some b.
Proof.
  intros H. destruct (first_reaching_some _ _ 0%nat H) as (j & b & Hj & Hb).
  exists j, b. unfold RoutingTable.bucketFor, RoutingTable.getBucketFor.
  rewrite Hj. simpl. rewrite Hb. simpl. now split.
Qed.

Lemma removeContact_defined (rt : RoutingTable.t) (n : Node.t) :
  RoutingTable.reaches rt (Node.id n) ->
  exists rt1, RoutingTable.removeContact rt n = Ok rt1.
Proof.
  intros H. destruct (bucketFor_defined rt n H) as (index & b & Hb & _).
  unfold RoutingTable.removeContact. rewrite Hb. simpl. eauto.
Qed.

(** ** [findNeighbors] reads the ranges and the nodes of the buckets only *)

Lemma order_map {A B : Type} (f : A -> B) (bound : nat) (l r : list A) (left : bool) :
  List.map f (TableTraverser.order bound l r left)
  = TableTraverser.order bound (List.map f l) (List.map f r) left.
Proof.
  revert l r left. induction bound as [|bound IH]; intros l r left; [reflexivity|].
  simpl. destruct left, l as [|x l], r as [|y r]; simpl; try reflexivity;
    now rewrite IH.
Qed.

Lemma lookup_map {A B : Type} (f : A -> B) (l : list A) (i : nat) :
  List.map f l !! i = option_map f (l !! i).
Proof.
  revert i. induction l as [|x l IH]; intros [|i]; simpl; try reflexivity. apply IH.
Qed.

Lemma yields_nodes (bs : list KBucket.t) (index : nat) :
  TableTraverser.yields bs index
  = (let ns := List.map KBucket.nodes bs in
     rev (match ns !! index with Some l => l | None => [] end)
     ++ concat (List.map (@rev Node.t)
          (TableTraverser.order (length (take index ns) + length (drop (S index) ns))
             (rev (take index ns)) (rev (drop (S index) ns)) true))).
Proof.
  unfold TableTraverser.yields, KBucket.getNodes. cbv zeta.
  rewrite lookup_map. f_equal.
  - now destruct (bs !! index).
  - rewrite !firstn_map, !skipn_map, <- !List.map_rev, <- order_map.
    rewrite List.map_map, !List.length_map. reflexivity.
Qed.

Lemma yields_same_nodes (bs bs' : list KBucket.t) (index : nat) :
  List.map KBucket.nodes bs = List.map KBucket.nodes bs' ->
  TableTraverser.yields bs index = TableTraverser.yields bs' index.
Proof. intros H. rewrite !yields_nodes. now rewrite H. Qed.

Lemma first_reaching_same_ranges (id0 : Z) (bs bs' : list KBucket.t) (i : nat) :
  List.map KBucket.range bs = List.map KBucket.range bs' ->
  RoutingTable.first_reaching id0 bs i = RoutingTable.first_reaching id0 bs' i.
Proof.
  revert bs' i. induction bs as [|b bs IH]; intros [|b' bs'] i H; try discriminate;
    [reflexivity|].
  simpl in *. injection H as Hr Hrest. rewrite Hr.
  destruct (BN.gte _ _); [reflexivity|]. now apply IH.
Qed.

Lemma contacts_ranges (rt rt' : RoutingTable.t) :
  RoutingTable.contacts rt = RoutingTable.contacts rt' ->
  List.map KBucket.range (RoutingTable.buckets rt)
  = List.map KBucket.range (RoutingTable.buckets rt').
Proof.
  unfold RoutingTable.contacts. intros H.
  apply (f_equal (List.map fst)) in H. now rewrite !List.map_map in H.
Qed.

Lemma contacts_nodes (rt rt' : RoutingTable.t) :
  RoutingTable.contacts rt = RoutingTable.contacts rt' ->
  List.map KBucket.nodes (RoutingTable.buckets rt)
  = List.map KBucket.nodes (RoutingTable.buckets rt').
Proof.
  unfold RoutingTable.contacts. intros H.
  apply (f_equal (List.map snd)) in H. now rewrite !List.map_map in H.
Qed.

Lemma contacts_touch (now : Z) (rt : RoutingTable.t) (index : nat) (b : KBucket.t) :
  RoutingTable.buckets rt !! index = Some b ->
  RoutingTable.contacts
    (RoutingTable.with_buckets rt
       (<[index := KBucket.touchLastUpdated now b]> (RoutingTable.buckets rt)))
  = RoutingTable.contacts rt.
Proof.
  unfold RoutingTable.contacts. simpl. generalize (RoutingTable.buckets rt).
  intros bs. revert index. induction bs as [|b0 bs IH]; intros [|index] H; simpl in *;
    try discriminate.
  - now injection H as ->.
  - f_equal. now apply IH.
Qed.

Lemma reaches_same_ranges (rt rt' : RoutingTable.t) (id0 : Z) :
  RoutingTable.contacts rt = RoutingTable.contacts rt' ->
  RoutingTable.reaches rt id0 -> RoutingTable.reaches rt' id0.
Proof.
  intros H (b & Hin & Hb). apply contacts_ranges in H.
  assert (Hr : KBucket.range b ∈ List.map KBucket.range (RoutingTable.buckets rt')).
  { rewrite <- H. rewrite list_elem_of_In. apply in_map. now apply list_elem_of_In. }
  apply list_elem_of_In, in_map_iff in Hr as (b' & Heq & Hin').
  exists b'. split; [now apply list_elem_of_In|]. now rewrite Heq.
Qed.

(** The list [findNeighbors] computes from the ranges and the nodes. *)
Lemma findNeighbors_defined (now : Z) (rt : RoutingTable.t) (target : Node.t)
    (k : option nat) (exclude : option Node.t) :
  RoutingTable.reaches rt (Node.id target) ->
  exists index b,
    RoutingTable.getBucketFor rt target = Some index
    /\ RoutingTable.buckets rt !! index = Some b
    /\ RoutingTable.findNeighbors now rt target k exclude
       = (let k1 := match k with Some (S k') => S k' | _ => RoutingTable.ksize rt end in
          Ok (List.map snd
                (Heapq.nsmallest
                   (RoutingTable.collect k1 target exclude
                      (TableTraverser.yields (RoutingTable.buckets rt) index) [])
                   k1 Utils.compare),
              RoutingTable.with_buckets rt
                (<[index := KBucket.touchLastUpdated now b]> (RoutingTable.buckets rt)))).
Proof.
  intros H. destruct (first_reaching_some _ _ 0%nat H) as (index & b & Hj & Hb).
  exists index, b. simpl in Hj. split; [exact Hj|]. split; [exact Hb|].
  unfold RoutingTable.findNeighbors, RoutingTable.bucketFor, RoutingTable.getBucketFor.
  rewrite Hj. simpl. rewrite Hb. simpl.
  assert (Hy : TableTraverser.yields
                 (<[index := KBucket.touchLastUpdated now b]> (RoutingTable.buckets rt)) index
               = TableTraverser.yields (RoutingTable.buckets rt) index).
  { apply yields_same_nodes.
    exact (contacts_nodes _ _ (contacts_touch now rt index b Hb)). }
  now rewrite Hy.
Qed.

(** Two tables with the same ranges and nodes give the same neighbours. *)
Lemma findNeighbors_same_contacts (now now' : Z) (rt rt' : RoutingTable.t)
    (target : Node.t) (k : option nat) (exclude : option Node.t) :
  RoutingTable.contacts rt = RoutingTable.contacts rt' ->
  RoutingTable.ksize rt = RoutingTable.ksize rt' ->
  RoutingTable.reaches rt (Node.id target) ->
  exists l r r',
    RoutingTable.findNeighbors now rt target k exclude = Ok (l, r)
    /\ RoutingTable.findNeighbors now' rt' target k exclude = Ok (l, r')
    /\ RoutingTable.contacts r = RoutingTable.contacts rt
    /\ RoutingTable.ksize r = RoutingTable.ksize rt
    /\ RoutingTable.node r = RoutingTable.node rt
    /\ RoutingTable.contacts r' = RoutingTable.contacts rt'
    /\ RoutingTable.ksize r' = RoutingTable.ksize rt'.
Proof.
  intros Hc Hk Hreach.
  destruct (findNeighbors_defined now rt target k exclude Hreach)
    as (index & b & Hi & Hb & Hf).
  destruct (findNeighbors_defined now' rt' target k exclude
              (reaches_same_ranges rt rt' _ Hc Hreach))
    as (index' & b' & Hi' & Hb' & Hf').
  assert (index' = index) as ->.
  { unfold RoutingTable.getBucketFor in Hi, Hi'.
    rewrite (first_reaching_same_ranges _ _ _ _ (contacts_ranges _ _ Hc)) in Hi.
    congruence. }
  eexists _, _, _. split; [exact Hf|]. split.
  - rewrite Hf'. cbv zeta. rewrite <- Hk.
    rewrite (yields_same_nodes _ _ index (contacts_nodes _ _ Hc)). reflexivity.
  - split; [now apply contacts_touch|]. split; [reflexivity|]. split; [reflexivity|].
    split; [now apply contacts_touch|reflexivity].
Qed.

Lemma collect_entries (k : nat) (target : Node.t) (exclude : option Node.t)
    (neighbors : list Node.t) (acc : list (Z * Node.t)) (e : Z * Node.t) :
  e ∈ RoutingTable.collect k target exclude neighbors acc ->
  e ∈ acc \/ (fst e = Node.distanceTo target (snd e) /\ snd e ∈ neighbors).
Proof.
  revert acc. induction neighbors as [|n neighbors IH]; intros acc He; simpl in He;
    [now left|].
  match type of He with
  | context [Nat.eqb (Utils.len ?a) k] => set (acc1 := a) in He
  end.
  assert (Hacc1 : e ∈ acc1 ->
                  e ∈ acc \/ (fst e = Node.distanceTo target (snd e) /\ snd e ∈ n :: neighbors)).
  { subst acc1. destruct (_ && _); [|now left]. unfold Heapq.push.
    rewrite elem_of_app, list_elem_of_singleton. intros [H| ->]; [now left|].
    right. simpl. split; [reflexivity|apply list_elem_of_here]. }
  destruct (Utils.len acc1 =? k)%nat; [now apply Hacc1|].
  destruct (IH acc1 He) as [H|[H1 H2]]; [now apply Hacc1|].
  right. split; [exact H1|now apply list_elem_of_further].
Qed.

Lemma sorted_by_fst (f : Node.t -> Z) (l : list (Z * Node.t)) :
  StronglySorted (fun a b => fst a <= fst b) l ->
  (forall e, e ∈ l -> fst e = f (snd e)) ->
  StronglySorted (fun a b => f a <= f b) (List.map snd l).
Proof.
  induction 1 as [|x l Hs IH Hall]; intros Hf; simpl; constructor.
  - apply IH. intros e He. apply Hf. now apply list_elem_of_further.
  - apply Forall_forall. intros n Hn.
    apply list_elem_of_In, in_map_iff in Hn as (e & <- & He). apply list_elem_of_In in He.
    rewrite <- (Hf x) by apply list_elem_of_here.
    rewrite <- (Hf e) by now apply list_elem_of_further.
    exact (proj1 (Forall_forall _ _) Hall e He).
Qed.

(** The neighbours come nearest first. *)
Lemma findNeighbors_sorted (now : Z) (rt rt1 : RoutingTable.t) (target : Node.t)
    (k : option nat) (exclude : option Node.t) (l : list Node.t) :
  RoutingTable.reaches rt (Node.id target) ->
  RoutingTable.findNeighbors now rt target k exclude = Ok (l, rt1) ->
  StronglySorted (fun a b => Node.distanceTo target a <= Node.distanceTo target b) l.
Proof.
  intros Hreach Hf.
  destruct (findNeighbors_defined now rt target k exclude Hreach) as (index & b & _ & _ & Hd).
  rewrite Hd in Hf. cbv zeta in Hf. injection Hf as <- _.
  match goal with |- context [Heapq.nsmallest ?found ?k1 _] =>
    destruct (NodeHeapFacts.nsmallest_split found k1) as (rest & Hperm & Hs & _);
    set (top := Heapq.nsmallest found k1 Utils.compare) in *
  end.
  apply sorted_by_fst; [eapply StronglySorted_app_1_l, Hs|].
  intros e He.
  assert (He' : e ∈ top ++ rest) by (apply elem_of_app; now left).
  rewrite Hperm in He'. apply collect_entries in He' as [He'|[He' _]]; [inversion He'|exact He'].
Qed.

End RoutingFacts.

(* ===================================================================== *)
(** * Properties of the protocol *)
(* ===================================================================== *)

Module ProtocolFacts.
Import KademliaProtocol.

(** C8 (the code departs from the claim).  The table of a node with
    [ksize] = 8 after nine contacts made at time 0 has the two buckets
    [0, 2^159] and [2^159 + 1, 2^160]; more than an hour later both are
    lonely.  With the draws 1/2 and 0, [getRefreshIDs] gives two strings of
    40 hex digits: the first spells 3 * 2^158, above the range of the first
    bucket, the second spells 2^159 - 1, below the range of the second
    bucket.  The sum is [sub.times(rnd).plus(sub)], not [... .plus(min)]. *)
Theorem refresh_ids_leave_bucket_range :
  let at_ (i : Z) := Node.mk i (Some "10.0.0.1"%string) (Some (13000 + i)) in
  let me := Node.mk 12345 None None in
  exists rt b1 b2,
    RoutingTable.addContacts 8 0 (RoutingTable.create 0 8 me)
      (List.map at_ [2 ^ 159; 1; 2; 3; 4; 5; 6; 7; 8]) = Ok rt
    /\ RoutingTable.getLonelyBuckets 4000000 rt = [b1; b2]
    /\ KBucket.range b1 = (BN.of_Z 0, BN.of_Z (2 ^ 159))
    /\ KBucket.range b2 = (BN.of_Z (2 ^ 159 + 1), BN.of_Z (2 ^ 160))
    /\ getRefreshIDs 4000000
         (mk (RPCProtocol.create 5000) rt (Storage.create 20000) me) [1 # 2; 0 # 1]
       = [ "c000000000000000000000000000000000000000"%string;
           "7fffffffffffffffffffffffffffffffffffffff"%string ]
    /\ BN.of_hex "c000000000000000000000000000000000000000" = 3 * 2 ^ 158
    /\ BN.of_hex "7fffffffffffffffffffffffffffffffffffffff" = 2 ^ 159 - 1
    /\ KBucket.hasInRange b1 (Node.mk (3 * 2 ^ 158) None None) = false
    /\ KBucket.hasInRange b2 (Node.mk (2 ^ 159 - 1) None None) = false.
Proof.
  do 3 eexists. split; [vm_compute; reflexivity|].
  split; [vm_compute; reflexivity|].
  vm_compute. repeat split.
Qed.

Section Timeouts.
Variable digest : Z -> Z.

Lemma late_response_ignored (fuel : nat) (now msgid : Z) (data : RPCProtocol.body) (st : t) :
  RPCProtocol._outstanding (rpc st) !! msgid = None ->
  responseArrives digest fuel now msgid data st = ([], Ok st).
Proof.
  intros H. unfold responseArrives, RPCProtocol._acceptResponse. rewrite H.
  destruct st. reflexivity.
Qed.

Lemma completions_snoc (msgid : Z) (p : RPCProtocol.t) (l : list (Z * RPCProtocol.outcome))
    (o : RPCProtocol.outcome) :
  RPCProtocol.resolved p = l ++ [(msgid, o)] ->
  RPCProtocol.completions msgid p
  = S (length (List.filter (fun r => fst r =? msgid) l)).
Proof.
  intros H. unfold RPCProtocol.completions. rewrite H, List.filter_app, List.length_app.
  simpl. rewrite Z.eqb_refl. simpl. lia.
Qed.

(** An RPC whose pending entry is registered and whose promise is still
    pending, when its timer fires: the promise is resolved with
    [ [ false, null ] ], once; the entry is removed and the timer is spent;
    [handleCallResponse] then runs [removeContact] for the callers that
    await through it, and the other callers leave the table as it is; a
    response arriving afterwards changes nothing.  Had the response arrived
    first, the promise would have been resolved once with [ [ true, data ] ],
    the entry removed and the timer cleared. *)
Lemma timer_fires_once (fuel : nat) (now msgid : Z) (st : t)
    (who : RPCProtocol.awaiter) :
  RPCProtocol._outstanding (rpc st) !! msgid = Some who ->
  RPCProtocol.completions msgid (rpc st) = 0%nat ->
  (forall n, who = RPCProtocol.ViaCall n -> RoutingTable.reaches (router st) (Node.id n)) ->
  exists st1,
    timerFires digest fuel now msgid st = ([], Ok st1)
    /\ RPCProtocol.resolved (rpc st1)
       = RPCProtocol.resolved (rpc st) ++ [(msgid, (false, None))]
    /\ RPCProtocol.completions msgid (rpc st1) = 1%nat
    /\ RPCProtocol._outstanding (rpc st1) !! msgid = None
    /\ (msgid ∉ RPCProtocol.timers (rpc st1))
    /\ (match who with
        | RPCProtocol.ViaCall n => RoutingTable.removeContact (router st) n = Ok (router st1)
        | RPCProtocol.Plain _ => router st1 = router st
        end)
    /\ (forall fuel' now' data,
          responseArrives digest fuel' now' msgid data st1 = ([], Ok st1))
    /\ (forall data,
          let p1 := fst (RPCProtocol._acceptResponse msgid data (rpc st)) in
          RPCProtocol.resolved p1
          = RPCProtocol.resolved (rpc st) ++ [(msgid, (true, Some data))]
          /\ RPCProtocol.completions msgid p1 = 1%nat
          /\ RPCProtocol._outstanding p1 !! msgid = None
          /\ (msgid ∉ RPCProtocol.timers p1)
          /\ forall data', RPCProtocol._acceptResponse msgid data' p1 = (p1, None)).
Proof.
  intros Hout Hzero Hreach.
  assert (Hresp : forall data,
             let p1 := fst (RPCProtocol._acceptResponse msgid data (rpc st)) in
             RPCProtocol.resolved p1
             = RPCProtocol.resolved (rpc st) ++ [(msgid, (true, Some data))]
             /\ RPCProtocol.completions msgid p1 = 1%nat
             /\ RPCProtocol._outstanding p1 !! msgid = None
             /\ (msgid ∉ RPCProtocol.timers p1)
             /\ forall data', RPCProtocol._acceptResponse msgid data' p1 = (p1, None)).
  { intros data. unfold RPCProtocol._acceptResponse at 1. rewrite Hout. cbn [fst].
    set (p1 := RPCProtocol.mk _ _ _ _).
    assert (Hgone : RPCProtocol._outstanding p1 !! msgid = None)
      by (subst p1; simpl; apply lookup_delete_eq).
    split; [reflexivity|]. split.
    { rewrite (completions_snoc msgid p1 (RPCProtocol.resolved (rpc st)) (true, Some data))
        by reflexivity.
      unfold RPCProtocol.completions in Hzero. now rewrite Hzero. }
    split; [exact Hgone|]. split.
    { subst p1. simpl. rewrite elem_of_difference. intros [_ Hn]. apply Hn.
      now apply elem_of_singleton. }
    intros data'. unfold RPCProtocol._acceptResponse. now rewrite Hgone. }
  unfold timerFires, RPCProtocol._timeout. rewrite Hout. simpl.
  set (p1 := RPCProtocol.mk _ _ _ _).
  assert (Hgone : RPCProtocol._outstanding p1 !! msgid = None)
    by (subst p1; simpl; apply lookup_delete_eq).
  assert (Hres : RPCProtocol.resolved p1
                 = RPCProtocol.resolved (rpc st) ++ [(msgid, (false, None))]) by reflexivity.
  assert (Hone : RPCProtocol.completions msgid p1 = 1%nat).
  { rewrite (completions_snoc msgid p1 _ _ Hres).
    unfold RPCProtocol.completions in Hzero. now rewrite Hzero. }
  assert (Htimer : msgid ∉ RPCProtocol.timers p1).
  { subst p1. simpl. rewrite elem_of_difference. intros [_ Hn]. apply Hn.
    now apply elem_of_singleton. }
  destruct who as [n|a]; simpl.
  - destruct (RoutingFacts.removeContact_defined (router st) n (Hreach n eq_refl))
      as [rt1 Hrt1].
    unfold handleCallResponse. simpl. rewrite Hrt1. simpl.
    eexists. split; [reflexivity|]. simpl.
    repeat (split; [assumption|]). split; [reflexivity|]. split; [|exact Hresp].
    intros fuel' now' data. now apply late_response_ignored.
  - eexists. split; [reflexivity|]. simpl.
    repeat (split; [assumption|]). split; [reflexivity|]. split; [|exact Hresp].
    intros fuel' now' data. now apply late_response_ignored.
Qed.

End Timeouts.

Section Welcome.
Variable digest : Z -> Z.

Lemma last_default (l : list Node.t) (y d d' : Node.t) :
  List.last (y :: l) d = List.last (y :: l) d'.
Proof.
  revert y. induction l as [|z l IH]; intros y; [reflexivity|].
  change (List.last (z :: l) d = List.last (z :: l) d'). apply IH.
Qed.

Lemma last_is_max (f : Node.t -> Z) (l : list Node.t) (x : Node.t) :
  StronglySorted (fun a b => f a <= f b) (x :: l) ->
  List.last (x :: l) x ∈ x :: l
  /\ forall m, m ∈ x :: l -> f m <= f (List.last (x :: l) x).
Proof.
  revert x. induction l as [|y l IH]; intros x Hs.
  - simpl. split; [apply list_elem_of_here|].
    intros m Hm. apply list_elem_of_singleton in Hm. subst. lia.
  - apply StronglySorted_inv in Hs as [Hs Hall].
    destruct (IH y Hs) as [Hin Hmax].
    change (List.last (x :: y :: l) x) with (List.last (y :: l) x).
    rewrite (last_default l y x y). split; [now apply list_elem_of_further|].
    intros m Hm. apply elem_of_cons in Hm as [->|Hm]; [|now apply Hmax].
    etransitivity; [|apply Hmax, list_elem_of_here].
    exact (proj1 (Forall_forall _ _) Hall y (list_elem_of_here _ _)).
Qed.

Lemma dist_sym (a b : Node.t) : Node.distanceTo a b = Node.distanceTo b a.
Proof. apply Z.lxor_comm. Qed.

(** On neighbours that come nearest first, the test of the loop is the
    condition of the claim. *)
Lemma shouldStore_spec (node thisNode keynode : Node.t) (neighbors : list Node.t) :
  StronglySorted (fun a b => Node.distanceTo keynode a <= Node.distanceTo keynode b)
                 neighbors ->
  shouldStore node thisNode keynode neighbors = true
  <-> mustStore node thisNode keynode neighbors.
Proof.
  intros Hs. unfold mustStore. destruct neighbors as [|x l]; simpl.
  { split; [now left|reflexivity]. }
  assert (Hs' : StronglySorted
                  (fun a b => Node.distanceTo a keynode <= Node.distanceTo b keynode) (x :: l)).
  { clear -Hs. induction Hs as [|y l' H IH Hall]; constructor; auto.
    eapply Forall_impl; [exact Hall|]. intros z. simpl. now rewrite !(dist_sym keynode). }
  destruct (last_is_max (fun a => Node.distanceTo a keynode) l x Hs') as [Hlast Hmax].
  pose proof (StronglySorted_inv Hs') as [_ Hmin].
  assert (Hfirst : forall m, m ∈ x :: l -> Node.distanceTo x keynode <= Node.distanceTo m keynode).
  { intros m Hm. apply elem_of_cons in Hm as [->|Hm]; [lia|].
    exact (proj1 (Forall_forall _ _) Hmin m Hm). }
  change (match l with [] => x | _ :: _ => List.last l x end) with (List.last (x :: l) x).
  rewrite andb_true_iff, !Z.ltb_lt. split.
  - intros [H1 H2]. right. split.
    + exists (List.last (x :: l) x). split; [now split|exact H1].
    + exists x. split; [split; [apply list_elem_of_here|exact Hfirst]|exact H2].
  - intros [H|[(far & [Hfar Hfmax] & H1) (near & [Hnear Hnmin] & H2)]]; [discriminate|].
    split.
    + pose proof (Hmax far Hfar). lia.
    + pose proof (Hnmin x (list_elem_of_here _ _)). lia.
Qed.

(** The [callStore] calls of the loop, read off the table it starts from. *)
Lemma welcomeLoop_spec (now : Z) (node thisNode : Node.t) (rt0 : RoutingTable.t)
    (storages : list (Z * Buffer)) :
  (forall key value, (key, value) ∈ storages -> RoutingTable.reaches rt0 (digest key)) ->
  forall rt,
    RoutingTable.contacts rt = RoutingTable.contacts rt0 ->
    RoutingTable.ksize rt = RoutingTable.ksize rt0 ->
    exists rt',
      welcomeLoop digest now node thisNode storages rt
      = (flat_map (fun kv =>
                     if shouldStore node thisNode (keynodeOf digest (fst kv))
                          (neighborsOf digest now rt0 (fst kv))
                     then [callStore node (fst kv) (snd kv)] else []) storages,
         Ok rt')
      /\ RoutingTable.contacts rt' = RoutingTable.contacts rt0
      /\ RoutingTable.ksize rt' = RoutingTable.ksize rt0
      /\ RoutingTable.node rt' = RoutingTable.node rt.
Proof.
  induction storages as [|[key value] rest IH]; intros Hreach rt Hc Hk.
  { exists rt. simpl. auto. }
  assert (Hr0 : RoutingTable.reaches rt0 (Node.id (keynodeOf digest key))).
  { apply (Hreach key value), list_elem_of_here. }
  assert (Hr : RoutingTable.reaches rt (Node.id (keynodeOf digest key))).
  { eapply RoutingFacts.reaches_same_ranges; [symmetry; exact Hc|exact Hr0]. }
  destruct (RoutingFacts.findNeighbors_same_contacts now now rt rt0
              (keynodeOf digest key) None None Hc Hk Hr)
    as (l & r & r0 & Hf & Hf0 & Hcr & Hkr & Hnr & _ & _).
  destruct (IH (fun k v H => Hreach k v (list_elem_of_further _ _ _ H)) r) as
    (rt' & Hloop & Hc' & Hk' & Hn'); [congruence|congruence|].
  exists rt'. split; [|split; [exact Hc'|split; [exact Hk'|congruence]]].
  cbn [welcomeLoop flat_map fst snd]. rewrite Hf.
  unfold neighborsOf at 1. rewrite Hf0.
  unfold mbind, eff_bind, lift. cbn [fst snd]. rewrite Hloop.
  destruct (shouldStore _ _ _ l); reflexivity.
Qed.

Lemma bind_calls {A B : Type} (m : eff A) (f : A -> eff B) :
  exists more, fst (m ≫= f) = fst m ++ more.
Proof.
  destruct m as [calls [a| |]]; unfold mbind, eff_bind; simpl.
  - destruct (f a) as [more r]. now exists more.
  - exists []. now rewrite app_nil_r.
  - exists []. now rewrite app_nil_r.
Qed.

(** A bucket with room takes a node it does not hold at its tail. *)
Lemma addContact_room (fuel : nat) (now : Z) (rt : RoutingTable.t) (n : Node.t)
    (index : nat) (b : KBucket.t) :
  RoutingTable.bucketFor rt n = Ok (index, b) ->
  KBucket.isNewNode b n = true ->
  (KBucket.len b < KBucket.ksize b)%nat ->
  RoutingTable.addContact (S fuel) now rt n
  = Ok (RoutingTable.with_buckets rt
          (<[index := KBucket.with_nodes b (KBucket.nodes b ++ [n])]> (RoutingTable.buckets rt)),
        []).
Proof.
  intros Hb Hnew Hlen. simpl. rewrite Hb. simpl.
  unfold KBucket.addNode, KBucket.isNewNode in *. apply negb_true_iff in Hnew.
  rewrite Hnew. apply Nat.ltb_lt in Hlen. rewrite Hlen.
  assert (Hset : forall m, KBucket.nodes_has (Node.id n) m = false ->
                           KBucket.nodes_set (Node.id n) n m = m ++ [n]).
  { induction m as [|x m IH]; simpl; intros H; [reflexivity|].
    apply orb_false_iff in H as [H1 H2]. rewrite H1. now rewrite IH. }
  now rewrite Hset.
Qed.

(** [welcomeIfNewNode(node)] by the answer of [isNewNode(node)].  On
    [false] nothing is started and nothing changes.  On [true], for each
    (key, value) of [storage.items()], [callStore(node, key, value)] is
    started if and only if [findNeighbors] gives no neighbour for the digest
    of the key, or [node] is strictly closer to it than the furthest of the
    neighbours and this node strictly closer than the closest; the method
    then ends as [addContact(node)] does on a table of the same buckets and
    nodes.  [rpc_ping], [rpc_store], [rpc_find_node] and [rpc_find_value]
    run it first. *)
Lemma welcome_by_isNewNode (fuel : nat) (now : Z) (st : t) (node : Node.t) :
  (forall key value, (key, value) ∈ fst (Storage.items now (storage st)) ->
                     RoutingTable.reaches (router st) (digest key)) ->
  (RoutingTable.isNewNode (router st) node = Ok false ->
     welcomeIfNewNode digest fuel now st node = ([], Ok st))
  /\ (RoutingTable.isNewNode (router st) node = Ok true ->
      (forall key value,
          callStore node key value ∈ fst (welcomeIfNewNode digest fuel now st node)
          <-> (key, value) ∈ fst (Storage.items now (storage st))
              /\ exists neighbors rt',
                   RoutingTable.findNeighbors now (router st) (keynodeOf digest key) None None
                   = Ok (neighbors, rt')
                   /\ mustStore node (sourceNode st) (keynodeOf digest key) neighbors)
      /\ exists rt1,
          RoutingTable.contacts rt1 = RoutingTable.contacts (router st)
          /\ RoutingTable.ksize rt1 = RoutingTable.ksize (router st)
          /\ RoutingTable.node rt1 = RoutingTable.node (router st)
          /\ snd (welcomeIfNewNode digest fuel now st node)
             = match RoutingTable.addContact fuel now rt1 node with
               | Ok (rt2, _) =>
                   Ok (mk (rpc st) rt2 (snd (Storage.items now (storage st))) (sourceNode st))
               | TypeError => TypeError
               | OutOfFuel => OutOfFuel
               end
          /\ forall index b,
               RoutingTable.bucketFor rt1 node = Ok (index, b) ->
               KBucket.isNewNode b node = true ->
               (KBucket.len b < KBucket.ksize b)%nat ->
               RoutingTable.addContact (S fuel) now rt1 node
               = Ok (RoutingTable.with_buckets rt1
                       (<[index := KBucket.with_nodes b (KBucket.nodes b ++ [node])]>
                          (RoutingTable.buckets rt1)), []))
  /\ (forall sender nodeid key value,
        let welcomed := fst (welcomeIfNewNode digest fuel now st (sourceOf sender nodeid)) in
        (exists more, fst (handle digest fuel now st sender (ping nodeid)) = welcomed ++ more)
        /\ (exists more, fst (handle digest fuel now st sender (store nodeid key value))
                         = welcomed ++ more)
        /\ (exists more, fst (handle digest fuel now st sender (find_node nodeid key))
                         = welcomed ++ more)
        /\ (exists more, fst (handle digest fuel now st sender (find_value nodeid key))
                         = welcomed ++ more)).
Proof.
  intros Hreach. split; [|split].
  - intros Hnew. unfold welcomeIfNewNode. rewrite Hnew. reflexivity.
  - intros Hnew.
    destruct (Storage.items now (storage st)) as [storages storage1] eqn:Hitems.
    simpl in Hreach.
    destruct (welcomeLoop_spec now node (sourceNode st) (router st) storages Hreach
                (router st) eq_refl eq_refl) as (rt1 & Hloop & Hc & Hk & Hn).
    set (stores := flat_map _ storages) in Hloop.
    assert (Hw : welcomeIfNewNode digest fuel now st node
                 = match RoutingTable.addContact fuel now rt1 node with
                   | Ok (rt2, pings) =>
                       (stores ++ List.map callPing pings,
                        Ok (mk (rpc st) rt2 storage1 (sourceNode st)))
                   | TypeError => (stores ++ [], TypeError)
                   | OutOfFuel => (stores ++ [], OutOfFuel)
                   end).
    { unfold welcomeIfNewNode. rewrite Hnew, Hitems.
      unfold mbind, eff_bind, lift. cbn [negb]. rewrite Hloop.
      destruct (RoutingTable.addContact fuel now rt1 node) as [[rt2 pings]| |]; reflexivity. }
    split.
    + intros key value.
      assert (Hin : callStore node key value ∈ fst (welcomeIfNewNode digest fuel now st node)
                    <-> callStore node key value ∈ stores).
      { rewrite Hw.
        destruct (RoutingTable.addContact fuel now rt1 node) as [[rt2 pings]| |];
          cbn [fst]; rewrite elem_of_app; split; auto; intros [H|H]; auto.
        - apply list_elem_of_In, in_map_iff in H as (x & Hx & _). discriminate.
        - inversion H.
        - inversion H. }
      rewrite Hin. unfold stores. rewrite list_elem_of_In, in_flat_map. simpl. split.
      * intros ([k v] & Hkv & Hcall). simpl in Hcall.
        destruct (shouldStore _ _ _ _) eqn:Hs; [|contradiction].
        destruct Hcall as [Heq|[]]. injection Heq as -> ->.
        apply list_elem_of_In in Hkv. split; [exact Hkv|].
        destruct (RoutingFacts.findNeighbors_defined now (router st) (keynodeOf digest key)
                    None None (Hreach key value Hkv)) as (index & b & _ & _ & Hf).
        cbv zeta in Hf. eexists _, _. split; [exact Hf|].
        unfold neighborsOf in Hs. rewrite Hf in Hs.
        apply shouldStore_spec; [|exact Hs].
        eapply RoutingFacts.findNeighbors_sorted; [|exact Hf]. exact (Hreach key value Hkv).
      * intros (Hkv & neighbors & rt' & Hf & Hm).
        exists (key, value). split; [now apply list_elem_of_In|]. simpl.
        unfold neighborsOf. rewrite Hf.
        assert (Hs : shouldStore node (sourceNode st) (keynodeOf digest key) neighbors = true).
        { apply shouldStore_spec; [|exact Hm].
          eapply RoutingFacts.findNeighbors_sorted; [|exact Hf]. exact (Hreach key value Hkv). }
        rewrite Hs. now left.
    + exists rt1. split; [exact Hc|]. split; [exact Hk|]. split; [exact Hn|]. split.
      * rewrite Hw. cbn [snd].
        destruct (RoutingTable.addContact fuel now rt1 node) as [[rt2 pings]| |]; reflexivity.
      * intros index b. apply addContact_room.
  - intros sender nodeid key value welcomed. subst welcomed.
    repeat split; unfold handle, rpc_find_node; apply bind_calls.
Qed.

End Welcome.

End ProtocolFacts.

(* ===================================================================== *)
(** * Properties of the server *)
(* ===================================================================== *)

Module ServerFacts.
Import Server.

(** With no neighbour for the key, [set_digest] returns [false]. *)
Lemma set_digest_no_neighbors (fuel : nat) (now : Z) (srv : t)
    (network : Node.t -> RPCProtocol.outcome) (stores : Node.t -> Promise.t)
    (dkey : Z) (value : Buffer) (rt1 : RoutingTable.t) :
  RoutingTable.findNeighbors now (KademliaProtocol.router (protocol srv))
    (Node.mk dkey None None) None None = Ok ([], rt1) ->
  set_digest fuel now srv network stores dkey value
  = (ReturnsFalse, KademliaProtocol.storage (protocol srv)).
Proof. intros H. unfold set_digest. now rewrite H. Qed.

Lemma race_member (now : nat) (iter : list Promise.t) (t' : nat) (h : Promise.settlement) :
  Promise.race now iter = Some (t', h) -> exists p, p ∈ iter /\ Promise.how p = h.
Proof.
  revert t' h. induction iter as [|p rest IH]; intros t' h H; [discriminate|].
  simpl in H. destruct (Promise.race now rest) as [[t1 h1]|].
  - destruct (_ <=? _)%nat; injection H as <- <-.
    + exists p. split; [apply list_elem_of_here|reflexivity].
    + destruct (IH _ _ eq_refl) as (q & Hq & Hh).
      exists q. split; [now apply list_elem_of_further|exact Hh].
  - injection H as <- <-. exists p. split; [apply list_elem_of_here|reflexivity].
Qed.

(** What [any] returns is the value one of the promises was fulfilled
    with. *)
Lemma any_returns_member (iter : list Promise.t) (now : nat) (val : RPCProtocol.outcome) :
  any now iter = Returns val ->
  exists p, p ∈ iter /\ Promise.how p = Promise.Fulfilled val.
Proof.
  revert now. induction iter as [|p rest IH]; intros now H; [discriminate|].
  cbn [any] in H. destruct (Promise.race now (p :: rest)) as [[t' [v|]]|] eqn:Hr;
    [|idtac|discriminate].
  - injection H as <-. now apply race_member in Hr.
  - destruct (IH _ H) as (q & Hq & Hh).
    exists q. split; [now apply list_elem_of_further|exact Hh].
Qed.

(** When [set_digest] returns a success, a [callStore] promise was
    fulfilled with a success. *)
Lemma set_digest_success (fuel : nat) (now : Z) (srv : t)
    (network : Node.t -> RPCProtocol.outcome) (stores : Node.t -> Promise.t)
    (dkey : Z) (value : Buffer) :
  is_success (fst (set_digest fuel now srv network stores dkey value)) = true ->
  exists n data, Promise.how (stores n) = Promise.Fulfilled (true, data).
Proof.
  unfold set_digest.
  destruct (RoutingTable.findNeighbors _ _ _ _ _) as [[nearest rt1]| |]; try discriminate.
  destruct (length nearest =? 0)%nat; [discriminate|].
  destruct (NodeSpiderCrawl.find _ _ _) as [nodes| |]; try discriminate.
  cbn [fst]. destruct (any 0 (List.map stores nodes)) as [|[[|] data]| |] eqn:Ha;
    try discriminate.
  intros _. apply any_returns_member in Ha as (p & Hp & Hh).
  apply list_elem_of_In, in_map_iff in Hp as (n & <- & _). now exists n, data.
Qed.

(** C1 (the code departs from the claim).  A server with [ksize] = 8 and
    [alpha] = 3 whose table holds one contact.
    - The contact does not answer the [find_node] of the crawl:
      [findNeighbors] gives the contact, the crawl removes it from [nearest]
      and returns no node, [ds] is empty and [any(ds)] is
      [Promise.race([])], which never settles.
    - The contact answers the crawl, and the value has 600 bytes: the
      [store] request does not fit in 512 bytes, [rpc] throws and the promise
      of [callStore] is rejected; [any] shifts [ds] and calls itself on the
      empty array, which never settles either.
    In both cases no [store] has succeeded and [set_digest] does not return
    at all. *)
Theorem set_digest_never_settles :
  let n := Node.mk 5 (Some "10.0.0.1"%string) (Some 13001) in
  let me := Node.mk 12345 None None in
  let rt := match RoutingTable.addContact 8 0 (RoutingTable.create 0 8 me) n with
            | Ok (rt, _) => rt
            | _ => RoutingTable.create 0 8 me
            end in
  let st := KademliaProtocol.mk (RPCProtocol.create 5000) rt (Storage.create 20000) me in
  let srv := mk 8 3 st in
  let silent := fun _ : Node.t => (false, None) : RPCProtocol.outcome in
  let answers := fun _ : Node.t => (true, Some (RPCProtocol.Nodes [])) : RPCProtocol.outcome in
  let timeout := fun _ : Node.t => Promise.mk 5000 (Promise.Fulfilled (false, None)) in
  let rejected := fun _ : Node.t => Promise.mk 0 Promise.Rejected in
  (exists rt1, RoutingTable.findNeighbors 1000 rt (Node.mk 9 None None) None None
               = Ok ([n], rt1))
  /\ NodeSpiderCrawl.find 16 silent (NodeSpiderCrawl.create (Node.mk 9 None None) [n] 8 3)
     = Ok []
  /\ fst (set_digest 16 1000 srv silent timeout 9 [x68; x69]%byte) = NeverSettles
  /\ NodeSpiderCrawl.find 16 answers (NodeSpiderCrawl.create (Node.mk 9 None None) [n] 8 3)
     = Ok [n]
  /\ fst (set_digest 16 1000 srv answers rejected 9 (List.repeat x61%byte 600))
     = NeverSettles.
Proof.
  split; [eexists; vm_compute; reflexivity|].
  vm_compute. repeat split.
Qed.

End ServerFacts.

(* ===================================================================== *)
(** * More on the store *)
(* ===================================================================== *)

Module StorageMore.
Import Storage StorageFacts.

Local Arguments key_of : simpl never.
Local Arguments stamp_of : simpl never.
Local Arguments value_of : simpl never.

Lemma filter_twice (p q : entry -> bool) (l : list entry) :
  List.filter p (List.filter q l) = List.filter (fun e => q e && p e) l.
Proof.
  induction l as [|e l IH]; simpl; [reflexivity|].
  destruct (q e); simpl; [|exact IH]. destruct (p e); now rewrite IH.
Qed.

Lemma set_appended_inv (clock now key : Z) (value : Buffer) (s : t) :
  inv clock s -> clock <= now ->
  inv now (mk (ttl s) (List.filter (fun e => negb (key_of e =? key)) (entries s)
                       ++ [(key, (now, value))])).
Proof.
  intros Hi Hc. apply inv_linv. simpl.
  apply linv_snoc with clock; [exact Hc|apply delete_notin|].
  apply linv_filter. now apply inv_linv.
Qed.

(** X1. [set(key, value)] on a store with a positive [ttl]: the entries that
    are neither expired nor of [key] keep their order, and the entry of
    [key], stamped [now], comes last.  With a [ttl] that is not positive
    every entry, the new one included, is culled at once. *)
Theorem set_moves_key_to_the_end (clock now key : Z) (value : Buffer) (s : t) :
  inv clock s -> clock <= now ->
  (0 < ttl s ->
     entries (set now key value s)
     = List.filter (fun e => negb (key_of e =? key) && negb (expired now (ttl s) e))
                   (entries s)
       ++ [(key, (now, value))])
  /\ (ttl s <= 0 -> entries (set now key value s) = []).
Proof.
  intros Hi Hc.
  pose proof (set_appended_inv clock now key value s Hi Hc) as Hi'.
  rewrite set_eq, (cull_eq now now _ Hi'). cbn [ttl entries].
  rewrite List.filter_app, filter_twice. cbn [List.filter].
  split; intros Ht.
  - assert (Hn : expired now (ttl s) (key, (now, value)) = false).
    { unfold expired, stamp_of. cbn [fst snd]. lia. }
    rewrite Hn. reflexivity.
  - assert (Hn : expired now (ttl s) (key, (now, value)) = true).
    { unfold expired, stamp_of. cbn [fst snd]. lia. }
    rewrite Hn. cbn [negb]. rewrite app_nil_r.
    destruct Hi as (_ & _ & Hf). unfold stamps in Hf. clear Hi' Hn.
    induction (entries s) as [|e l IH]; [reflexivity|].
    simpl in Hf. apply Forall_cons in Hf as [He Hf]. cbn [List.filter].
    assert (Hx : expired now (ttl s) e = true) by (unfold expired; lia).
    rewrite Hx. cbn [negb]. rewrite andb_false_r. now apply IH.
Qed.

Lemma set_moves_key_to_the_end_witness :
  entries (set 300 1 [x7a]%byte (mk 20000 [(1, (100, [x61]%byte)); (2, (200, [x62]%byte))]))
  = [(2, (200, [x62]%byte)); (1, (300, [x7a]%byte))].
Proof.
  apply (set_moves_key_to_the_end 200 300 1 [x7a]%byte
           (mk 20000 [(1, (100, [x61]%byte)); (2, (200, [x62]%byte))])).
  - apply inv_linv. repeat split; simpl.
    + apply NoDup_cons. split; [|apply NoDup_singleton].
      intros H. apply list_elem_of_singleton in H. discriminate.
    + repeat constructor. unfold stamp_of. simpl. lia.
    + repeat constructor; unfold stamp_of; simpl; lia.
  - lia.
  - simpl. lia.
Defined.

(** X2. [pop()] on a store whose keys are unique: on an empty store it returns
    [null] and changes nothing; with 'FIFO' it returns the value of the
    oldest entry and removes that entry alone, otherwise the value of the
    newest entry, removing that one alone. *)
Theorem pop_takes_one_end (s : t) :
  NoDup (keys s) ->
  (entries s = [] -> forall d, pop d s = (None, s))
  /\ (forall e l, entries s = e :: l -> pop FIFO s = (Some (value_of e), mk (ttl s) l))
  /\ (forall e l, entries s = l ++ [e] -> pop LIFO s = (Some (value_of e), mk (ttl s) l)).
Proof.
  intros Hnd. split; [|split].
  - intros He d. unfold pop. now rewrite He.
  - intros e l He. unfold pop, super_get, delete, keys in *. rewrite He in *.
    cbn [List.find List.filter List.map]. rewrite Z.eqb_refl. cbn [negb option_map].
    apply NoDup_cons in Hnd as [Hn _]. now rewrite filter_notin.
  - intros e l He. unfold keys in Hnd. rewrite He, List.map_app in Hnd.
    apply NoDup_app in Hnd as (Hl & Hdisj & _).
    assert (Hnotin : key_of e ∉ List.map key_of l).
    { intros Hin. apply (Hdisj _ Hin). simpl. apply list_elem_of_here. }
    unfold pop, super_get, delete. rewrite He.
    destruct (l ++ [e]) as [|e0 l0] eqn:El; [now destruct l|].
    rewrite <- El. rewrite last_last.
    rewrite List.filter_app, filter_notin by exact Hnotin.
    cbn [List.filter]. rewrite Z.eqb_refl. cbn [negb]. rewrite app_nil_r.
    assert (Hfind : List.find (fun e1 => key_of e1 =? key_of e) (l ++ [e]) = Some e).
    { clear -Hnotin. induction l as [|x l IH]; simpl.
      - now rewrite Z.eqb_refl.
      - apply not_elem_of_cons in Hnotin as [Hne Hnotin].
        destruct (Z.eqb_spec (key_of x) (key_of e)); [congruence|]. now apply IH. }
    rewrite Hfind. reflexivity.
Qed.

Lemma pop_takes_one_end_witness :
  pop LIFO (mk 20000 [(1, (100, [x61]%byte)); (2, (200, [x62]%byte))])
  = (Some [x62]%byte, mk 20000 [(1, (100, [x61]%byte))]).
Proof.
  apply (pop_takes_one_end (mk 20000 [(1, (100, [x61]%byte)); (2, (200, [x62]%byte))]))
    with (e := (2, (200, [x62]%byte))) (l := [(1, (100, [x61]%byte))]).
  - simpl. apply NoDup_cons. split; [|apply NoDup_singleton].
    intros H. apply list_elem_of_singleton in H. discriminate.
  - reflexivity.
Defined.

(** X3. Reading changes a store by culling only, and culling twice at the same
    time is culling once: a [get] or an [items] leaves what a later read made
    at the same time returns as it was. *)
Theorem reads_only_cull (clock now key : Z) (s : t) :
  inv clock s ->
  snd (get now key s) = cull now s
  /\ snd (items now s) = cull now s
  /\ cull now (cull now s) = cull now s
  /\ (forall key', get now key' (snd (get now key s)) = get now key' s)
  /\ items now (snd (get now key s)) = items now s.
Proof.
  intros Hi.
  assert (Hg : snd (get now key s) = cull now s).
  { unfold get. now destruct (has key (cull now s)). }
  assert (Hc : cull now (cull now s) = cull now s).
  { rewrite (cull_eq clock now (cull now s)) by now apply inv_cull.
    rewrite (cull_eq clock now s Hi). cbn [ttl entries]. f_equal.
    rewrite filter_twice. apply List.filter_ext. intros e. now destruct (expired _ _ e). }
  split; [exact Hg|]. split; [reflexivity|]. split; [exact Hc|]. split.
  - intros key'. rewrite Hg. unfold get. now rewrite Hc.
  - rewrite Hg. unfold items. now rewrite Hc.
Qed.

Lemma reads_only_cull_witness :
  items 20150 (snd (get 20150 2 (mk 20000 [(1, (100, [x61]%byte)); (2, (200, [x62]%byte))])))
  = items 20150 (mk 20000 [(1, (100, [x61]%byte)); (2, (200, [x62]%byte))]).
Proof.
  apply (reads_only_cull 200 20150 2
           (mk 20000 [(1, (100, [x61]%byte)); (2, (200, [x62]%byte))])).
  apply inv_linv. repeat split; simpl.
  - apply NoDup_cons. split; [|apply NoDup_singleton].
    intros H. apply list_elem_of_singleton in H. discriminate.
  - repeat constructor. unfold stamp_of. simpl. lia.
  - repeat constructor; unfold stamp_of; simpl; lia.
Defined.

End StorageMore.

(* ===================================================================== *)
(** * Properties of OrderedSet, sharedPrefix and the buckets *)
(* ===================================================================== *)

Module OrderedSetFacts.
Import OrderedSet.

Lemma loose_eq_ip_spec (a b : option string) : Node.loose_eq_ip a b = true <-> a = b.
Proof.
  destruct a as [x|], b as [y|]; simpl; try (split; congruence).
  rewrite String.eqb_eq. split; congruence.
Qed.

Lemma loose_eq_port_spec (a b : option Z) : Node.loose_eq_port a b = true <-> a = b.
Proof.
  destruct a as [x|], b as [y|]; simpl; try (split; congruence).
  rewrite Z.eqb_eq. split; congruence.
Qed.

(** Two nodes share a key exactly when their three fields agree. *)
Lemma same_key_spec (a b : Node.t) : same_key a b = true <-> a = b.
Proof.
  unfold same_key. rewrite !andb_true_iff, Z.eqb_eq, loose_eq_ip_spec, loose_eq_port_spec.
  destruct a, b; simpl. split; [intros [[-> ->] ->]; reflexivity|].
  intros H. injection H as -> -> ->. auto.
Qed.

Lemma same_key_refl (a : Node.t) : same_key a a = true.
Proof. now apply same_key_spec. Qed.

Lemma has_delete (thing : Node.t) (s : t) : has thing (delete thing s) = false.
Proof.
  unfold has, delete. induction s as [|x s IH]; simpl; [reflexivity|].
  destruct (same_key thing x) eqn:E; simpl; [exact IH|]. now rewrite E.
Qed.

Lemma delete_fresh (thing : Node.t) (s : t) : has thing s = false -> delete thing s = s.
Proof.
  unfold has, delete. induction s as [|x s IH]; simpl; [reflexivity|].
  intros H. apply orb_false_iff in H as [H1 H2]. rewrite H1. simpl. now rewrite IH.
Qed.

Lemma set_fresh (thing : Node.t) (s : t) : has thing s = false -> set thing s = s ++ [thing].
Proof.
  unfold has. induction s as [|x s IH]; simpl; [reflexivity|].
  intros H. apply orb_false_iff in H as [H1 H2]. rewrite H1. now rewrite IH.
Qed.

Lemma oset_push_snoc (thing : Node.t) (s : t) : push thing s = delete thing s ++ [thing].
Proof.
  unfold push. destruct (has thing s) eqn:E.
  - apply set_fresh, has_delete.
  - rewrite (delete_fresh _ _ E). now apply set_fresh.
Qed.

Lemma oset_pop_snoc (x : Node.t) (s : t) : pop (s ++ [x]) = (Some x, s).
Proof.
  unfold pop. destruct (s ++ [x]) as [|y s'] eqn:E; [now destruct s|].
  rewrite <- E, removelast_last. f_equal. f_equal.
  destruct s as [|z s]; simpl in E; injection E as <- <-; [reflexivity|].
  apply last_last.
Qed.

(** X4. [push(thing)] leaves the other items in their order and puts [thing]
    last, once; the [pop()] that follows gives [thing] back and leaves the
    set without it; pushing the same item again changes nothing. *)
Theorem push_then_pop (thing : Node.t) (s : t) :
  push thing s = delete thing s ++ [thing]
  /\ (forall x, x ∈ delete thing s <-> x ∈ s /\ x <> thing)
  /\ pop (push thing s) = (Some thing, delete thing s)
  /\ push thing (push thing s) = push thing s.
Proof.
  split; [apply oset_push_snoc|]. split; [|split].
  - intros x. unfold delete. rewrite !list_elem_of_In, filter_In, negb_true_iff.
    split; intros [Hin Hx]; (split; [exact Hin|]).
    + intros ->. now rewrite same_key_refl in Hx.
    + apply not_true_is_false. rewrite same_key_spec. congruence.
  - rewrite oset_push_snoc. apply oset_pop_snoc.
  - rewrite !oset_push_snoc. f_equal. unfold delete at 1. rewrite List.filter_app.
    cbn [List.filter]. rewrite same_key_refl. cbn [negb]. rewrite app_nil_r.
    apply delete_fresh, has_delete.
Qed.

End OrderedSetFacts.

Module BitsFacts.
Import Bits.

Lemma same_digit_spec (i : nat) (a : list bool) (rest : list (list bool)) :
  same_digit i (a :: rest) = true
  <-> forall v, v ∈ a :: rest -> nth i v false = nth i a false.
Proof.
  unfold same_digit. rewrite forallb_forall. split.
  - intros H v Hv. apply elem_of_cons in Hv as [->|Hv]; [reflexivity|].
    apply eqb_prop, H. now apply list_elem_of_In.
  - intros H v Hv. apply eqb_true_iff, H. apply list_elem_of_further.
    now apply list_elem_of_In.
Qed.

(** The loop stops at the first position where the digits differ, or at
    the bound. *)
Lemma prefix_loop_spec (bound i : nat) (args : list (list bool)) :
  let r := prefix_loop bound i args in
  (i <= r <= i + bound)%nat
  /\ (forall j, (i <= j < r)%nat -> same_digit j args = true)
  /\ ((r < i + bound)%nat -> same_digit r args = false).
Proof.
  revert i. induction bound as [|bound IH]; intros i; simpl.
  { split; [lia|]. split; intros; lia. }
  destruct (same_digit i args) eqn:E.
  - destruct (IH (S i)) as (H1 & H2 & H3). split; [lia|]. split.
    + intros j Hj. destruct (Nat.eq_dec j i) as [->|Hne]; [exact E|]. apply H2. lia.
    + intros Hr. apply H3. lia.
  - split; [lia|]. split; [intros; lia|]. intros _. exact E.
Qed.

Lemma min_lengths_le (a v : list bool) (args : list (list bool)) :
  v ∈ args ->
  (fold_right Nat.min (length a) (List.map (@length bool) args) <= length v)%nat.
Proof.
  induction args as [|x args IH]; intros Hv; [inversion Hv|].
  simpl. apply elem_of_cons in Hv as [->|Hv]; [lia|]. specialize (IH Hv). lia.
Qed.

Lemma min_lengths_ge (n : nat) (a : list bool) (args : list (list bool)) :
  (n <= length a)%nat -> (forall v, v ∈ args -> (n <= length v)%nat) ->
  (n <= fold_right Nat.min (length a) (List.map (@length bool) args))%nat.
Proof.
  intros Ha. induction args as [|x args IH]; intros H; simpl; [exact Ha|].
  apply Nat.min_glb; [apply H, list_elem_of_here|].
  apply IH. intros v Hv. now apply H, list_elem_of_further.
Qed.

Lemma take_eq_nth (r : nat) (v a : list bool) :
  (r <= length v)%nat -> (r <= length a)%nat ->
  (forall j, (j < r)%nat -> nth j v false = nth j a false) ->
  take r v = take r a.
Proof.
  revert v a. induction r as [|r IH]; intros v a Hv Ha H; [reflexivity|].
  destruct v as [|x v]; [simpl in Hv; lia|]. destruct a as [|y a]; [simpl in Ha; lia|].
  simpl in *. f_equal.
  - apply (H 0%nat). lia.
  - apply IH; [lia|lia|]. intros j Hj. apply (H (S j)). lia.
Qed.

Lemma prefix_nth (q v : list bool) (j : nat) :
  q `prefix_of` v -> (j < length q)%nat -> nth j v false = nth j q false.
Proof. intros [k ->] Hj. now rewrite app_nth1. Qed.

Lemma same_digit_false (i : nat) (a : list bool) (rest : list (list bool)) :
  same_digit i (a :: rest) = false ->
  exists v, v ∈ rest /\ nth i v false <> nth i a false.
Proof.
  unfold same_digit. induction rest as [|x rest IH]; simpl; [discriminate|].
  intros H. apply andb_false_iff in H as [H|H].
  - exists x. split; [apply list_elem_of_here|]. now apply eqb_false_iff.
  - destruct (IH H) as (v & Hv & Hne). exists v. split; [now apply list_elem_of_further|exact Hne].
Qed.

(** What [sharedPrefix] returns on an array that is not empty: the first
    [r] digits of its first string, [r] being at most the length of every
    string, the digits before [r] being shared, and the digit at [r], when
    every string has one, not being shared. *)
Lemma sharedPrefix_loop (a : list bool) (rest : list (list bool)) :
  exists r,
    sharedPrefix (a :: rest) = Ok (take r a)
    /\ (forall v, v ∈ a :: rest -> (r <= length v)%nat)
    /\ (forall j, (j < r)%nat -> same_digit j (a :: rest) = true)
    /\ ((forall v, v ∈ a :: rest -> (r < length v)%nat) -> same_digit r (a :: rest) = false).
Proof.
  unfold sharedPrefix.
  set (min := fold_right Nat.min (length a) (List.map (@length bool) (a :: rest))).
  destruct (prefix_loop_spec min 0 (a :: rest)) as (Hr & Hsame & Hstop).
  exists (prefix_loop min 0 (a :: rest)). split; [reflexivity|]. split; [|split].
  - intros v Hv. pose proof (min_lengths_le a v (a :: rest) Hv) as H. fold min in H. lia.
  - intros j Hj. apply Hsame. lia.
  - intros Hlt. apply Hstop.
    assert (Hmin : (S (prefix_loop min 0 (a :: rest)) <= min)%nat).
    { apply min_lengths_ge.
      - apply Hlt, list_elem_of_here.
      - intros v Hv. now apply Hlt. }
    lia.
Qed.

(** X5. [sharedPrefix] throws on an empty array; otherwise it returns the
    longest string that every argument starts with. *)
Theorem sharedPrefix_longest (a : list bool) (rest : list (list bool)) :
  sharedPrefix [] = TypeError
  /\ exists p, sharedPrefix (a :: rest) = Ok p
       /\ (forall v, v ∈ a :: rest -> p `prefix_of` v)
       /\ (forall q, (forall v, v ∈ a :: rest -> q `prefix_of` v) -> q `prefix_of` p).
Proof.
  split; [reflexivity|].
  destruct (sharedPrefix_loop a rest) as (r & Heq & Hlen & Hsame & Hstop).
  assert (Htake : forall v, v ∈ a :: rest -> take r v = take r a).
  { intros v Hv. apply take_eq_nth; [now apply Hlen|apply Hlen, list_elem_of_here|].
    intros j Hj. apply (proj1 (same_digit_spec j a rest)); [|exact Hv]. now apply Hsame. }
  exists (take r a). split; [exact Heq|]. split.
  - intros v Hv. exists (drop r v). rewrite <- (Htake v Hv). now rewrite take_drop.
  - intros q Hq.
    assert (Hqa : q `prefix_of` a) by apply Hq, list_elem_of_here.
    assert (Hqr : (length q <= r)%nat).
    { destruct (Nat.le_gt_cases (length q) r) as [H|H]; [exact H|]. exfalso.
      assert (Hd : same_digit r (a :: rest) = false).
      { apply Hstop. intros v Hv. pose proof (prefix_length _ _ (Hq v Hv)). lia. }
      assert (Ht : same_digit r (a :: rest) = true).
      { apply same_digit_spec. intros v Hv.
        rewrite (prefix_nth q v r) by (auto; apply Hq, Hv).
        now rewrite (prefix_nth q a r). }
      congruence. }
    destruct Hqa as [k ->]. exists (take (r - length q) k).
    rewrite take_app_ge by exact Hqr. reflexivity.
Qed.

End BitsFacts.

Module KBucketFacts.
Import KBucket.

Lemma nth_bits (id0 : Z) (i : nat) :
  (i < 160)%nat ->
  nth i (Bits.bytesToBitString id0) false = Z.testbit id0 (159 - Z.of_nat i).
Proof.
  intros Hi. unfold Bits.bytesToBitString.
  rewrite (nth_indep _ false (Z.testbit id0 (159 - Z.of_nat 0))) by
    (now rewrite List.length_map, List.length_seq).
  rewrite (map_nth (fun i => Z.testbit id0 (159 - Z.of_nat i)) (seq 0 160) 0%nat i).
  now rewrite seq_nth.
Qed.

Lemma length_bits (id0 : Z) : length (Bits.bytesToBitString id0) = 160%nat.
Proof. unfold Bits.bytesToBitString. now rewrite List.length_map, List.length_seq. Qed.

(** X6. [depth()] throws on an empty bucket.  Otherwise it is the number of
    leading binary digits, out of 160, that the ids of the bucket share: the
    ids agree on every digit before it, and two of them differ at it unless
    it is 160. *)
Theorem depth_counts_shared_bits (b : t) :
  match nodes b with
  | [] => depth b = TypeError
  | _ :: _ =>
      exists d, depth b = Ok d /\ (d <= 160)%nat
        /\ (forall n m (i : nat), n ∈ nodes b -> m ∈ nodes b -> (i < d)%nat ->
              Z.testbit (Node.id n) (159 - Z.of_nat i)
              = Z.testbit (Node.id m) (159 - Z.of_nat i))
        /\ ((d < 160)%nat ->
              exists n m, n ∈ nodes b /\ m ∈ nodes b
                /\ Z.testbit (Node.id n) (159 - Z.of_nat d)
                   <> Z.testbit (Node.id m) (159 - Z.of_nat d))
  end.
Proof.
  unfold depth. destruct (nodes b) as [|x l] eqn:E; [reflexivity|].
  cbn [List.map].
  set (a := Bits.bytesToBitString (Node.id x)).
  set (rest := List.map Bits.bytesToBitString (List.map Node.id l)).
  destruct (BitsFacts.sharedPrefix_loop a rest) as (r & Heq & Hlen & Hsame & Hstop).
  assert (Hr : (r <= 160)%nat).
  { specialize (Hlen a (list_elem_of_here _ _)). subst a. now rewrite length_bits in Hlen. }
  assert (Hbits : forall n, n ∈ x :: l -> Bits.bytesToBitString (Node.id n) ∈ a :: rest).
  { intros n Hn. apply elem_of_cons in Hn as [->|Hn]; [apply list_elem_of_here|].
    apply list_elem_of_further. subst rest. rewrite List.map_map.
    rewrite list_elem_of_In. apply (in_map (fun y => Bits.bytesToBitString (Node.id y))).
    now apply list_elem_of_In. }
  exists r. rewrite Heq. simpl. split.
  { f_equal. rewrite length_take. subst a. rewrite length_bits. lia. }
  split; [exact Hr|]. split.
  - intros n m i Hn Hm Hi.
    pose proof (proj1 (BitsFacts.same_digit_spec i a rest) (Hsame i Hi)) as Hd.
    pose proof (Hd _ (Hbits n Hn)) as H1. pose proof (Hd _ (Hbits m Hm)) as H2.
    rewrite !nth_bits in H1, H2 by lia. subst a. rewrite nth_bits in H1, H2 by lia.
    congruence.
  - intros Hd.
    assert (Hf : Bits.same_digit r (a :: rest) = false).
    { apply Hstop. intros v Hv. apply elem_of_cons in Hv as [->|Hv].
      - subst a. rewrite length_bits. lia.
      - subst rest. apply list_elem_of_In, in_map_iff in Hv as (y & <- & _).
        rewrite length_bits. lia. }
    apply BitsFacts.same_digit_false in Hf as (v & Hv & Hne).
    subst rest. rewrite List.map_map in Hv.
    apply list_elem_of_In, in_map_iff in Hv as (m & <- & Hm).
    exists m, x. split; [apply list_elem_of_further; now apply list_elem_of_In|].
    split; [apply list_elem_of_here|].
    subst a. now rewrite !nth_bits in Hne by lia.
Qed.

Lemma nodes_delete_ids (id0 : Z) (m : list Node.t) :
  List.map Node.id (nodes_delete id0 m)
  = List.filter (fun i => negb (i =? id0)) (List.map Node.id m).
Proof.
  unfold nodes_delete. induction m as [|x m IH]; simpl; [reflexivity|].
  destruct (Node.id x =? id0); simpl; now rewrite IH.
Qed.

Lemma nodes_has_delete (id0 : Z) (m : list Node.t) :
  nodes_has id0 (nodes_delete id0 m) = false.
Proof.
  unfold nodes_has, nodes_delete. induction m as [|x m IH]; simpl; [reflexivity|].
  destruct (Node.id x =? id0) eqn:E; simpl; [exact IH|]. now rewrite E.
Qed.

Lemma nodes_delete_fresh (id0 : Z) (m : list Node.t) :
  nodes_has id0 m = false -> nodes_delete id0 m = m.
Proof.
  unfold nodes_has, nodes_delete. induction m as [|x m IH]; simpl; [reflexivity|].
  intros H. apply orb_false_iff in H as [H1 H2]. rewrite H1. simpl. now rewrite IH.
Qed.

Lemma nodes_delete_NoDup (id0 : Z) (m : list Node.t) :
  NoDup (List.map Node.id m) -> NoDup (List.map Node.id (nodes_delete id0 m)).
Proof. apply NodeHeapFacts.NoDup_map_filter. Qed.

Lemma nodes_delete_length (id0 : Z) (m : list Node.t) :
  nodes_has id0 m = true -> (S (length (nodes_delete id0 m)) <= length m)%nat.
Proof.
  unfold nodes_has, nodes_delete. induction m as [|x m IH]; simpl; [discriminate|].
  destruct (Node.id x =? id0) eqn:E; simpl.
  - intros _. pose proof (List.filter_length_le (fun n => negb (Node.id n =? id0)) m). lia.
  - intros H. specialize (IH H). lia.
Qed.

(** [nodes.set(id, node)] with the id of the node: the ids of the map stay
    as they are when the id is known, and the id comes last otherwise. *)
Lemma nodes_set_ids (n : Node.t) (m : list Node.t) :
  List.map Node.id (nodes_set (Node.id n) n m)
  = if nodes_has (Node.id n) m then List.map Node.id m
    else List.map Node.id m ++ [Node.id n].
Proof.
  unfold nodes_has. induction m as [|x m IH]; simpl; [reflexivity|].
  destruct (Z.eqb_spec (Node.id x) (Node.id n)) as [Heq|Hne]; simpl.
  - now rewrite Heq.
  - rewrite IH. now destruct (existsb _ m).
Qed.

Lemma nodes_set_NoDup (n : Node.t) (m : list Node.t) :
  NoDup (List.map Node.id m) -> NoDup (List.map Node.id (nodes_set (Node.id n) n m)).
Proof.
  intros Hnd. rewrite nodes_set_ids. destruct (nodes_has (Node.id n) m) eqn:E; [exact Hnd|].
  apply NoDup_app. split; [exact Hnd|]. split; [|apply NoDup_singleton].
  intros i Hi Hi'. apply list_elem_of_singleton in Hi'. subst i.
  apply RoutingFacts.nodes_has_spec in Hi. congruence.
Qed.

Lemma nodes_set_length (n : Node.t) (m : list Node.t) :
  length (nodes_set (Node.id n) n m)
  = if nodes_has (Node.id n) m then length m else S (length m).
Proof.
  rewrite <- (List.length_map Node.id), nodes_set_ids.
  destruct (nodes_has (Node.id n) m); rewrite ?List.length_app, List.length_map; simpl; lia.
Qed.

Lemma nodes_set_in (n : Node.t) (m : list Node.t) : n ∈ nodes_set (Node.id n) n m.
Proof.
  induction m as [|x m IH]; simpl; [apply list_elem_of_here|].
  destruct (Node.id x =? Node.id n); [apply list_elem_of_here|now apply list_elem_of_further].
Qed.

(** X7. [addNode(node)] on a bucket of distinct ids that holds at most [ksize]
    nodes.  The ids stay distinct and at most [ksize]; the range,
    [lastUpdated] and [ksize] are not touched.  When the id is known or the
    bucket has room the call returns true and the node is the newest of the
    bucket, the others keeping their order; otherwise it returns false, the
    nodes stay as they are and the node becomes the newest replacement. *)
Theorem addNode_outcome (b : t) (node : Node.t) :
  NoDup (List.map Node.id (nodes b)) -> (len b <= ksize b)%nat ->
  let added := fst (addNode b node) in
  let b' := snd (addNode b node) in
  NoDup (List.map Node.id (nodes b')) /\ (len b' <= ksize b')%nat
  /\ range b' = range b /\ ksize b' = ksize b /\ lastUpdated b' = lastUpdated b
  /\ (added = true ->
        (Node.id node ∈ List.map Node.id (nodes b) \/ (len b < ksize b)%nat)
        /\ nodes b' = List.filter (fun n => negb (Node.id n =? Node.id node)) (nodes b) ++ [node]
        /\ replacementNodes b' = replacementNodes b)
  /\ (added = false ->
        (Node.id node ∉ List.map Node.id (nodes b)) /\ len b = ksize b
        /\ nodes b' = nodes b
        /\ OrderedSet.pop (replacementNodes b')
           = (Some node, OrderedSet.delete node (replacementNodes b))).
Proof.
  intros Hnd Hlen added b'. subst added b'. unfold addNode, len in *.
  destruct (nodes_has (Node.id node) (nodes b)) eqn:Hhas.
  - cbn [fst snd with_nodes nodes range ksize lastUpdated replacementNodes].
    rewrite (RoutingFacts.nodes_set_fresh node _ (nodes_has_delete _ _)).
    split; [|split; [|split; [|split; [|split; [|split]]]]]; try reflexivity; try discriminate.
    + rewrite <- (RoutingFacts.nodes_set_fresh node _ (nodes_has_delete _ _)).
      now apply nodes_set_NoDup, nodes_delete_NoDup.
    + rewrite List.length_app. simpl.
      pose proof (nodes_delete_length _ _ Hhas). lia.
    + intros _. split; [left; now apply RoutingFacts.nodes_has_spec|]. now split.
  - destruct (Nat.ltb_spec (length (nodes b)) (ksize b)) as [Hlt|Hge].
    + cbn [fst snd with_nodes nodes range ksize lastUpdated replacementNodes].
      rewrite (RoutingFacts.nodes_set_fresh node _ Hhas).
      split; [|split; [|split; [|split; [|split; [|split]]]]]; try reflexivity; try discriminate.
      * rewrite <- (RoutingFacts.nodes_set_fresh node _ Hhas). now apply nodes_set_NoDup.
      * rewrite List.length_app. simpl. lia.
      * intros _. split; [now right|]. split; [|reflexivity].
        f_equal. symmetry. now apply nodes_delete_fresh.
    + cbn [fst snd nodes range ksize lastUpdated replacementNodes].
      split; [exact Hnd|]. split; [exact Hlen|].
      split; [reflexivity|]. split; [reflexivity|]. split; [reflexivity|].
      split; [discriminate|]. intros _. split.
      { intros Hin. apply RoutingFacts.nodes_has_spec in Hin. congruence. }
      split; [lia|]. split; [reflexivity|].
      rewrite OrderedSetFacts.oset_push_snoc. apply OrderedSetFacts.oset_pop_snoc.
Qed.

Lemma addNode_outcome_witness :
  let a := Node.mk 5 (Some "10.0.0.1"%string) (Some 13001) in
  let c := Node.mk 7 (Some "10.0.0.2"%string) (Some 13002) in
  let a' := Node.mk 5 (Some "10.0.0.3"%string) (Some 13003) in
  let b := mk (BN.of_Z 0, BN.of_Z (2 ^ 160)) [a; c] [] 0 2 in
  nodes (snd (addNode b a')) = [c; a'].
Proof.
  intros a c a' b.
  destruct (addNode_outcome b a') as (_ & _ & _ & _ & _ & H & _).
  - simpl. apply NoDup_cons. split; [|apply NoDup_singleton].
    intros H. apply list_elem_of_singleton in H. discriminate.
  - unfold len. simpl. lia.
  - destruct H as (_ & H & _); [reflexivity|]. exact H.
Defined.

(** X8. [removeNode(node)] on a bucket of distinct ids.  An id the bucket does
    not hold leaves the bucket as it is.  Otherwise the node of that id
    goes; with no replacement waiting the others stay in their order, and
    with replacements waiting the newest of them leaves the replacement set
    and enters the bucket.  The ids stay distinct and the bucket does not
    grow. *)
Theorem removeNode_outcome (b : t) (node : Node.t) :
  NoDup (List.map Node.id (nodes b)) ->
  let b' := removeNode b node in
  NoDup (List.map Node.id (nodes b')) /\ (len b' <= len b)%nat
  /\ range b' = range b /\ ksize b' = ksize b /\ lastUpdated b' = lastUpdated b
  /\ (Node.id node ∉ List.map Node.id (nodes b) -> b' = b)
  /\ (Node.id node ∈ List.map Node.id (nodes b) ->
        match replacementNodes b with
        | [] =>
            nodes b' = List.filter (fun n => negb (Node.id n =? Node.id node)) (nodes b)
            /\ replacementNodes b' = []
        | _ :: _ =>
            exists newnode rest,
              replacementNodes b = rest ++ [newnode]
              /\ replacementNodes b' = rest
              /\ newnode ∈ nodes b'
              /\ (Node.id newnode ∉ List.map Node.id (nodes b) ->
                    nodes b'
                    = List.filter (fun n => negb (Node.id n =? Node.id node)) (nodes b)
                      ++ [newnode])
        end).
Proof.
  intros Hnd b'. subst b'. unfold removeNode, len in *.
  destruct (nodes_has (Node.id node) (nodes b)) eqn:Hhas; cbn [negb].
  2:{ split; [exact Hnd|]. split; [lia|]. do 3 (split; [reflexivity|]).
      split; [reflexivity|]. intros Hin. apply RoutingFacts.nodes_has_spec in Hin. congruence. }
  pose proof (nodes_delete_length _ _ Hhas) as Hdl.
  pose proof (nodes_delete_NoDup (Node.id node) _ Hnd) as Hdn.
  destruct (replacementNodes b) as [|r0 rs] eqn:Hrep.
  - cbn [OrderedSet.pop with_nodes nodes range ksize lastUpdated replacementNodes].
    split; [exact Hdn|]. split; [lia|]. do 3 (split; [reflexivity|]).
    split; [intros Hn; apply RoutingFacts.nodes_has_spec in Hhas; contradiction|].
    intros _. now split.
  - destruct (exists_last (l := r0 :: rs)) as (rest & newnode & Hlast); [discriminate|].
    assert (Hpop : OrderedSet.pop (r0 :: rs) = (Some newnode, rest))
      by (rewrite Hlast; apply OrderedSetFacts.oset_pop_snoc).
    rewrite Hpop. cbn [nodes range ksize lastUpdated replacementNodes].
    split; [now apply nodes_set_NoDup|]. split.
    { rewrite nodes_set_length. destruct (nodes_has (Node.id newnode) _); lia. }
    do 3 (split; [reflexivity|]).
    split; [intros Hn; apply RoutingFacts.nodes_has_spec in Hhas; contradiction|].
    intros _. exists newnode, rest. split; [exact Hlast|]. split; [reflexivity|].
    split; [apply nodes_set_in|]. intros Hfresh.
    apply (RoutingFacts.nodes_set_fresh newnode (nodes_delete (Node.id node) (nodes b))).
    apply not_true_is_false. rewrite RoutingFacts.nodes_has_spec, nodes_delete_ids.
    intros Hin. apply Hfresh. apply list_elem_of_In, filter_In in Hin as [Hin _].
    now apply list_elem_of_In.
Qed.

Lemma removeNode_outcome_witness :
  let a := Node.mk 5 (Some "10.0.0.1"%string) (Some 13001) in
  let c := Node.mk 7 (Some "10.0.0.2"%string) (Some 13002) in
  let r := Node.mk 9 (Some "10.0.0.3"%string) (Some 13003) in
  let b := mk (BN.of_Z 0, BN.of_Z (2 ^ 160)) [a; c] [r] 0 2 in
  NoDup (List.map Node.id (nodes (removeNode b a))) /\ (len (removeNode b a) <= len b)%nat.
Proof.
  intros a c r b.
  destruct (removeNode_outcome b a) as (H1 & H2 & _).
  - simpl. apply NoDup_cons. split; [|apply NoDup_singleton].
    intros H. apply list_elem_of_singleton in H. discriminate.
  - split; [exact H1|exact H2].
Defined.

(** X9. [split()] on a bucket of distinct ids: the two halves take the ranges
    [min, midpoint] and [midpoint + 1, max]; the nodes whose id is strictly
    below the midpoint go to the first, the others to the second, in their
    order, so that every node is in exactly one half; both halves are new
    buckets, stamped [now], and the replacement nodes of the bucket are in
    neither. *)
Theorem split_keeps_nodes_drops_replacements (now : Z) (b : t) :
  NoDup (List.map Node.id (nodes b)) ->
  let midpoint := BN.div (BN.plus (fst (range b)) (snd (range b))) (BN.of_Z 2) in
  let below := fun n => BN.gt midpoint (BN.of_Z (Node.id n)) in
  let one := fst (split now b) in
  let two := snd (split now b) in
  one = mk (fst (range b), midpoint) (List.filter below (nodes b)) [] now (ksize b)
  /\ two = mk (BN.plus midpoint (BN.of_Z 1), snd (range b))
              (List.filter (fun n => negb (below n)) (nodes b)) [] now (ksize b)
  /\ nodes one ++ nodes two ≡ₚ nodes b
  /\ NoDup (List.map Node.id (nodes one)) /\ NoDup (List.map Node.id (nodes two)).
Proof.
  intros Hnd midpoint below one two.
  assert (H1 : one = mk (fst (range b), midpoint) (List.filter below (nodes b)) [] now (ksize b)
               /\ two = mk (BN.plus midpoint (BN.of_Z 1), snd (range b))
                           (List.filter (fun n => negb (below n)) (nodes b)) [] now (ksize b)).
  { subst one two. unfold split. destruct (range b) as [lo hi] eqn:Hr. cbn [fst snd] in *.
    fold midpoint. rewrite RoutingFacts.split_loop; [|exact Hnd|].
    - cbn. now split.
    - intros n _. cbn. split; intros H; inversion H. }
  destruct H1 as [H1 H2]. split; [exact H1|]. split; [exact H2|].
  rewrite H1, H2. cbn [nodes]. split; [|split].
  - generalize (nodes b). intros l.
    induction l as [|n l IH]; simpl; [reflexivity|].
    destruct (below n); simpl.
    + apply perm_skip, IH.
    + rewrite <- Permutation_middle. apply perm_skip, IH.
  - now apply NodeHeapFacts.NoDup_map_filter.
  - now apply NodeHeapFacts.NoDup_map_filter.
Qed.

Lemma split_keeps_nodes_drops_replacements_witness :
  let a := Node.mk 5 (Some "10.0.0.1"%string) (Some 13001) in
  let c := Node.mk (2 ^ 159 + 7) (Some "10.0.0.2"%string) (Some 13002) in
  let r := Node.mk 9 (Some "10.0.0.3"%string) (Some 13003) in
  let b := mk (BN.of_Z 0, BN.of_Z (2 ^ 160)) [a; c] [r] 0 2 in
  nodes (fst (split 1000 b)) ++ nodes (snd (split 1000 b)) ≡ₚ nodes b.
Proof.
  intros a c r b.
  destruct (split_keeps_nodes_drops_replacements 1000 b) as (_ & _ & H & _).
  - simpl. apply NoDup_cons. split; [|apply NoDup_singleton].
    intros H. apply list_elem_of_singleton in H. discriminate.
  - exact H.
Defined.

End KBucketFacts.

Module TraverserFacts.
Import TableTraverser.

Lemma order_right_only {A : Type} (bound : nat) (r : list A) :
  order bound [] r true = take bound r.
Proof.
  revert r. induction bound as [|bound IH]; intros r; [reflexivity|].
  destruct r as [|x r]; simpl; [reflexivity|]. now rewrite IH.
Qed.

Lemma order_left_only {A : Type} (bound : nat) (l : list A) :
  order (S bound) l [] true = take 1 l.
Proof. destruct l as [|x l]; simpl; [reflexivity|]. now destruct bound. Qed.

Lemma order_subset {A : Type} (bound : nat) (l r : list A) (left : bool) (x : A) :
  x ∈ order bound l r left -> x ∈ l \/ x ∈ r.
Proof.
  revert l r left. induction bound as [|bound IH]; intros l r left H; [inversion H|].
  simpl in H. destruct left, l as [|y l], r as [|z r]; try (now inversion H);
    apply elem_of_cons in H as [->|H];
    try (left; apply list_elem_of_here); try (right; apply list_elem_of_here);
    apply IH in H as [H|H]; auto using list_elem_of_further.
Qed.

Lemma elem_of_rev {A : Type} (x : A) (l : list A) : x ∈ rev l <-> x ∈ l.
Proof. rewrite !list_elem_of_In. symmetry. apply in_rev. Qed.

(** Every node the traverser yields is a node of a bucket of the table. *)
Lemma yields_stored (bs : list KBucket.t) (index : nat) (n : Node.t) :
  n ∈ yields bs index -> exists b, b ∈ bs /\ n ∈ KBucket.nodes b.
Proof.
  unfold yields, KBucket.getNodes. rewrite elem_of_app. intros [H|H].
  - destruct (bs !! index) as [b|] eqn:E; [|inversion H].
    exists b. split; [now apply list_elem_of_lookup_2 in E|].
    now rewrite elem_of_rev in H.
  - apply list_elem_of_In, in_concat in H as (l & Hl & Hn).
    apply in_map_iff in Hl as (b & <- & Hb).
    apply list_elem_of_In, order_subset in Hb.
    exists b. split.
    + destruct Hb as [Hb|Hb]; rewrite elem_of_rev in Hb.
      * now apply (subseteq_take index bs).
      * now apply (subseteq_drop (S index) bs).
    + rewrite <- elem_of_rev. now apply list_elem_of_In.
Qed.

(** X10. From the first bucket of a table the traverser goes through every
    bucket: the nodes of the first, newest first, then those of the last
    bucket, of the one before it, and so on.  From the last bucket of a
    table it yields the nodes of that bucket and of the one before it, and
    stops: the buckets further left are not visited. *)
Theorem traverser_visits (b0 b1 b2 : KBucket.t) (pre post : list KBucket.t) :
  yields (b0 :: post) 0
  = rev (KBucket.nodes b0) ++ concat (List.map (fun b => rev (KBucket.nodes b)) (rev post))
  /\ yields (pre ++ [b1; b2]) (S (length pre))
     = rev (KBucket.nodes b2) ++ rev (KBucket.nodes b1).
Proof.
  split.
  - unfold yields, KBucket.getNodes. cbn [lookup list_lookup take drop length Nat.add rev].
    rewrite order_right_only, drop_0, <- (length_rev post), firstn_all. reflexivity.
  - unfold yields, KBucket.getNodes.
    assert (Hl : (pre ++ [b1; b2]) !! S (length pre) = Some b2).
    { rewrite lookup_app_r by lia. now replace (S (length pre) - length pre)%nat with 1%nat by lia. }
    assert (Ht : take (S (length pre)) (pre ++ [b1; b2]) = pre ++ [b1]).
    { rewrite take_app_ge by lia. now replace (S (length pre) - length pre)%nat with 1%nat by lia. }
    assert (Hd : drop (S (S (length pre))) (pre ++ [b1; b2]) = []).
    { apply drop_ge. rewrite List.length_app. simpl. lia. }
    rewrite Hl, Ht, Hd. rewrite List.length_app. cbn [length rev].
    replace (length pre + 1 + 0)%nat with (S (length pre)) by lia.
    rewrite order_left_only, rev_app_distr. cbn [rev app take List.map concat].
    now rewrite app_nil_r.
Qed.

End TraverserFacts.

Module RoutingMore.
Import RoutingTable.

Lemma gte_of_Z (a b : Z) : BN.gte (BN.of_Z a) (BN.of_Z b) = (b <=? a).
Proof. unfold BN.gte, BN.of_Z, Qle_bool, inject_Z. simpl. now rewrite !Z.mul_1_r. Qed.

Lemma first_reaching_inv (id0 : Z) (bs : list KBucket.t) (i j : nat) :
  first_reaching id0 bs i = Some j ->
  exists b, (i <= j)%nat /\ bs !! (j - i)%nat = Some b
            /\ BN.gte (snd (KBucket.range b)) (BN.of_Z id0) = true.
Proof.
  revert i. induction bs as [|b0 bs IH]; intros i H; [discriminate|].
  simpl in H. destruct (BN.gte (snd (KBucket.range b0)) (BN.of_Z id0)) eqn:E.
  - injection H as <-. exists b0. rewrite Nat.sub_diag. now split.
  - destruct (IH _ H) as (b & Hij & Hb & Hg). exists b. split; [lia|]. split; [|exact Hg].
    replace (j - i)%nat with (S (j - S i)) by lia. exact Hb.
Qed.

Lemma bucketFor_inv (rt : t) (n : Node.t) (index : nat) (b : KBucket.t) :
  bucketFor rt n = Ok (index, b) ->
  getBucketFor rt n = Some index /\ buckets rt !! index = Some b
  /\ reaches rt (Node.id n).
Proof.
  unfold bucketFor. destruct (getBucketFor rt n) as [i|] eqn:Hi; [|discriminate].
  simpl. destruct (buckets rt !! i) as [b'|] eqn:Hb; [|discriminate].
  simpl. intros H. injection H as <- <-. split; [reflexivity|]. split; [exact Hb|].
  apply first_reaching_inv in Hi as (b0 & _ & Hb0 & Hg).
  exists b0. split; [now apply list_elem_of_lookup_2 in Hb0|exact Hg].
Qed.

(** What the loop of [findNeighbors] keeps: neighbours that do not carry
    the id looked for and do not live where [exclude] lives. *)
Lemma collect_kept (k : nat) (target : Node.t) (exclude : option Node.t)
    (neighbors : list Node.t) (acc : list (Z * Node.t)) (e : Z * Node.t) :
  e ∈ collect k target exclude neighbors acc ->
  e ∈ acc
  \/ (snd e ∈ neighbors /\ Node.id (snd e) <> Node.id target
      /\ forall x, exclude = Some x -> Node.sameHomeAs (snd e) x = false).
Proof.
  revert acc. induction neighbors as [|n neighbors IH]; intros acc He; simpl in He;
    [now left|].
  match type of He with
  | context [Nat.eqb (Utils.len ?a) k] => set (acc1 := a) in He
  end.
  assert (Hacc1 : e ∈ acc1 ->
                  e ∈ acc
                  \/ (snd e ∈ n :: neighbors /\ Node.id (snd e) <> Node.id target
                      /\ forall x, exclude = Some x -> Node.sameHomeAs (snd e) x = false)).
  { subst acc1. destruct (negb (Node.id n =? Node.id target)) eqn:Hid; cbn [andb]; [|now left].
    destruct exclude as [x|].
    - destruct (negb (Node.sameHomeAs n x)) eqn:Hx; [|now left].
      unfold Heapq.push. rewrite elem_of_app, list_elem_of_singleton.
      intros [H| ->]; [now left|]. right. simpl. split; [apply list_elem_of_here|].
      split; [apply negb_true_iff in Hid; lia|].
      intros x' Hx'. injection Hx' as <-. now apply negb_true_iff.
    - unfold Heapq.push. rewrite elem_of_app, list_elem_of_singleton.
      intros [H| ->]; [now left|]. right. simpl. split; [apply list_elem_of_here|].
      split; [apply negb_true_iff in Hid; lia|discriminate]. }
  destruct (Utils.len acc1 =? k)%nat; [now apply Hacc1|].
  destruct (IH acc1 He) as [H|(H1 & H2 & H3)]; [now apply Hacc1|].
  right. split; [now apply list_elem_of_further|]. now split.
Qed.

Lemma findNeighbors_reaches (now : Z) (rt rt1 : t) (target : Node.t) (k : option nat)
    (exclude : option Node.t) (l : list Node.t) :
  findNeighbors now rt target k exclude = Ok (l, rt1) -> reaches rt (Node.id target).
Proof.
  intros Hf. unfold findNeighbors in Hf.
  destruct (bucketFor rt target) as [[i b]| |] eqn:Hb; try discriminate.
  now apply bucketFor_inv in Hb as (_ & _ & Hreach).
Qed.

(** The neighbours returned are nodes of the table that passed the two
    tests of the loop. *)
Lemma findNeighbors_kept (now : Z) (rt rt1 : t) (target : Node.t) (k : option nat)
    (exclude : option Node.t) (l : list Node.t) (n : Node.t) :
  findNeighbors now rt target k exclude = Ok (l, rt1) -> n ∈ l ->
  Node.id n <> Node.id target
  /\ (forall x, exclude = Some x -> Node.sameHomeAs n x = false)
  /\ exists b, b ∈ buckets rt /\ n ∈ KBucket.nodes b.
Proof.
  intros Hf Hn. pose proof (findNeighbors_reaches _ _ _ _ _ _ _ Hf) as Hreach.
  destruct (RoutingFacts.findNeighbors_defined now rt target k exclude Hreach)
    as (index & b & _ & Hlook & Hd).
  rewrite Hd in Hf. cbv zeta in Hf. injection Hf as <- <-.
  set (k1 := match k with Some (S k') => S k' | _ => ksize rt end) in *.
  set (found := collect k1 target exclude (TableTraverser.yields (buckets rt) index) []) in *.
  destruct (NodeHeapFacts.nsmallest_split found k1) as (rest & Hperm & _ & _).
  apply list_elem_of_In, in_map_iff in Hn as (e & <- & He).
  apply list_elem_of_In in He.
  assert (He' : e ∈ found).
  { rewrite <- Hperm. apply elem_of_app. now left. }
  apply collect_kept in He' as [He'|(H1 & H2 & H3)]; [inversion He'|].
  split; [exact H2|]. split; [exact H3|]. now apply TraverserFacts.yields_stored in H1.
Qed.

(** X11. [findNeighbors(node, k, exclude)], when it returns: at most [k] nodes
    ([ksize] when [k] is missing or 0), nearest to [node] first; none carries
    the id of [node], none lives at the address of [exclude], and each is a
    node of a bucket of the table.  The call changes no range and no node of
    the table. *)
Theorem findNeighbors_result (now : Z) (rt rt1 : t) (target : Node.t) (k : option nat)
    (exclude : option Node.t) (l : list Node.t) :
  findNeighbors now rt target k exclude = Ok (l, rt1) ->
  (length l <= match k with Some (S k') => S k' | _ => ksize rt end)%nat
  /\ StronglySorted (fun a b => Node.distanceTo target a <= Node.distanceTo target b) l
  /\ (forall n, n ∈ l ->
        Node.id n <> Node.id target
        /\ (forall x, exclude = Some x -> Node.sameHomeAs n x = false)
        /\ exists b, b ∈ buckets rt /\ n ∈ KBucket.nodes b)
  /\ contacts rt1 = contacts rt /\ ksize rt1 = ksize rt /\ node rt1 = node rt.
Proof.
  intros Hf. pose proof (findNeighbors_reaches _ _ _ _ _ _ _ Hf) as Hreach.
  pose proof (RoutingFacts.findNeighbors_sorted now rt rt1 target k exclude l Hreach Hf) as Hs.
  pose proof (fun n => findNeighbors_kept now rt rt1 target k exclude l n Hf) as Hkept.
  destruct (RoutingFacts.findNeighbors_defined now rt target k exclude Hreach)
    as (index & b & _ & Hlook & Hd).
  rewrite Hd in Hf. cbv zeta in Hf. injection Hf as <- <-.
  match goal with |- context [Heapq.nsmallest ?found ?k1 _] =>
    destruct (NodeHeapFacts.nsmallest_split found k1) as (rest & _ & _ & Hlen)
  end.
  split; [rewrite List.length_map, Hlen; lia|]. split; [exact Hs|].
  split; [exact Hkept|].
  split; [now apply RoutingFacts.contacts_touch|]. now split.
Qed.

Lemma findNeighbors_result_witness :
  let a := Node.mk 5 (Some "10.0.0.1"%string) (Some 13001) in
  let c := Node.mk 7 (Some "10.0.0.2"%string) (Some 13002) in
  let rt := mk (Node.mk 12345 None None) 8
               [KBucket.mk (BN.of_Z 0, BN.of_Z (2 ^ 160)) [a; c] [] 0 8] in
  exists l rt1,
    findNeighbors 1000 rt (Node.mk 6 None None) None (Some a) = Ok (l, rt1)
    /\ (length l <= 8)%nat
    /\ forall n, n ∈ l -> Node.sameHomeAs n a = false.
Proof.
  intros a c rt. eexists _, _. split; [vm_compute; reflexivity|].
  destruct (findNeighbors_result 1000 rt
              (mk (Node.mk 12345 None None) 8
                  [KBucket.mk (BN.of_Z 0, BN.of_Z (2 ^ 160)) [a; c] [] 1000 8])
              (Node.mk 6 None None) None (Some a) [c])
    as (H1 & _ & H2 & _).
  - vm_compute. reflexivity.
  - split; [exact H1|]. intros n Hn. destruct (H2 n Hn) as (_ & H & _). now apply H.
Defined.

Lemma take_insert_S {A : Type} (l : list A) (i : nat) (x y : A) :
  l !! i = Some y -> take (S i) (<[i := x]> l) = take i l ++ [x].
Proof.
  revert i. induction l as [|z l IH]; intros [|i] H; simpl in *; try discriminate.
  - reflexivity.
  - f_equal. now apply IH.
Qed.

Lemma drop_insert_S {A : Type} (l : list A) (i : nat) (x : A) :
  drop (S i) (<[i := x]> l) = drop (S i) l.
Proof.
  revert i. induction l as [|z l IH]; intros [|i]; simpl; try reflexivity. apply IH.
Qed.

Lemma splitBucket_eq (now : Z) (rt : t) (index : nat) (b : KBucket.t) :
  buckets rt !! index = Some b ->
  splitBucket now rt index
  = Ok (with_buckets rt
          (take index (buckets rt)
           ++ fst (KBucket.split now b) :: snd (KBucket.split now b)
           :: drop (S index) (buckets rt))).
Proof.
  intros Hb. unfold splitBucket. rewrite Hb. simpl.
  destruct (KBucket.split now b) as [one two]. simpl.
  rewrite (take_insert_S _ _ _ _ Hb), drop_insert_S, <- app_assoc. reflexivity.
Qed.

(** X12. [splitBucket(index)] throws when the table has no bucket at [index].
    Otherwise the two halves of the bucket take its place, the buckets
    before and after it staying as they are; when the ids of the bucket are
    distinct the table holds the same nodes as before, and an id some bucket
    reached before is still reached by a bucket. *)
Theorem splitBucket_keeps_contacts (now : Z) (rt : t) (index : nat) :
  match buckets rt !! index with
  | None => splitBucket now rt index = TypeError
  | Some b =>
      exists rt',
        splitBucket now rt index = Ok rt'
        /\ node rt' = node rt /\ ksize rt' = ksize rt
        /\ buckets rt'
           = take index (buckets rt)
             ++ fst (KBucket.split now b) :: snd (KBucket.split now b)
             :: drop (S index) (buckets rt)
        /\ (forall id0, reaches rt id0 -> reaches rt' id0)
        /\ (NoDup (List.map Node.id (KBucket.nodes b)) ->
            concat (List.map KBucket.nodes (buckets rt'))
            ≡ₚ concat (List.map KBucket.nodes (buckets rt)))
  end.
Proof.
  destruct (buckets rt !! index) as [b|] eqn:Hb; [|unfold splitBucket; now rewrite Hb].
  eexists. split; [exact (splitBucket_eq now rt index b Hb)|]. cbn [node ksize buckets with_buckets].
  split; [reflexivity|]. split; [reflexivity|]. split; [reflexivity|].
  pose proof (take_drop_middle _ _ _ Hb) as Hmid. split.
  - intros id0 (b' & Hin & Hg). rewrite <- Hmid in Hin.
    apply elem_of_app in Hin as [Hin|Hin].
    { exists b'. split; [|exact Hg]. apply elem_of_app. now left. }
    apply elem_of_cons in Hin as [->|Hin].
    + exists (snd (KBucket.split now b)). split.
      * apply elem_of_app. right. apply list_elem_of_further, list_elem_of_here.
      * unfold KBucket.split. destruct (KBucket.range b) as [lo hi] eqn:Hr.
        cbn [snd] in Hg.
        match goal with |- context [fold_left ?f ?l ?a] =>
          assert (Hrange : forall l' acc, KBucket.range (snd acc) = KBucket.range (snd a) ->
                     KBucket.range (snd (fold_left f l' acc)) = KBucket.range (snd a))
        end.
        { induction l' as [|x l' IH]; intros [o t] Hacc; [exact Hacc|].
          cbn [fold_left]. apply IH. destruct (BN.gt _ _); exact Hacc. }
        rewrite Hrange by reflexivity. exact Hg.
    + exists b'. split; [|exact Hg]. apply elem_of_app. right.
      now do 2 apply list_elem_of_further.
  - intros Hnd.
    destruct (RoutingFacts.split_spec now b Hnd) as (_ & _ & _ & _ & Hperm).
    remember (take index (buckets rt)) as pre. remember (drop (S index) (buckets rt)) as post.
    rewrite <- Hmid. rewrite !List.map_app, !concat_app. cbn [List.map concat].
    apply Permutation_app_head. rewrite app_assoc. now apply Permutation_app_tail.
Qed.

(** How [addContact] ends, by induction on the splits it makes. *)
Lemma addContact_ends (fuel : nat) (now : Z) (rt rt' : t) (n : Node.t)
    (pings : list (option Node.t)) :
  addContact fuel now rt n = Ok (rt', pings) ->
  node rt' = node rt /\ ksize rt' = ksize rt
  /\ ((pings = []
       /\ exists b pre, b ∈ buckets rt' /\ KBucket.nodes b = pre ++ [n])
      \/ (exists b rest d,
            b ∈ buckets rt' /\ pings = [KBucket.head b]
            /\ KBucket.replacementNodes b = rest ++ [n]
            /\ (Node.id n ∉ List.map Node.id (KBucket.nodes b))
            /\ (KBucket.ksize b <= KBucket.len b)%nat
            /\ KBucket.hasInRange b (node rt) = false
            /\ KBucket.depth b = Ok d /\ (d mod 5 = 0)%nat)).
Proof.
  revert rt. induction fuel as [|fuel IH]; intros rt H; [discriminate|].
  cbn [addContact] in H.
  destruct (bucketFor rt n) as [[index bucket]| |] eqn:Hb; try discriminate.
  apply bucketFor_inv in Hb as (_ & Hlook & _).
  assert (Hidx : (index < length (buckets rt))%nat) by (eapply lookup_lt_Some; eauto).
  cbn [mbind result_bind] in H. unfold KBucket.addNode in H.
  destruct (KBucket.nodes_has (Node.id n) (KBucket.nodes bucket)) eqn:Hhas.
  { injection H as <- <-. split; [reflexivity|]. split; [reflexivity|]. left.
    split; [reflexivity|]. eexists _, _. split.
    - cbn [buckets with_buckets]. eapply list_elem_of_lookup_2.
      now apply list_lookup_insert_eq.
    - cbn [KBucket.nodes KBucket.with_nodes].
      apply RoutingFacts.nodes_set_fresh, KBucketFacts.nodes_has_delete. }
  destruct (Nat.ltb_spec (KBucket.len bucket) (KBucket.ksize bucket)) as [Hlt|Hge].
  { injection H as <- <-. split; [reflexivity|]. split; [reflexivity|]. left.
    split; [reflexivity|]. eexists _, _. split.
    - cbn [buckets with_buckets]. eapply list_elem_of_lookup_2.
      now apply list_lookup_insert_eq.
    - cbn [KBucket.nodes KBucket.with_nodes].
      now apply RoutingFacts.nodes_set_fresh. }
  set (bucket1 := KBucket.mk _ _ _ _ _) in H.
  destruct (KBucket.depth bucket1) as [d| |] eqn:Hd; try discriminate.
  cbn [mbind result_bind] in H.
  destruct (KBucket.hasInRange bucket1 (node rt) || negb (d mod 5 =? 0)%nat) eqn:Hsplit.
  - destruct (splitBucket now _ index) as [rt2| |] eqn:Hs; try discriminate.
    cbn [mbind result_bind] in H.
    destruct (IH _ H) as (Hn & Hk & Hcases).
    assert (Hrt2 : node rt2 = node rt /\ ksize rt2 = ksize rt).
    { unfold splitBucket in Hs. cbn [buckets with_buckets] in Hs.
      destruct (<[index:=bucket1]> (buckets rt) !! index); [|discriminate].
      simpl in Hs. destruct (KBucket.split now t0). injection Hs as <-. now split. }
    destruct Hrt2 as [Hn2 Hk2]. split; [congruence|]. split; [congruence|].
    destruct Hcases as [Hc|(b & rest & d' & H1 & H2 & H3 & H4 & H5 & H6 & H7)];
      [now left|].
    right. exists b, rest, d'. rewrite <- Hn2. auto 10.
  - injection H as <- <-. apply orb_false_iff in Hsplit as [Hrng Hmod].
    split; [reflexivity|]. split; [reflexivity|]. right.
    exists bucket1, (OrderedSet.delete n (KBucket.replacementNodes bucket)), d.
    split.
    { cbn [buckets with_buckets]. eapply list_elem_of_lookup_2.
      now apply list_lookup_insert_eq. }
    split; [reflexivity|]. split; [apply OrderedSetFacts.oset_push_snoc|]. split.
    { subst bucket1. cbn [KBucket.nodes]. intros Hin.
      apply RoutingFacts.nodes_has_spec in Hin. congruence. }
    split; [exact Hge|]. split; [exact Hrng|]. split; [exact Hd|].
    apply negb_false_iff, Nat.eqb_eq in Hmod. exact Hmod.
Qed.

(** X13. [addContact(node)], when it returns.  Either no ping is asked for and
    the node is the newest node of a bucket of the table; or exactly one
    ping is asked for, to the head of a full bucket that does not hold the
    id, whose range does not hold the id of this server and whose depth is a
    multiple of 5, and the node is the newest replacement of that bucket. *)
Theorem addContact_outcome (fuel : nat) (now : Z) (rt rt' : t) (n : Node.t)
    (pings : list (option Node.t)) :
  addContact fuel now rt n = Ok (rt', pings) ->
  node rt' = node rt /\ ksize rt' = ksize rt
  /\ ((pings = []
       /\ exists b pre, b ∈ buckets rt' /\ KBucket.nodes b = pre ++ [n])
      \/ (exists b rest d,
            b ∈ buckets rt' /\ pings = [KBucket.head b]
            /\ KBucket.replacementNodes b = rest ++ [n]
            /\ (Node.id n ∉ List.map Node.id (KBucket.nodes b))
            /\ (KBucket.ksize b <= KBucket.len b)%nat
            /\ KBucket.hasInRange b (node rt) = false
            /\ KBucket.depth b = Ok d /\ (d mod 5 = 0)%nat)).
Proof.
  intros H. destruct (addContact_ends fuel now rt rt' n pings H) as (Hn & Hk & Hends).
  split; [exact Hn|]. split; [exact Hk|]. exact Hends.
Qed.

Lemma addContact_outcome_witness :
  let me := Node.mk 12345 None None in
  let n := Node.mk 5 (Some "10.0.0.1"%string) (Some 13001) in
  exists rt', addContact 8 0 (create 0 8 me) n = Ok (rt', [])
    /\ node rt' = me.
Proof.
  intros me n. eexists. split; [vm_compute; reflexivity|].
  destruct (addContact_outcome 8 0 (create 0 8 me)
              (mk me 8 [KBucket.mk (BN.of_Z 0, BN.of_Z (2 ^ 160)) [n] [] 0 8]) n [])
    as (H & _).
  - vm_compute. reflexivity.
  - exact H.
Defined.

Lemma addContacts_one_bucket (fuel : nat) (now t0 : Z) (k : nat) (me : Node.t)
    (ns pre : list Node.t) :
  NoDup (List.map Node.id (pre ++ ns)) ->
  (length (pre ++ ns) <= k)%nat ->
  (forall n, n ∈ ns -> Node.id n <= 2 ^ 160) ->
  addContacts (S fuel) now
    (mk me k [KBucket.mk (BN.of_Z 0, BN.of_Z (2 ^ 160)) pre [] t0 k]) ns
  = Ok (mk me k [KBucket.mk (BN.of_Z 0, BN.of_Z (2 ^ 160)) (pre ++ ns) [] t0 k]).
Proof.
  revert pre. induction ns as [|n ns IH]; intros pre Hnd Hlen Hr.
  { now rewrite app_nil_r. }
  cbn [addContacts].
  set (b := KBucket.mk (BN.of_Z 0, BN.of_Z (2 ^ 160)) pre [] t0 k).
  assert (Hbf : bucketFor (mk me k [b]) n = Ok (0%nat, b)).
  { unfold bucketFor, getBucketFor. cbn [buckets first_reaching KBucket.range snd b].
    rewrite gte_of_Z. assert (Hle : Node.id n <= 2 ^ 160) by apply Hr, list_elem_of_here.
    apply Z.leb_le in Hle. rewrite Hle. reflexivity. }
  rewrite List.map_app in Hnd. apply NoDup_app in Hnd as (Hpre & Hdisj & Hns).
  cbn [List.map] in Hdisj, Hns. apply NoDup_cons in Hns as [Hn Hns].
  rewrite (ProtocolFacts.addContact_room fuel now (mk me k [b]) n 0 b Hbf).
  - cbn [mbind result_bind]. unfold with_buckets. cbn [buckets node ksize].
    change (<[0%nat := KBucket.with_nodes b (KBucket.nodes b ++ [n])]> [b])
      with [KBucket.mk (BN.of_Z 0, BN.of_Z (2 ^ 160)) (pre ++ [n]) [] t0 k].
    rewrite IH.
    + now rewrite <- app_assoc.
    + rewrite <- app_assoc. cbn [app]. rewrite List.map_app. apply NoDup_app.
      split; [exact Hpre|]. split; [exact Hdisj|]. cbn [List.map].
      apply NoDup_cons. now split.
    + rewrite <- app_assoc. exact Hlen.
    + intros n' Hn'. now apply Hr, list_elem_of_further.
  - unfold KBucket.isNewNode. apply negb_true_iff, not_true_is_false.
    rewrite RoutingFacts.nodes_has_spec. intros Hin.
    apply (Hdisj _ Hin). apply list_elem_of_here.
  - unfold KBucket.len. cbn [KBucket.nodes KBucket.ksize b].
    rewrite List.length_app in Hlen. simpl in Hlen. lia.
Qed.

(** X14. A new table has the single bucket [0, 2^160], and [findNeighbors] finds
    nobody in it.  Its first contacts, up to [ksize] of them when their ids
    are distinct, are stored in that bucket in the order they come, without
    a split and without a ping; the [lastUpdated] stamp of the bucket stays
    the time the table was made. *)
Theorem new_table_fills_first_bucket (fuel : nat) (t0 now : Z) (k : nat) (me : Node.t)
    (ns : list Node.t) :
  NoDup (List.map Node.id ns) ->
  (length ns <= k)%nat ->
  (forall n, n ∈ ns -> Node.id n <= 2 ^ 160) ->
  addContacts (S fuel) now (create t0 k me) ns
  = Ok (mk me k [KBucket.mk (BN.of_Z 0, BN.of_Z (2 ^ 160)) ns [] t0 k])
  /\ forall target, Node.id target <= 2 ^ 160 ->
       exists rt1, findNeighbors now (create t0 k me) target None None = Ok ([], rt1).
Proof.
  intros Hnd Hlen Hr. split.
  - exact (addContacts_one_bucket fuel now t0 k me ns [] Hnd Hlen Hr).
  - intros target Ht. unfold findNeighbors, bucketFor, getBucketFor, create, flush.
    cbn [buckets with_buckets first_reaching KBucket.range KBucket.create snd].
    rewrite gte_of_Z. apply Z.leb_le in Ht. rewrite Ht. cbn. eexists.
    rewrite take_nil. reflexivity.
Qed.

Lemma new_table_fills_first_bucket_witness :
  let a := Node.mk 5 (Some "10.0.0.1"%string) (Some 13001) in
  let c := Node.mk 7 (Some "10.0.0.2"%string) (Some 13002) in
  let me := Node.mk 12345 None None in
  addContacts 1 1000 (create 0 8 me) [a; c]
  = Ok (mk me 8 [KBucket.mk (BN.of_Z 0, BN.of_Z (2 ^ 160)) [a; c] [] 0 8]).
Proof.
  intros a c me.
  apply (new_table_fills_first_bucket 0 0 1000 8 me [a; c]).
  - simpl. apply NoDup_cons. split; [|apply NoDup_singleton].
    intros H. apply list_elem_of_singleton in H. discriminate.
  - simpl. lia.
  - intros n Hn. apply elem_of_cons in Hn as [->|Hn]; [simpl; lia|].
    apply list_elem_of_singleton in Hn. subst n. simpl. lia.
Defined.

End RoutingMore.

(* ===================================================================== *)
(** * More on the node heap *)
(* ===================================================================== *)

Module NodeHeapMore.
Import NodeHeap NodeHeapInv.

Lemma filter_filter {A : Type} (p q : A -> bool) (l : list A) :
  List.filter p (List.filter q l) = List.filter (fun x => q x && p x) l.
Proof.
  induction l as [|x l IH]; simpl; [reflexivity|].
  destruct (q x); simpl; [|exact IH]. destruct (p x); now rewrite IH.
Qed.

Lemma filter_none {A : Type} (p : A -> bool) (l : list A) :
  (forall x, x ∈ l -> p x = false) -> List.filter p l = [].
Proof.
  induction l as [|x l IH]; intros H; simpl; [reflexivity|].
  rewrite (H x) by apply list_elem_of_here. apply IH.
  intros y Hy. now apply H, list_elem_of_further.
Qed.

Lemma iter_length (h : t) : length (iter h) = Nat.min (maxsize h) (length (heap h)).
Proof.
  unfold iter. rewrite List.length_map.
  now destruct (NodeHeapFacts.nsmallest_split (heap h) (maxsize h)) as (rest & _ & _ & Hlen).
Qed.

Lemma iter_in_heap (h : t) (n : Node.t) :
  n ∈ iter h -> exists e, e ∈ heap h /\ snd e = n.
Proof.
  unfold iter. intros Hn. apply list_elem_of_In, in_map_iff in Hn as (e & <- & He).
  destruct (NodeHeapFacts.nsmallest_split (heap h) (maxsize h)) as (rest & Hperm & _ & _).
  exists e. split; [|reflexivity]. rewrite <- Hperm. apply elem_of_app. left.
  now apply list_elem_of_In.
Qed.

(** X15. The [len] getter is the number of nodes iteration yields, and of ids
    [getIDs] lists: the size of the heap array, capped at [maxsize]. *)
Theorem len_counts_iterated_nodes (h : t) :
  len h = length (iter h)
  /\ length (getIDs h) = len h
  /\ (len h <= maxsize h)%nat
  /\ (forall n, n ∈ iter h -> exists e, e ∈ heap h /\ snd e = n).
Proof.
  unfold len, getIDs, Utils.len. rewrite List.length_map, iter_length.
  split; [lia|]. split; [lia|]. split; [lia|]. apply iter_in_heap.
Qed.

Lemma contacted_fold (l : list Node.t) (h : t) :
  contacted (fold_left markContacted l h)
  = list_to_set (List.map Node.id l) ∪ contacted h
  /\ heap (fold_left markContacted l h) = heap h
  /\ maxsize (fold_left markContacted l h) = maxsize h
  /\ node (fold_left markContacted l h) = node h.
Proof.
  revert h. induction l as [|n l IH]; intros h; simpl.
  { split; [|now split]. apply set_eq. intros y.
    rewrite elem_of_union, elem_of_empty. tauto. }
  destruct (IH (markContacted h n)) as (H1 & H2 & H3 & H4).
  rewrite H1, H2, H3, H4. simpl. split; [|now split]. apply set_eq. intros y.
  rewrite !elem_of_union, elem_of_singleton. tauto.
Qed.

(** X16. [markContacted(node)] takes the nodes of that id, and no other, out of
    [getUncontacted()], and changes nothing of what iteration yields; once
    every node [getUncontacted()] lists has been marked,
    [allBeenContacted()] holds. *)
Theorem marking_the_uncontacted_contacts_all (h : t) (n : Node.t) :
  getUncontacted (markContacted h n)
  = List.filter (fun m => negb (Node.id m =? Node.id n)) (getUncontacted h)
  /\ iter (markContacted h n) = iter h
  /\ allBeenContacted (fold_left markContacted (getUncontacted h) h) = true.
Proof.
  split; [|split].
  - unfold getUncontacted. change (iter (markContacted h n)) with (iter h).
    rewrite filter_filter. apply List.filter_ext. intros m. cbn [contacted markContacted].
    destruct (Z.eqb_spec (Node.id m) (Node.id n)) as [Heq|Hne]; cbn [negb].
    + rewrite andb_false_r. apply negb_false_iff, bool_decide_eq_true.
      rewrite Heq. apply elem_of_union_l. now apply elem_of_singleton.
    + rewrite andb_true_r. f_equal. apply bool_decide_ext.
      rewrite elem_of_union, elem_of_singleton. tauto.
  - reflexivity.
  - unfold allBeenContacted, Utils.len. apply Nat.eqb_eq, length_zero_iff_nil.
    set (U := getUncontacted h).
    destruct (contacted_fold U h) as (Hc & Hh & Hm & Hn).
    unfold getUncontacted, iter. rewrite Hc, Hh, Hm. fold (iter h).
    apply filter_none. intros x Hx. apply negb_false_iff, bool_decide_eq_true.
    destruct (decide (Node.id x ∈ contacted h)) as [Hin|Hout]; [now apply elem_of_union_r|].
    apply elem_of_union_l, elem_of_list_to_set.
    rewrite list_elem_of_In. apply in_map. subst U. unfold getUncontacted.
    apply filter_In. split; [now apply list_elem_of_In|].
    now apply negb_true_iff, bool_decide_eq_false.
Qed.

Lemma sound_push_one (h : t) (n : Node.t) : sound h -> sound (push_one h n).
Proof.
  intros [Hnd Hd]. split; [now apply NodeHeapFacts.push_one_NoDup|].
  unfold push_one. destruct (has h n); [exact Hd|]. cbn [heap node].
  intros e He. unfold Heapq.push in He. apply elem_of_app in He as [He|He]; [now apply Hd|].
  apply list_elem_of_singleton in He. now subst e.
Qed.

Lemma sound_push (nodes : list Node.t) (h : t) : sound h -> sound (push h nodes).
Proof.
  revert h. induction nodes as [|n nodes IH]; intros h Hs; [exact Hs|].
  apply IH. now apply sound_push_one.
Qed.

Lemma remove_fields (h : t) (peerIDs : list Z) :
  node (remove h peerIDs) = node h /\ maxsize (remove h peerIDs) = maxsize h
  /\ contacted (remove h peerIDs) = contacted h.
Proof. unfold remove. now destruct peerIDs. Qed.

Lemma push_fields (nodes : list Node.t) (h : t) :
  node (push h nodes) = node h /\ maxsize (push h nodes) = maxsize h
  /\ contacted (push h nodes) = contacted h.
Proof.
  revert h. induction nodes as [|n nodes IH]; intros h; [now split|].
  destruct (IH (push_one h n)) as (H1 & H2 & H3).
  destruct (NodeHeapFacts.push_one_fields h n) as (H4 & H5 & H6).
  cbn [push fold_left] in *. unfold push in *. rewrite H1, H2, H3. now split.
Qed.

Lemma remove_in (h : t) (peerIDs : list Z) (e : Z * Node.t) :
  e ∈ heap (remove h peerIDs) <-> e ∈ heap h /\ Node.id (snd e) ∉ peerIDs.
Proof.
  rewrite NodeHeapFacts.remove_heap, !list_elem_of_In, filter_In, negb_true_iff.
  split; intros [Hin Hx]; (split; [exact Hin|]).
  - intros Hp. apply not_true_iff_false in Hx. apply Hx, existsb_exists.
    exists (Node.id (snd e)). split; [exact Hp|apply Z.eqb_refl].
  - apply not_true_is_false. intros Hex. apply existsb_exists in Hex as (x & Hx1 & Hx2).
    apply Z.eqb_eq in Hx2. subst x. apply Hx. exact Hx1.
Qed.

Lemma sound_remove (h : t) (peerIDs : list Z) : sound h -> sound (remove h peerIDs).
Proof.
  intros [Hnd Hd]. destruct (remove_fields h peerIDs) as (Hn & _ & _). split.
  - unfold ids. rewrite NodeHeapFacts.remove_heap. now apply NodeHeapFacts.NoDup_map_filter.
  - intros e He. apply remove_in in He as [He _]. rewrite Hn. now apply Hd.
Qed.

(** What iteration yields on such a heap: nodes of distinct ids, in
    strictly ascending distance to the node of the heap. *)
Lemma iter_sound (h : t) :
  sound h ->
  StronglySorted (fun a b => Node.distanceTo (node h) a < Node.distanceTo (node h) b) (iter h)
  /\ NoDup (List.map Node.id (iter h)).
Proof.
  intros [Hnd Hd]. unfold iter.
  destruct (NodeHeapFacts.nsmallest_split (heap h) (maxsize h)) as (rest & Hperm & Hs & _).
  set (top := Heapq.nsmallest (heap h) (maxsize h) Utils.compare) in *.
  assert (Hnd' : NoDup (List.map (fun e : Z * Node.t => Node.id (snd e)) top)).
  { assert (Hp : List.map (fun e : Z * Node.t => Node.id (snd e)) (top ++ rest) ≡ₚ ids h)
      by (unfold ids; now apply Permutation_map).
    rewrite <- Hp, List.map_app in Hnd. now apply NoDup_app in Hnd as (H & _ & _). }
  split.
  - apply (NodeHeapFacts.sorted_strict (node h) top).
    + eapply StronglySorted_app_1_l, Hs.
    + exact Hnd'.
    + intros e He. apply Hd. rewrite <- Hperm. apply elem_of_app. now left.
  - now rewrite List.map_map.
Qed.

(** X17. [remove(peerIDs)] takes the entries of the listed ids, and no other,
    out of the heap array, so that iteration yields none of them; with no
    id listed it changes nothing.  The marks of [markContacted] stay: a node
    that was marked, removed, and is pushed again is back in the heap array
    but is not listed by [getUncontacted()]. *)
Theorem remove_drops_ids_keeps_marks (h : t) (peerIDs : list Z) :
  remove h [] = h
  /\ (forall e, e ∈ heap (remove h peerIDs) <-> e ∈ heap h /\ Node.id (snd e) ∉ peerIDs)
  /\ (forall n, n ∈ iter (remove h peerIDs) -> Node.id n ∉ peerIDs)
  /\ contacted (remove h peerIDs) = contacted h
  /\ (forall n, Node.id n ∈ peerIDs -> Node.id n ∈ contacted h ->
        Node.id n ∈ ids (push (remove h peerIDs) [n])
        /\ (n ∉ getUncontacted (push (remove h peerIDs) [n]))).
Proof.
  split; [reflexivity|]. split; [apply remove_in|]. split; [|split].
  - intros n Hn. apply iter_in_heap in Hn as (e & He & <-). now apply remove_in in He.
  - apply remove_fields.
  - intros n Hp Hc. split.
    + cbn [push fold_left]. unfold push_one.
      destruct (has (remove h peerIDs) n) eqn:Hh; [now apply NodeHeapFacts.has_ids|].
      unfold ids, Heapq.push. cbn [heap]. rewrite List.map_app, elem_of_app. right.
      apply list_elem_of_here.
    + unfold getUncontacted. rewrite list_elem_of_In, filter_In, negb_true_iff.
      intros [_ Hf]. apply bool_decide_eq_false in Hf. apply Hf.
      destruct (push_fields [n] (remove h peerIDs)) as (_ & _ & ->).
      destruct (remove_fields h peerIDs) as (_ & _ & ->). exact Hc.
Qed.

End NodeHeapMore.

(* ===================================================================== *)
(** * Properties of the crawl *)
(* ===================================================================== *)

Module CrawlFacts.
Import NodeSpiderCrawl NodeHeapInv.

Section Crawl.
Variable network : Node.t -> RPCProtocol.outcome.
Variable target : Node.t.
Variable peers : list Node.t.
Variable k : nat.

(** A node the crawl was given, or was told of in a response. *)
Let known (n : Node.t) : Prop :=
  n ∈ peers
  \/ exists p ns, network p = (true, Some (RPCProtocol.Nodes ns)) /\ n ∈ ns.

(** What every round of the crawl keeps of [nearest]. *)
Let kept (h : NodeHeap.t) : Prop :=
  NodeHeap.node h = target /\ NodeHeap.maxsize h = k /\ sound h
  /\ forall e, e ∈ NodeHeap.heap h -> known (snd e).

Lemma kept_push (h : NodeHeap.t) (ns : list Node.t) :
  kept h -> (forall n, n ∈ ns -> known n) -> kept (NodeHeap.push h ns).
Proof.
  intros (Hn & Hm & Hs & Hk) Hns.
  destruct (NodeHeapMore.push_fields ns h) as (H1 & H2 & _).
  split; [congruence|]. split; [congruence|]. split; [now apply NodeHeapMore.sound_push|].
  clear H1 H2 Hn Hm Hs. revert h Hk. induction ns as [|n ns IH]; intros h Hk; [exact Hk|].
  cbn [NodeHeap.push fold_left]. apply IH.
  - intros n' Hn'. now apply Hns, list_elem_of_further.
  - unfold NodeHeap.push_one. destruct (NodeHeap.has h n); [exact Hk|].
    cbn [NodeHeap.heap]. intros e He. unfold Heapq.push in He.
    apply elem_of_app in He as [He|He]; [now apply Hk|].
    apply list_elem_of_singleton in He. subst e. apply Hns, list_elem_of_here.
Qed.

Lemma kept_marked (h : NodeHeap.t) (l : list Node.t) :
  kept h -> kept (fold_left NodeHeap.markContacted l h).
Proof.
  intros (Hn & Hm & [Hnd Hd] & Hk).
  destruct (NodeHeapMore.contacted_fold l h) as (_ & Hh & Hm' & Hn').
  unfold kept, sound, NodeHeap.ids. rewrite Hh, Hm', Hn'. auto.
Qed.

Lemma kept_remove (h : NodeHeap.t) (l : list Z) : kept h -> kept (NodeHeap.remove h l).
Proof.
  intros (Hn & Hm & Hs & Hk).
  destruct (NodeHeapMore.remove_fields h l) as (H1 & H2 & _).
  split; [congruence|]. split; [congruence|]. split; [now apply NodeHeapMore.sound_remove|].
  intros e He. apply NodeHeapMore.remove_in in He as [He _]. now apply Hk.
Qed.

Lemma kept_absorb (responses : list (Z * RPCProtocol.outcome)) (h h' : NodeHeap.t)
    (tr tr' : list Z) :
  (forall r, r ∈ responses -> exists p, snd r = network p) ->
  kept h -> absorb responses h tr = Ok (h', tr') -> kept h'.
Proof.
  revert h tr. induction responses as [|[peerid response] rest IH]; intros h tr Hr Hk H.
  { cbn in H. now injection H as <- _. }
  cbn [absorb] in H.
  assert (Hrest : forall r, r ∈ rest -> exists p, snd r = network p)
    by (intros r Hin; now apply Hr, list_elem_of_further).
  destruct (negb (RPCFindResponse.happened response)) eqn:Hh; [now apply (IH _ _ Hrest Hk H)|].
  destruct (RPCFindResponse.getNodeList response) as [l| |] eqn:Hl; try discriminate.
  cbn [mbind result_bind] in H. apply (IH _ _ Hrest) in H; [exact H|].
  apply kept_push; [exact Hk|]. intros n Hn. right.
  destruct (Hr _ (list_elem_of_here _ _)) as (p & Hp). cbn [snd] in Hp.
  apply negb_false_iff in Hh. unfold RPCFindResponse.happened in Hh.
  unfold RPCFindResponse.getNodeList in Hl.
  destruct response as [ok [[ns|v|i| |ad|s]|]]; cbn [fst snd] in *; try discriminate.
  - injection Hl as <-. subst ok. exists p, ns. split; [now symmetry|exact Hn].
  - injection Hl as <-. inversion Hn.
Qed.

Lemma find_kept (fuel : nat) (c : t) (l : list Node.t) :
  kept (nearest c) -> find fuel network c = Ok l ->
  exists h, kept h /\ l = NodeHeap.iter h.
Proof.
  revert c. induction fuel as [|fuel IH]; intros c Hk H; [discriminate|].
  cbn [find] in H.
  set (uc := take _ (NodeHeap.getUncontacted (nearest c))) in H.
  destruct (absorb _ _ _) as [[pushed toremove]| |] eqn:Ha; try discriminate.
  cbn [mbind result_bind] in H.
  assert (Hp : kept (NodeHeap.remove pushed toremove)).
  { apply kept_remove. eapply kept_absorb; [|apply (kept_marked _ uc Hk)|exact Ha].
    intros r Hr. apply list_elem_of_In, in_map_iff in Hr as (p & <- & _). now exists p. }
  destruct (NodeHeap.allBeenContacted _).
  - injection H as <-. eauto.
  - apply IH in H; [exact H|exact Hp].
Qed.

(** X18. The crawl, when it ends: [find()] returns at most [ksize] nodes, of
    distinct ids, in strictly ascending distance to the node looked for;
    each of them is one of the peers the crawl started from or was named in
    a response to one of its requests. *)
Theorem find_returns_nearest_known (fuel a : nat) (l : list Node.t) :
  find fuel network (create target peers k a) = Ok l ->
  (length l <= k)%nat
  /\ StronglySorted
       (fun x y => Node.distanceTo target x < Node.distanceTo target y) l
  /\ NoDup (List.map Node.id l)
  /\ forall n, n ∈ l ->
       n ∈ peers
       \/ exists p ns, network p = (true, Some (RPCProtocol.Nodes ns)) /\ n ∈ ns.
Proof.
  intros H. apply find_kept in H as (h & (Hn & Hm & Hs & Hk) & ->).
  - destruct (NodeHeapMore.iter_sound h Hs) as [Hsorted Hnd]. rewrite Hn in Hsorted.
    split; [rewrite NodeHeapMore.iter_length; lia|]. split; [exact Hsorted|].
    split; [exact Hnd|]. intros n Hin.
    apply NodeHeapMore.iter_in_heap in Hin as (e & He & <-). now apply Hk.
  - cbn [create nearest]. apply kept_push.
    + split; [reflexivity|]. split; [reflexivity|]. split.
      * split; [constructor|]. intros e He. inversion He.
      * intros e He. inversion He.
    + intros n Hn. now left.
Qed.

End Crawl.

Lemma find_returns_nearest_known_witness :
  let n := Node.mk 5 (Some "10.0.0.1"%string) (Some 13001) in
  let m := Node.mk 12 (Some "10.0.0.2"%string) (Some 13002) in
  let network := fun p : Node.t =>
    if Node.id p =? 5 then (true, Some (RPCProtocol.Nodes [m]))
    else (true, Some (RPCProtocol.Nodes [])) : RPCProtocol.outcome in
  find 16 network (create (Node.mk 9 None None) [n] 8 3) = Ok [m; n]
  /\ NoDup (List.map Node.id [m; n]).
Proof.
  intros n m network. split; [vm_compute; reflexivity|].
  destruct (find_returns_nearest_known network (Node.mk 9 None None) [n] 8 16 3 [m; n])
    as (_ & _ & H & _).
  - vm_compute. reflexivity.
  - exact H.
Defined.

End CrawlFacts.

(* ===================================================================== *)
(** * More on the protocol *)
(* ===================================================================== *)

Module ProtocolMore.
Import KademliaProtocol.

Lemma length_append (s1 s2 : string) :
  String.length (s1 ++ s2) = (String.length s1 + String.length s2)%nat.
Proof. induction s1 as [|c s1 IH]; simpl; [reflexivity|]. now rewrite IH. Qed.

Lemma length_substring (n m : nat) (s : string) :
  (n + m <= String.length s)%nat -> String.length (String.substring n m s) = m.
Proof.
  revert n m. induction s as [|c s IH]; intros n m H; simpl in H.
  - assert (n = 0%nat) by lia. assert (m = 0%nat) by lia. now subst.
  - destruct n as [|n]; simpl.
    + destruct m as [|m]; [reflexivity|]. simpl. rewrite (IH 0%nat m); [reflexivity|lia].
    + apply IH. lia.
Qed.

(** X19. Every id [getRefreshIDs] returns has 40 characters, whatever the range
    of the bucket and the number drawn: a shorter number is padded with
    zeros on the left, a longer one loses its leading digits. *)
Theorem refresh_ids_have_40_characters (now : Z) (st : t) (rnds : list BN.t) :
  (forall b rnd, String.length (refreshID b rnd) = 40%nat)
  /\ Forall (fun s => String.length s = 40%nat) (getRefreshIDs now st rnds)
  /\ (length (getRefreshIDs now st rnds)
      = Nat.min (length (RoutingTable.getLonelyBuckets now (router st))) (length rnds)).
Proof.
  assert (H : forall b rnd, String.length (refreshID b rnd) = 40%nat).
  { intros b rnd. unfold refreshID. destruct (KBucket.range b) as [lo hi].
    unfold slice_last, BIT_SPACE. apply length_substring.
    rewrite length_append. unfold BIT_EMPTY. simpl String.length. lia. }
  split; [exact H|]. split.
  - unfold getRefreshIDs. apply Forall_forall. intros s Hs.
    apply list_elem_of_In, in_map_iff in Hs as ([b rnd] & <- & _). apply H.
  - unfold getRefreshIDs. now rewrite List.length_map, List.length_combine.
Qed.

Section Requests.
Variable digest : Z -> Z.

Lemma welcome_known (fuel : nat) (now : Z) (st : t) (node : Node.t) :
  RoutingTable.isNewNode (router st) node = Ok false ->
  welcomeIfNewNode digest fuel now st node = ([], Ok st).
Proof. intros H. unfold welcomeIfNewNode. now rewrite H. Qed.

(** X20. A value stored by a [store] request is what a [find_value] request for
    the key is answered with, as long as less than [ttl] has passed; the
    table is not changed by the two requests of a sender it knows. *)
Theorem store_then_find_value (fuel fuel' : nat) (clock now now' : Z) (st : t)
    (sender sender' : string * Z) (nodeid nodeid' key : Z) (value : Buffer) :
  Storage.inv clock (storage st) -> clock <= now ->
  now <= now' < now + Storage.ttl (storage st) ->
  RoutingTable.isNewNode (router st) (sourceOf sender nodeid) = Ok false ->
  RoutingTable.isNewNode (router st) (sourceOf sender' nodeid') = Ok false ->
  exists st1 st2,
    handle digest fuel now st sender (store nodeid key value)
    = ([], Ok (st1, RPCProtocol.Stored))
    /\ handle digest fuel' now' st1 sender' (find_value nodeid' key)
       = ([], Ok (st2, RPCProtocol.Value value))
    /\ router st1 = router st /\ router st2 = router st.
Proof.
  intros Hi Hc Hnow Hk Hk'.
  set (s1 := Storage.set now key value (storage st)).
  assert (Hi1 : Storage.inv now s1) by (now apply StorageFacts.inv_set with clock).
  assert (Ht1 : Storage.ttl s1 = Storage.ttl (storage st))
    by (now apply StorageFacts.ttl_set with clock).
  assert (Hin : In (key, (now, value)) (Storage.entries s1)).
  { apply (StorageFacts.in_set clock); [exact Hi|exact Hc|]. split; [now right|].
    unfold Storage.expired, Storage.stamp_of. cbn [fst snd]. lia. }
  assert (Hget : fst (Storage.get now' key s1) = Some value).
  { apply (StorageFacts.get_present now now' key (now, value) s1 Hi1 Hin).
    unfold Storage.expired, Storage.stamp_of. cbn [fst snd]. rewrite Ht1. lia. }
  exists (with_storage st s1), (with_storage st (snd (Storage.get now' key s1))).
  split; [|split; [|now split]].
  - cbn [handle]. rewrite (welcome_known fuel now st _ Hk). reflexivity.
  - cbn [handle].
    rewrite (welcome_known fuel' now' (with_storage st s1) _ Hk').
    unfold mbind, eff_bind. cbn [storage with_storage].
    destruct (Storage.get now' key s1) as [v s2]. cbn [fst snd] in *. subst v.
    reflexivity.
Qed.

(** X21. The nodes a [find_node] request is answered with come nearest to the
    key first; none of them has the key as its id, and none lives at the
    address the request came from. *)
Theorem find_node_answer_leaves_out_the_sender (fuel : nat) (now : Z) (st st' : t)
    (sender : string * Z) (nodeid key : Z) (calls : list call) (l : list Node.t) :
  handle digest fuel now st sender (find_node nodeid key)
  = (calls, Ok (st', RPCProtocol.Nodes l)) ->
  StronglySorted (fun a b => Z.lxor key (Node.id a) <= Z.lxor key (Node.id b)) l
  /\ forall n, n ∈ l ->
       Node.id n <> key
       /\ ~ (Node.ip n = Some (fst sender) /\ Node.port n = Some (snd sender)).
Proof.
  cbn [handle]. unfold rpc_find_node. intros H.
  destruct (welcomeIfNewNode digest fuel now st (sourceOf sender nodeid))
    as [calls1 [st1| |]] eqn:Hw; try (cbn in H; discriminate).
  unfold mbind, eff_bind, lift in H.
  destruct (RoutingTable.findNeighbors now (router st1) (Node.mk key None None) None
              (Some (sourceOf sender nodeid))) as [[neighbors rt1]| |] eqn:Hf;
    try discriminate.
  cbn in H. injection H as _ _ <-. split.
  - apply (RoutingFacts.findNeighbors_sorted now (router st1) rt1 (Node.mk key None None)
             None (Some (sourceOf sender nodeid)) neighbors); [|exact Hf].
    eapply RoutingMore.findNeighbors_reaches, Hf.
  - intros n Hn.
    destruct (RoutingMore.findNeighbors_kept _ _ _ _ _ _ _ n Hf Hn) as (Hid & Hex & _).
    split; [exact Hid|]. intros [Hip Hport].
    specialize (Hex _ eq_refl). unfold Node.sameHomeAs, sourceOf in Hex.
    cbn [Node.ip Node.port] in Hex. rewrite Hip, Hport in Hex. cbn in Hex.
    rewrite String.eqb_refl, Z.eqb_refl in Hex. discriminate.
Qed.

End Requests.

Lemma store_then_find_value_witness :
  let n := Node.mk 5 (Some "10.0.0.1"%string) (Some 13001) in
  let me := Node.mk 12345 None None in
  let rt := RoutingTable.mk me 8 [KBucket.mk (BN.of_Z 0, BN.of_Z (2 ^ 160)) [n] [] 0 8] in
  let st := mk (RPCProtocol.create 5000) rt (Storage.create 20000) me in
  exists st1 st2,
    handle (fun x => x) 8 1000 st ("10.0.0.1"%string, 13001) (store 5 9 [x68; x69]%byte)
    = ([], Ok (st1, RPCProtocol.Stored))
    /\ handle (fun x => x) 8 20999 st1 ("10.0.0.1"%string, 13001) (find_value 5 9)
       = ([], Ok (st2, RPCProtocol.Value [x68; x69]%byte)).
Proof.
  intros n me rt st.
  destruct (store_then_find_value (fun x => x) 8 8 0 1000 20999 st ("10.0.0.1"%string, 13001)
              ("10.0.0.1"%string, 13001) 5 5 9 [x68; x69]%byte)
    as (st1 & st2 & H1 & H2 & _).
  - apply StorageFacts.inv_create.
  - lia.
  - simpl. lia.
  - vm_compute. reflexivity.
  - vm_compute. reflexivity.
  - now exists st1, st2.
Defined.

Lemma find_node_answer_leaves_out_the_sender_witness :
  let n := Node.mk 5 (Some "10.0.0.1"%string) (Some 13001) in
  let m := Node.mk 12 (Some "10.0.0.2"%string) (Some 13002) in
  let me := Node.mk 12345 None None in
  let rt := RoutingTable.mk me 8 [KBucket.mk (BN.of_Z 0, BN.of_Z (2 ^ 160)) [n; m] [] 0 8] in
  let st := mk (RPCProtocol.create 5000) rt (Storage.create 20000) me in
  exists st',
    handle (fun x => x) 8 1000 st ("10.0.0.1"%string, 13001) (find_node 5 9)
    = ([], Ok (st', RPCProtocol.Nodes [m]))
    /\ forall x, x ∈ [m] -> Node.id x <> 9.
Proof.
  intros n m me rt st. eexists. split; [vm_compute; reflexivity|].
  destruct (find_node_answer_leaves_out_the_sender (fun x => x) 8 1000 st
              (mk (RPCProtocol.create 5000)
                  (RoutingTable.mk me 8
                     [KBucket.mk (BN.of_Z 0, BN.of_Z (2 ^ 160)) [n; m] [] 1000 8])
                  (Storage.create 20000) me)
              ("10.0.0.1"%string, 13001) 5 9 [] [m]) as (_ & H).
  - vm_compute. reflexivity.
  - intros x Hx. now destruct (H x Hx).
Defined.

End ProtocolMore.

(* ===================================================================== *)
(** * More on the server *)
(* ===================================================================== *)

Module ServerMore.
Import Server.

(** When one promise settles strictly before those ahead of it in the
    array and no later than those behind it, [Promise.race] settles as it
    does. *)
Lemma race_winner (now : nat) (pre post : list Promise.t) (p : Promise.t) :
  (forall q, q ∈ pre -> (Nat.max (Promise.instant p) now < Nat.max (Promise.instant q) now)%nat) ->
  (forall q, q ∈ post -> (Nat.max (Promise.instant p) now <= Nat.max (Promise.instant q) now)%nat) ->
  Promise.race now (pre ++ p :: post) = Some (Nat.max (Promise.instant p) now, Promise.how p).
Proof.
  intros Hpre Hpost. induction pre as [|q pre IH].
  - cbn [app Promise.race]. destruct (Promise.race now post) as [[t' h']|] eqn:Hr; [|reflexivity].
    assert (Hle : (Nat.max (Promise.instant p) now <= t')%nat).
    { clear -Hr Hpost. revert t' h' Hr. induction post as [|q post IH]; intros t' h' Hr;
        [discriminate|].
      cbn [Promise.race] in Hr.
      pose proof (Hpost q (list_elem_of_here _ _)) as Hq.
      destruct (Promise.race now post) as [[t1 h1]|] eqn:Hr1.
      - specialize (IH (fun x Hx => Hpost x (list_elem_of_further _ _ _ Hx)) _ _ eq_refl).
        destruct (_ <=? _)%nat; injection Hr as <- <-; lia.
      - injection Hr as <- <-. lia. }
    apply Nat.leb_le in Hle. now rewrite Hle.
  - cbn [app Promise.race]. rewrite IH.
    + pose proof (Hpre q (list_elem_of_here _ _)) as Hq.
      destruct (Nat.leb_spec (Nat.max (Promise.instant q) now) (Nat.max (Promise.instant p) now));
        [lia|reflexivity].
    + intros x Hx. now apply Hpre, list_elem_of_further.
Qed.

(** X22. The helper [any] of [set_digest] resolves with the value of the first
    store to complete, when that store was fulfilled: the promise that
    settles before all others decides, also when its value tells a failure
    ([ [ false, null ] ]) and a store that completes later succeeds. *)
Theorem any_takes_the_first_to_complete (now : nat) (pre post : list Promise.t)
    (p : Promise.t) (val : RPCProtocol.outcome) :
  Promise.how p = Promise.Fulfilled val ->
  (forall q, q ∈ pre -> (Nat.max (Promise.instant p) now < Nat.max (Promise.instant q) now)%nat) ->
  (forall q, q ∈ post -> (Nat.max (Promise.instant p) now <= Nat.max (Promise.instant q) now)%nat) ->
  any now (pre ++ p :: post) = Returns val.
Proof.
  intros Hp Hpre Hpost. pose proof (race_winner now pre post p Hpre Hpost) as Hr.
  destruct (pre ++ p :: post) as [|x rest] eqn:E; [now destruct pre|].
  cbn [any]. now rewrite Hr, Hp.
Qed.

Lemma any_takes_the_first_to_complete_witness :
  any 0 [Promise.mk 40 (Promise.Fulfilled (true, Some RPCProtocol.Stored));
         Promise.mk 30 (Promise.Fulfilled (false, None))]
  = Returns (false, None).
Proof.
  apply (any_takes_the_first_to_complete 0
           [Promise.mk 40 (Promise.Fulfilled (true, Some RPCProtocol.Stored))] []
           (Promise.mk 30 (Promise.Fulfilled (false, None)))).
  - reflexivity.
  - intros q Hq. apply list_elem_of_singleton in Hq. subst q. simpl. lia.
  - intros q Hq. inversion Hq.
Defined.

(** X23. [any] drops the first promise of the array, not the one that was
    rejected.  When the last store is rejected before any of the others has
    completed, every other store is dropped in turn and [any] stays pending
    for ever, however the other stores end. *)
Theorem any_loses_the_stores_ahead_of_a_rejection (now : nat) (pre : list Promise.t)
    (r : Promise.t) :
  Promise.how r = Promise.Rejected ->
  (forall q, q ∈ pre -> (Nat.max (Promise.instant r) now < Promise.instant q)%nat) ->
  any now (pre ++ [r]) = NeverSettles.
Proof.
  intros Hr. revert now. induction pre as [|q pre IH]; intros now Hpre.
  - cbn [app any Promise.race]. now rewrite Hr.
  - assert (Hrace : Promise.race now ((q :: pre) ++ [r])
                    = Some (Nat.max (Promise.instant r) now, Promise.how r)).
    { apply race_winner; [|intros x Hx; inversion Hx].
      intros x Hx. specialize (Hpre x Hx). lia. }
    cbn [app] in *. cbn [any]. rewrite Hrace, Hr. apply IH.
    intros x Hx. specialize (Hpre x (list_elem_of_further _ _ _ Hx)). lia.
Qed.

Lemma any_loses_the_stores_ahead_of_a_rejection_witness :
  any 0 [Promise.mk 40 (Promise.Fulfilled (true, Some RPCProtocol.Stored));
         Promise.mk 30 Promise.Rejected]
  = NeverSettles.
Proof.
  apply (any_loses_the_stores_ahead_of_a_rejection 0
           [Promise.mk 40 (Promise.Fulfilled (true, Some RPCProtocol.Stored))]
           (Promise.mk 30 Promise.Rejected)).
  - reflexivity.
  - intros q Hq. apply list_elem_of_singleton in Hq. subst q. simpl. lia.
Defined.

Lemma fold_max_ge (l : list Z) (x : Z) : x <= fold_left Z.max l x.
Proof.
  revert x. induction l as [|y l IH]; intros x; simpl; [lia|].
  etransitivity; [|apply IH]. lia.
Qed.

Lemma fold_max_in (l : list Z) (x : Z) : fold_left Z.max l x ∈ x :: l.
Proof.
  revert x. induction l as [|y l IH]; intros x; simpl; [apply list_elem_of_here|].
  specialize (IH (Z.max x y)). apply elem_of_cons in IH as [IH|IH].
  - rewrite IH. destruct (Z.max_spec x y) as [[_ ->]|[_ ->]];
      [apply list_elem_of_further|]; apply list_elem_of_here.
  - now do 2 apply list_elem_of_further.
Qed.

Lemma fold_max_upper (l : list Z) (x y : Z) : y ∈ x :: l -> y <= fold_left Z.max l x.
Proof.
  revert x. induction l as [|z l IH]; intros x Hy; simpl.
  - apply list_elem_of_singleton in Hy. lia.
  - apply elem_of_cons in Hy as [->|Hy].
    + etransitivity; [|apply fold_max_ge]. lia.
    + apply elem_of_cons in Hy as [->|Hy].
      * etransitivity; [|apply fold_max_ge]. lia.
      * apply IH. now apply list_elem_of_further.
Qed.

Lemma lt_biggest_spec (d : Z) (distances : list Z) :
  lt_biggest d distances = true <-> exists x, x ∈ distances /\ d < x.
Proof.
  unfold lt_biggest. destruct distances as [|x rest].
  - split; [discriminate|]. intros (y & Hy & _). inversion Hy.
  - rewrite Z.ltb_lt. split.
    + intros H. exists (fold_left Z.max rest x). split; [apply fold_max_in|exact H].
    + intros (y & Hy & Hlt). pose proof (fold_max_upper rest x y Hy). lia.
Qed.

(** X24. [set_digest], once the crawl has returned its nodes: the value is put
    in the storage of this server when one of these nodes is strictly
    farther from the key than this server is, and the storage is left as it
    is otherwise, in particular when the crawl returns no node; with no
    neighbour for the key nothing is stored anywhere. *)
Theorem set_digest_stores_here_when_closer (fuel : nat) (now : Z) (srv : t)
    (network : Node.t -> RPCProtocol.outcome) (stores : Node.t -> Promise.t)
    (dkey : Z) (value : Buffer) :
  let st := protocol srv in
  let me := KademliaProtocol.sourceNode st in
  let key := Node.mk dkey None None in
  forall nearest rt1,
    RoutingTable.findNeighbors now (KademliaProtocol.router st) key None None
    = Ok (nearest, rt1) ->
    (nearest = [] ->
       set_digest fuel now srv network stores dkey value
       = (ReturnsFalse, KademliaProtocol.storage st))
    /\ forall nodes,
         nearest <> [] ->
         NodeSpiderCrawl.find fuel network
           (NodeSpiderCrawl.create key nearest (ksize srv) (alpha srv)) = Ok nodes ->
         ((exists n, n ∈ nodes /\ Node.distanceTo me key < Node.distanceTo n key) ->
            snd (set_digest fuel now srv network stores dkey value)
            = Storage.set now dkey value (KademliaProtocol.storage st))
         /\ ((forall n, n ∈ nodes -> Node.distanceTo n key <= Node.distanceTo me key) ->
               snd (set_digest fuel now srv network stores dkey value)
               = KademliaProtocol.storage st)
         /\ fst (set_digest fuel now srv network stores dkey value)
            = any 0 (List.map stores nodes).
Proof.
  intros st me key nearest rt1 Hf. subst st me key. split.
  - intros ->. unfold set_digest. now rewrite Hf.
  - intros nodes Hne Hfind. unfold set_digest. rewrite Hf.
    destruct nearest as [|x nearest]; [congruence|]. cbn [length Nat.eqb].
    rewrite Hfind. cbn [fst snd]. split; [|split; [|reflexivity]].
    + intros (n & Hn & Hlt).
      assert (Hb : lt_biggest
                     (Node.distanceTo (KademliaProtocol.sourceNode (protocol srv))
                        (Node.mk dkey None None))
                     (List.map (fun m => Node.distanceTo m (Node.mk dkey None None)) nodes)
                   = true).
      { apply lt_biggest_spec. exists (Node.distanceTo n (Node.mk dkey None None)).
        split; [|exact Hlt]. rewrite list_elem_of_In.
        apply (in_map (fun m => Node.distanceTo m (Node.mk dkey None None))).
        now apply list_elem_of_In. }
      now rewrite Hb.
    + intros Hall.
      assert (Hb : lt_biggest
                     (Node.distanceTo (KademliaProtocol.sourceNode (protocol srv))
                        (Node.mk dkey None None))
                     (List.map (fun m => Node.distanceTo m (Node.mk dkey None None)) nodes)
                   = false).
      { apply not_true_is_false. rewrite lt_biggest_spec. intros (y & Hy & Hlt).
        apply list_elem_of_In, in_map_iff in Hy as (n & <- & Hn).
        apply list_elem_of_In in Hn. specialize (Hall n Hn). lia. }
      now rewrite Hb.
Qed.

Lemma set_digest_stores_here_when_closer_witness :
  let n := Node.mk 5 (Some "10.0.0.1"%string) (Some 13001) in
  let me := Node.mk 8 None None in
  let rt := RoutingTable.mk me 8 [KBucket.mk (BN.of_Z 0, BN.of_Z (2 ^ 160)) [n] [] 0 8] in
  let st := KademliaProtocol.mk (RPCProtocol.create 5000) rt (Storage.create 20000) me in
  let answers := fun _ : Node.t => (true, Some (RPCProtocol.Nodes [])) : RPCProtocol.outcome in
  let stored := fun _ : Node.t => Promise.mk 30 (Promise.Fulfilled (true, Some RPCProtocol.Stored)) in
  snd (set_digest 16 1000 (mk 8 3 st) answers stored 9 [x68; x69]%byte)
  = Storage.set 1000 9 [x68; x69]%byte (Storage.create 20000).
Proof.
  intros n me rt st answers stored.
  destruct (set_digest_stores_here_when_closer 16 1000 (mk 8 3 st) answers stored 9
              [x68; x69]%byte [n]
              (RoutingTable.mk me 8 [KBucket.mk (BN.of_Z 0, BN.of_Z (2 ^ 160)) [n] [] 1000 8]))
    as (_ & H).
  - vm_compute. reflexivity.
  - destruct (H [n]) as (H1 & _).
    + discriminate.
    + vm_compute. reflexivity.
    + apply H1. exists n. split; [apply list_elem_of_here|]. vm_compute. reflexivity.
Defined.

End ServerMore.

(* ===================================================================== *)
(** * Datagrams and the crawl for a value *)
(* ===================================================================== *)

Module DatagramFacts.
Import Datagram.

Section Codec.
Variable body : Type.
Variable encode : body -> list Byte.byte.
Variable decode : list Byte.byte -> option body.

Lemma solve_frame (method : Byte.byte) (msgid : list Byte.byte) (data : body) :
  decode (encode data) = Some data -> length msgid = 20%nat -> encode data <> [] ->
  _solveDatagram body decode (frame body encode method msgid data)
  = match method with
    | x00%byte => AcceptRequest msgid data
    | x01%byte => AcceptResponse msgid data
    | _ => UnknownKind
    end.
Proof.
  intros Hd Hm He. unfold _solveDatagram, frame.
  assert (Hlen : (22 <= length ([method] ++ msgid ++ encode data))%nat).
  { rewrite !List.length_app, Hm. simpl. destruct (encode data); [congruence|simpl; lia]. }
  apply Nat.ltb_ge in Hlen. rewrite Hlen.
  change ([method] ++ msgid ++ encode data) with (method :: msgid ++ encode data).
  change (drop 21 (method :: msgid ++ encode data)) with (drop 20 (msgid ++ encode data)).
  change (drop 1 (method :: msgid ++ encode data)) with (msgid ++ encode data).
  rewrite drop_app_length' by (symmetry; exact Hm). rewrite take_app_length' by (symmetry; exact Hm).
  rewrite Hd. cbn [take]. now destruct method.
Qed.

(** X25. What [rpc] and [_acceptRequest] frame, [_solveDatagram] takes apart:
    with a codec that decodes what it encodes and never encodes to nothing,
    the answer to a message id of 20 bytes is passed to [_acceptResponse]
    with the same id and body, and a request that [rpc] sends (at most 512
    bytes) to [_acceptRequest]; a frame of another kind is ignored, and so
    is every datagram of less than 22 bytes. *)
Theorem framed_messages_are_dispatched (msgid : list Byte.byte) (data : body) :
  (forall x, decode (encode x) = Some x) -> (forall x, encode x <> []) ->
  length msgid = 20%nat ->
  _solveDatagram body decode (answer body encode msgid data) = AcceptResponse msgid data
  /\ (forall datagram, request body encode msgid data = Ok datagram ->
        (length datagram <= 512)%nat
        /\ _solveDatagram body decode datagram = AcceptRequest msgid data)
  /\ (forall method, method <> x00%byte -> method <> x01%byte ->
        _solveDatagram body decode (frame body encode method msgid data) = UnknownKind)
  /\ (forall datagram, (length datagram < 22)%nat ->
        _solveDatagram body decode datagram = TooSmall).
Proof.
  intros Hcodec Hne Hm. split; [|split; [|split]].
  - unfold answer. now rewrite solve_frame.
  - unfold request. intros datagram H.
    destruct (Nat.ltb_spec 512 (length (frame body encode x00%byte msgid data)));
      [discriminate|].
    injection H as <-. split; [assumption|]. now rewrite solve_frame.
  - intros method H0 H1. rewrite solve_frame by auto. now destruct method.
  - intros datagram H. unfold _solveDatagram. apply Nat.ltb_lt in H. now rewrite H.
Qed.

End Codec.

Lemma framed_messages_are_dispatched_witness :
  let encode := fun b : list Byte.byte => (xc4%byte :: b) in
  let decode := fun l : list Byte.byte =>
                  match l with xc4%byte :: b => Some b | _ => None end in
  _solveDatagram (list Byte.byte) decode
    (answer (list Byte.byte) encode (List.repeat x07%byte 20) [x68; x69]%byte)
  = AcceptResponse (List.repeat x07%byte 20) [x68; x69]%byte.
Proof.
  intros encode decode.
  apply (framed_messages_are_dispatched (list Byte.byte) encode decode
           (List.repeat x07%byte 20) [x68; x69]%byte).
  - reflexivity.
  - discriminate.
  - reflexivity.
Defined.

End DatagramFacts.

Module ValueCrawlFacts.
Import ValueSpiderCrawl ValueCrawlInv.

Lemma same_bytes_spec (a b : Buffer) : same_bytes a b = true <-> a = b.
Proof.
  revert b. induction a as [|x a IH]; intros [|y b]; simpl; try (split; congruence).
  rewrite andb_true_iff, IH. split.
  - intros [H ->]. apply Byte.byte_dec_bl in H. now subst.
  - intros H. injection H as -> ->. split; [now apply Byte.byte_dec_lb|reflexivity].
Qed.

Lemma same_bytes_refl (a : Buffer) : same_bytes a a = true.
Proof. now apply same_bytes_spec. Qed.

Lemma same_bytes_neq (a b : Buffer) : a <> b -> same_bytes a b = false.
Proof. intros H. apply not_true_is_false. now rewrite same_bytes_spec. Qed.

Lemma counter_get_set (key w : Buffer) (cnt : nat) (counter : list (Buffer * nat)) :
  counter_get w (counter_set key cnt counter)
  = if same_bytes key w then Some cnt else counter_get w counter.
Proof.
  unfold counter_get. induction counter as [|[k c] counter IH]; simpl.
  - destruct (same_bytes key w); reflexivity.
  - destruct (same_bytes k key) eqn:E; simpl.
    + apply same_bytes_spec in E. subst k. destruct (same_bytes key w); reflexivity.
    + destruct (same_bytes k w) eqn:E'; simpl.
      * apply same_bytes_spec in E'. subst k. now rewrite (same_bytes_neq key w) by
          (intros ->; now rewrite same_bytes_refl in E).
      * exact IH.
Qed.

Lemma occurrences_snoc (w val : Buffer) (l : list Buffer) :
  occurrences w (l ++ [val])
  = (occurrences w l + if same_bytes val w then 1 else 0)%nat.
Proof.
  unfold occurrences. rewrite count_occ_app. f_equal. simpl.
  destruct (List.list_eq_dec Byte.byte_eq_dec val w) as [->|Hne].
  - now rewrite same_bytes_refl.
  - now rewrite same_bytes_neq.
Qed.

Lemma tallied_count (l : list Buffer) (val : Buffer)
    (acc : (option Buffer * nat) * list (Buffer * nat)) :
  tallied l acc -> tallied (l ++ [val]) (count acc val).
Proof.
  destruct acc as [[m c] counter]. unfold tallied. cbn [fst snd].
  intros (Hcount & Hmax & Hm). unfold count.
  set (cnt := (default 0%nat (counter_get val counter) + 1)%nat).
  assert (Hcnt : cnt = occurrences val (l ++ [val])).
  { subst cnt. rewrite Hcount, occurrences_snoc, same_bytes_refl. reflexivity. }
  assert (Hget : forall w,
             default 0%nat (counter_get w (counter_set val cnt counter))
             = occurrences w (l ++ [val])).
  { intros w. rewrite counter_get_set, occurrences_snoc.
    destruct (same_bytes val w) eqn:E.
    - apply same_bytes_spec in E. subst w. cbn [default].
      rewrite Hcnt, occurrences_snoc, same_bytes_refl. reflexivity.
    - rewrite Hcount. lia. }
  assert (Hother : forall w, w <> val -> occurrences w (l ++ [val]) = occurrences w l).
  { intros w Hw. rewrite occurrences_snoc, same_bytes_neq by congruence. lia. }
  cbn [fst snd]. destruct (Nat.ltb_spec c cnt) as [Hlt|Hge]; cbn [fst snd].
  - split; [exact Hget|]. split.
    + intros w. destruct (List.list_eq_dec Byte.byte_eq_dec w val) as [->|Hne]; [lia|].
      rewrite (Hother w Hne). specialize (Hmax w). lia.
    + split; [|exact Hcnt]. apply elem_of_app. right. apply list_elem_of_here.
  - split; [exact Hget|]. split.
    + intros w. destruct (List.list_eq_dec Byte.byte_eq_dec w val) as [->|Hne]; [lia|].
      rewrite (Hother w Hne). apply Hmax.
    + destruct m as [v|].
      * destruct Hm as [Hin Hc]. split; [apply elem_of_app; now left|].
        destruct (List.list_eq_dec Byte.byte_eq_dec v val) as [->|Hne].
        { rewrite occurrences_snoc, same_bytes_refl in Hcnt. lia. }
        now rewrite (Hother v Hne).
      * destruct Hm as [-> ->]. lia.
Qed.

Lemma tallied_fold (values l : list Buffer)
    (acc : (option Buffer * nat) * list (Buffer * nat)) :
  tallied l acc -> tallied (l ++ values) (fold_left count values acc).
Proof.
  revert l acc. induction values as [|val values IH]; intros l acc H.
  - now rewrite app_nil_r.
  - cbn [fold_left]. replace (l ++ val :: values) with ((l ++ [val]) ++ values)
      by (now rewrite <- app_assoc).
    apply IH. now apply tallied_count.
Qed.

Lemma tallied_tally (values : list Buffer) : tallied values (tally values).
Proof.
  unfold tally. apply (tallied_fold values []).
  unfold tallied. cbn. split; [reflexivity|]. split; [intros; lia|]. now split.
Qed.

(** X26. [_handleFoundValues] picks a value found most often: the value it keeps
    is one of the values, no value occurs more often, and the count kept
    with it is the number of its occurrences.  (On no value at all,
    [most_common] stays [ [ undefined, 0 ] ].) *)
Theorem most_common_is_a_most_frequent_value (v0 : Buffer) (vs : list Buffer) :
  fst (tally []) = (None, 0%nat)
  /\ exists v,
       fst (tally (v0 :: vs)) = (Some v, occurrences v (v0 :: vs))
       /\ v ∈ v0 :: vs
       /\ forall w, (occurrences w (v0 :: vs) <= occurrences v (v0 :: vs))%nat.
Proof.
  split; [reflexivity|].
  destruct (tallied_tally (v0 :: vs)) as (_ & Hmax & Hm).
  destruct (tally (v0 :: vs)) as [[[v|] c] counter]; cbn [fst snd] in *.
  - destruct Hm as [Hin ->]. exists v. now split.
  - destruct Hm as [Hnil _]. discriminate.
Qed.

End ValueCrawlFacts.

Module ValueCrawlMore.
Import ValueSpiderCrawl ValueCrawlInv.

Lemma getNodeById_id (h : NodeHeap.t) (node_id : Z) (peer : Node.t) :
  NodeHeap.getNodeById h node_id = Some peer -> Node.id peer = node_id.
Proof.
  unfold NodeHeap.getNodeById. destruct (List.find _ _) as [e|] eqn:E; [|discriminate].
  intros H. injection H as <-. apply find_some in E as [_ E]. lia.
Qed.

Lemma popleft_in (h h' : NodeHeap.t) (peer : Node.t) :
  NodeHeap.popleft h = Ok (Some peer, h') -> exists e, e ∈ NodeHeap.heap h /\ snd e = peer.
Proof.
  unfold NodeHeap.popleft, Heapq.pop. destruct (0 <? NodeHeap.len h)%nat; [|discriminate].
  pose proof (merge_sort_Permutation (Heapq.before Utils.compare) (NodeHeap.heap h)) as Hp.
  destruct (merge_sort _ _) as [|x rest]; [discriminate|]. cbn.
  intros H. injection H as <- _. exists x. split; [|reflexivity].
  rewrite <- Hp. apply list_elem_of_here.
Qed.

Section Rounds.
Variable network : Node.t -> RPCProtocol.outcome.
Variable stores : Node.t -> Promise.t.

(** A value some node answered the crawl with. *)
Let sent (v : Buffer) : Prop :=
  exists p, network p = (true, Some (RPCProtocol.Value v)).

(** A node of an id that answered the crawl without a value. *)
Let lacking (n : Node.t) : Prop :=
  exists p, Node.id p = Node.id n
            /\ RPCFindResponse.happened (network p) = true
            /\ RPCFindResponse.getValue (network p) = None.

Lemma absorb_kept (responses : list (Z * RPCProtocol.outcome)) (h nwv h' nwv' : NodeHeap.t)
    (tr tr' : list Z) (fv fv' : list Buffer) :
  (forall r, r ∈ responses -> exists p, Node.id p = fst r /\ snd r = network p) ->
  (forall v, v ∈ fv -> sent v) ->
  (forall e, e ∈ NodeHeap.heap nwv -> lacking (snd e)) ->
  absorb responses h nwv tr fv = Ok (h', nwv', tr', fv') ->
  (forall v, v ∈ fv' -> sent v) /\ (forall e, e ∈ NodeHeap.heap nwv' -> lacking (snd e)).
Proof.
  revert h nwv tr fv. induction responses as [|[peerid response] rest IH];
    intros h nwv tr fv Hr Hfv Hnwv H.
  { cbn in H. injection H as _ <- _ <-. now split. }
  cbn [absorb] in H.
  assert (Hrest : forall r, r ∈ rest -> exists p, Node.id p = fst r /\ snd r = network p)
    by (intros r Hin; now apply Hr, list_elem_of_further).
  destruct (Hr _ (list_elem_of_here _ _)) as (p & Hpid & Hp). cbn [fst snd] in Hpid, Hp.
  destruct (negb (RPCFindResponse.happened response)) eqn:Hh;
    [now apply (IH _ _ _ _ Hrest Hfv Hnwv H)|].
  apply negb_false_iff in Hh.
  destruct (RPCFindResponse.getValue response) as [v|] eqn:Hv.
  - apply (IH _ _ _ _ Hrest) in H; [exact H| |exact Hnwv].
    intros w Hw. apply elem_of_app in Hw as [Hw|Hw]; [now apply Hfv|].
    apply list_elem_of_singleton in Hw. subst w. exists p. rewrite <- Hp.
    unfold RPCFindResponse.happened, RPCFindResponse.getValue in *.
    destruct response as [ok [[ns|v'|i| |ad|s]|]]; cbn [fst snd] in *; try discriminate.
    now injection Hv as ->; subst ok.
  - destruct (NodeHeap.getNodeById h peerid) as [peer|] eqn:Hg; [|discriminate].
    cbn [defined mbind result_bind] in H.
    destruct (RPCFindResponse.getNodeList response) as [l| |]; try discriminate.
    cbn [mbind result_bind] in H.
    apply (IH _ _ _ _ Hrest Hfv) in H; [exact H|].
    intros e He. cbn [NodeHeap.push fold_left] in He. unfold NodeHeap.push_one in He.
    destruct (NodeHeap.has nwv peer); [now apply Hnwv|].
    cbn [NodeHeap.heap] in He. unfold Heapq.push in He.
    apply elem_of_app in He as [He|He]; [now apply Hnwv|].
    apply list_elem_of_singleton in He. subst e. cbn [snd].
    exists p. apply getNodeById_id in Hg. rewrite <- Hp. split; [congruence|]. now split.
Qed.

Lemma value_find_kept (fuel : nat) (c : t) (call : option store_call) (value : option Buffer) :
  (forall e, e ∈ NodeHeap.heap (nearestWithoutValue c) -> lacking (snd e)) ->
  find fuel network stores c = Ok (call, value) ->
  match value with
  | None => call = None
  | Some v =>
      sent v
      /\ forall peer key val,
           call = Some (peer, key, val) ->
           key = Node.id (node c) /\ val = Some v /\ lacking peer
           /\ exists r, Promise.how (stores peer) = Promise.Fulfilled r
  end.
Proof.
  revert c. induction fuel as [|fuel IH]; intros c Hnwv H; [discriminate|].
  cbn [find] in H.
  set (uc := take _ (NodeHeap.getUncontacted (nearest c))) in H.
  destruct (absorb _ _ _ _ _) as [[[[pushed nwv] toremove] foundValues]| |] eqn:Ha;
    try discriminate.
  cbn [mbind result_bind] in H.
  apply absorb_kept in Ha as [Hfv Hnwv']; [| |intros v Hv; inversion Hv|exact Hnwv].
  2:{ intros r Hr. apply list_elem_of_In, in_map_iff in Hr as (p & <- & _). now exists p. }
  destruct (Nat.ltb_spec 0 (Utils.len foundValues)) as [Hlen|Hlen].
  - unfold _handleFoundValues in H. cbn [nearestWithoutValue node] in H.
    destruct (ValueCrawlFacts.tallied_tally foundValues) as (_ & _ & Hm).
    destruct (fst (fst (tally foundValues))) as [v|] eqn:Hv.
    2:{ destruct Hm as [-> _]. cbn in Hlen. lia. }
    destruct Hm as [Hin _].
    destruct (NodeHeap.popleft nwv) as [[[peer|] nwv1]| |] eqn:Hpop; try discriminate.
    + cbn [mbind result_bind] in H.
      destruct (Promise.how (stores peer)) as [r|] eqn:Hs; [|discriminate].
      injection H as <- <-. split; [now apply Hfv|].
      intros peer' key val Hc. injection Hc as <- <- <-.
      split; [reflexivity|]. split; [reflexivity|]. split; [|now exists r].
      apply popleft_in in Hpop as (e & He & <-). now apply Hnwv'.
    + cbn [mbind result_bind] in H. injection H as <- <-.
      split; [now apply Hfv|]. intros peer key val Hc. discriminate.
  - destruct (NodeHeap.allBeenContacted _).
    + now injection H as <- <-.
    + apply IH in H; [exact H|exact Hnwv'].
Qed.

(** X27. The crawl for a value, when it ends.  It returns [null] without any
    [callStore], or a value that a node sent in answer to it; in that case
    at most one [callStore] was made, with the key looked for and the value
    returned, to a node of an id that had answered without a value, and the
    call was fulfilled. *)
Theorem value_crawl_returns_a_sent_value (fuel k a : nat) (target : Node.t)
    (peers : list Node.t) (call : option store_call) (value : option Buffer) :
  find fuel network stores (create target peers k a) = Ok (call, value) ->
  match value with
  | None => call = None
  | Some v =>
      (exists p, network p = (true, Some (RPCProtocol.Value v)))
      /\ forall peer key val,
           call = Some (peer, key, val) ->
           key = Node.id target /\ val = Some v
           /\ (exists p, Node.id p = Node.id peer
                         /\ RPCFindResponse.happened (network p) = true
                         /\ RPCFindResponse.getValue (network p) = None)
           /\ exists r, Promise.how (stores peer) = Promise.Fulfilled r
  end.
Proof.
  intros H. apply value_find_kept in H; [exact H|].
  intros e He. inversion He.
Qed.

End Rounds.

Lemma value_crawl_returns_a_sent_value_witness :
  let n := Node.mk 5 (Some "10.0.0.1"%string) (Some 13001) in
  let m := Node.mk 12 (Some "10.0.0.2"%string) (Some 13002) in
  let network := fun p : Node.t =>
    if Node.id p =? 5 then (true, Some (RPCProtocol.Nodes [m]))
    else (true, Some (RPCProtocol.Value [x68; x69]%byte)) : RPCProtocol.outcome in
  let stores := fun _ : Node.t =>
    Promise.mk 30 (Promise.Fulfilled (true, Some RPCProtocol.Stored)) in
  find 16 network stores (create (Node.mk 9 None None) [n] 8 3)
  = Ok (Some (n, 9, Some [x68; x69]%byte), Some [x68; x69]%byte)
  /\ exists p, network p = (true, Some (RPCProtocol.Value [x68; x69]%byte)).
Proof.
  intros n m network stores. split; [vm_compute; reflexivity|].
  pose proof (value_crawl_returns_a_sent_value network stores 16 8 3 (Node.mk 9 None None) [n]
                (Some (n, 9, Some [x68; x69]%byte)) (Some [x68; x69]%byte)) as H.
  cbv beta iota in H. apply H. vm_compute. reflexivity.
Defined.

End ValueCrawlMore.

(* ===================================================================== *)
(** * Server.get and round trips of the routing table *)
(* ===================================================================== *)

Module ServerGetFacts.
Import Server.

Lemma cull_again (clock now : Z) (s : Storage.t) :
  Storage.inv clock s -> Storage.cull now (Storage.cull now s) = Storage.cull now s.
Proof.
  intros Hi.
  rewrite (StorageFacts.cull_eq clock now (Storage.cull now s))
    by now apply StorageFacts.inv_cull.
  rewrite (StorageFacts.cull_eq clock now s Hi). cbn [Storage.ttl Storage.entries]. f_equal.
  rewrite StorageMore.filter_twice. apply List.filter_ext. intros e.
  now destruct (Storage.expired _ _ e).
Qed.

Lemma get_culled (clock now key : Z) (s : Storage.t) :
  Storage.inv clock s ->
  Storage.get now key (Storage.cull now s) = Storage.get now key s.
Proof. intros Hi. unfold Storage.get. now rewrite (cull_again clock). Qed.

Lemma get_snd (now key : Z) (s : Storage.t) : snd (Storage.get now key s) = Storage.cull now s.
Proof. unfold Storage.get. now destruct (Storage.has key (Storage.cull now s)). Qed.

(** X28. [get(key)] reads the storage of the server first: a value found there
    is returned without a crawl.  Otherwise, with no neighbour for the key
    the call returns [null], and a value returned was sent by a node in
    answer to the crawl.  The call never writes the storage: it is left as
    [cull] makes it, also when a value came from the network. *)
Theorem get_reads_the_local_store_first (fuel : nat) (clock now : Z) (srv : t)
    (network : Node.t -> RPCProtocol.outcome) (stores : Node.t -> Promise.t) (dkey : Z) :
  Storage.inv clock (KademliaProtocol.storage (protocol srv)) ->
  let s := KademliaProtocol.storage (protocol srv) in
  let out := get_digest fuel now srv network stores dkey in
  snd out = Storage.cull now s
  /\ (forall v, fst (Storage.get now dkey s) = Some v -> fst out = Ok (None, Some v))
  /\ (fst (Storage.get now dkey s) = None ->
        (forall rt1,
            RoutingTable.findNeighbors now (KademliaProtocol.router (protocol srv))
              (Node.mk dkey None None) None None = Ok ([], rt1) ->
            fst out = Ok (None, None))
        /\ forall call v,
             fst out = Ok (call, Some v) ->
             exists p, network p = (true, Some (RPCProtocol.Value v))).
Proof.
  intros Hi s out. subst out. unfold get_digest. fold s.
  pose proof (get_snd now dkey s) as Hs.
  destruct (Storage.get now dkey s) as [[v|] s1] eqn:Hg; cbn [fst snd] in *; subst s1.
  - pose proof (get_culled clock now dkey s Hi) as Hc. rewrite Hg in Hc. rewrite Hc.
    cbn [fst snd]. split; [reflexivity|]. split; [|discriminate].
    intros v' Hv. now injection Hv as <-.
  - destruct (RoutingTable.findNeighbors _ _ _ _ _) as [[nearest rt1]| |] eqn:Hf;
      cbn [fst snd].
    + destruct nearest as [|x nearest]; cbn [length Nat.eqb fst snd].
      * split; [reflexivity|]. split; [discriminate|]. intros _. split; [reflexivity|].
        discriminate.
      * split; [reflexivity|]. split; [discriminate|]. intros _. split; [discriminate|].
        intros call v Hfind.
        apply (ValueCrawlMore.value_find_kept network stores) in Hfind as [Hsent _];
          [exact Hsent|].
        intros e He. inversion He.
    + split; [reflexivity|]. split; [discriminate|]. intros _. split; discriminate.
    + split; [reflexivity|]. split; [discriminate|]. intros _. split; discriminate.
Qed.

Lemma get_reads_the_local_store_first_witness :
  let me := Node.mk 12345 None None in
  let s := Storage.set 0 9 [x68; x69]%byte (Storage.create 20000) in
  let st := KademliaProtocol.mk (RPCProtocol.create 5000) (RoutingTable.create 0 8 me) s me in
  let silent := fun _ : Node.t => (false, None) : RPCProtocol.outcome in
  let stored := fun _ : Node.t =>
    Promise.mk 30 (Promise.Fulfilled (true, Some RPCProtocol.Stored)) in
  fst (get_digest 16 1000 (mk 8 3 st) silent stored 9) = Ok (None, Some [x68; x69]%byte).
Proof.
  intros me s st silent stored.
  destruct (get_reads_the_local_store_first 16 0 1000 (mk 8 3 st) silent stored 9)
    as (_ & H & _).
  - cbn [protocol KademliaProtocol.storage]. subst s.
    apply (StorageFacts.inv_set 0); [lia|apply StorageFacts.inv_create].
  - apply H. vm_compute. reflexivity.
Defined.

End ServerGetFacts.

Module RoutingRoundTrips.
Import RoutingTable.

(** X29. A lookup refreshes the bucket it starts in, and no other: until an hour
    has passed since [findNeighbors], the lonely buckets are the lonely ones
    among the other buckets, as they were. *)
Theorem lookup_refreshes_the_start_bucket (now now' : Z) (rt rt1 : t) (target : Node.t)
    (k : option nat) (exclude : option Node.t) (l : list Node.t) :
  findNeighbors now rt target k exclude = Ok (l, rt1) ->
  now' - 3600000 <= now ->
  exists index b,
    getBucketFor rt target = Some index /\ buckets rt !! index = Some b
    /\ buckets rt1 = <[index := KBucket.touchLastUpdated now b]> (buckets rt)
    /\ getLonelyBuckets now' rt1
       = List.filter (fun b => KBucket.lastUpdated b <? now' - 3600000)
           (take index (buckets rt) ++ drop (S index) (buckets rt)).
Proof.
  intros Hf Hnow. pose proof (RoutingMore.findNeighbors_reaches _ _ _ _ _ _ _ Hf) as Hreach.
  destruct (RoutingFacts.findNeighbors_defined now rt target k exclude Hreach)
    as (index & b & Hi & Hb & Hd).
  rewrite Hd in Hf. cbv zeta in Hf. injection Hf as _ <-.
  exists index, b. split; [exact Hi|]. split; [exact Hb|]. split; [reflexivity|].
  unfold getLonelyBuckets. cbn [buckets with_buckets].
  rewrite insert_take_drop by (eapply lookup_lt_Some; eauto).
  rewrite !List.filter_app. cbn [List.filter KBucket.lastUpdated KBucket.touchLastUpdated].
  destruct (Z.ltb_spec now (now' - 3600000)); [lia|reflexivity].
Qed.

Lemma lookup_refreshes_the_start_bucket_witness :
  let me := Node.mk 12345 None None in
  exists rt1,
    findNeighbors 5000000 (create 0 8 me) (Node.mk 9 None None) None None = Ok ([], rt1)
    /\ getLonelyBuckets 4000000 (create 0 8 me) = buckets (create 0 8 me)
    /\ getLonelyBuckets 8600000 rt1 = [].
Proof.
  intros me.
  exists (mk me 8 [KBucket.mk (BN.of_Z 0, BN.of_Z (2 ^ 160)) [] [] 5000000 8]).
  split; [vm_compute; reflexivity|]. split; [reflexivity|].
  destruct (lookup_refreshes_the_start_bucket 5000000 8600000 (create 0 8 me)
              (mk me 8 [KBucket.mk (BN.of_Z 0, BN.of_Z (2 ^ 160)) [] [] 5000000 8])
              (Node.mk 9 None None) None None [])
    as (index & b & Hi & _ & _ & H).
  - vm_compute. reflexivity.
  - lia.
  - rewrite H. vm_compute in Hi. injection Hi as <-. reflexivity.
Defined.

Lemma map_insert {A B : Type} (f : A -> B) (l : list A) (i : nat) (x : A) :
  List.map f (<[i := x]> l) = <[i := f x]> (List.map f l).
Proof.
  revert i. induction l as [|y l IH]; intros [|i]; simpl; try reflexivity. now rewrite IH.
Qed.

Lemma nodes_delete_snoc (n : Node.t) (m : list Node.t) :
  KBucket.nodes_has (Node.id n) m = false ->
  KBucket.nodes_delete (Node.id n) (m ++ [n]) = m.
Proof.
  intros H. unfold KBucket.nodes_delete. rewrite List.filter_app. cbn [List.filter].
  rewrite Z.eqb_refl. cbn [negb]. rewrite app_nil_r.
  now apply KBucketFacts.nodes_delete_fresh.
Qed.

(** X30. A contact that went into a bucket with room and no replacement waiting
    is known to the table afterwards, and [removeContact] of it gives the
    table back as it was. *)
Theorem addContact_then_removeContact (fuel : nat) (now : Z) (rt : t) (n : Node.t)
    (index : nat) (b : KBucket.t) :
  bucketFor rt n = Ok (index, b) ->
  KBucket.isNewNode b n = true ->
  (KBucket.len b < KBucket.ksize b)%nat ->
  KBucket.replacementNodes b = [] ->
  exists rt1,
    addContact (S fuel) now rt n = Ok (rt1, [])
    /\ isNewNode rt1 n = Ok false
    /\ removeContact rt1 n = Ok rt.
Proof.
  intros Hbf Hnew Hlen Hrep.
  pose proof (ProtocolFacts.addContact_room fuel now rt n index b Hbf Hnew Hlen) as Hadd.
  apply RoutingMore.bucketFor_inv in Hbf as (Hi & Hb & _).
  set (b1 := KBucket.with_nodes b (KBucket.nodes b ++ [n])) in *.
  set (rt1 := with_buckets rt (<[index := b1]> (buckets rt))) in *.
  assert (Hlt : (index < length (buckets rt))%nat) by (eapply lookup_lt_Some; eauto).
  assert (Hbf1 : bucketFor rt1 n = Ok (index, b1)).
  { unfold bucketFor, getBucketFor. subst rt1. cbn [buckets with_buckets].
    rewrite (RoutingFacts.first_reaching_same_ranges _ _ (buckets rt)).
    - unfold getBucketFor in Hi. rewrite Hi. cbn.
      now rewrite list_lookup_insert_eq.
    - rewrite map_insert. apply list_insert_id.
      rewrite RoutingFacts.lookup_map, Hb. reflexivity. }
  exists rt1. split; [exact Hadd|]. unfold KBucket.isNewNode in Hnew.
  apply negb_true_iff in Hnew. split.
  - unfold isNewNode. rewrite Hbf1. cbn. unfold KBucket.isNewNode. subst b1.
    cbn [KBucket.nodes KBucket.with_nodes]. f_equal. apply negb_false_iff.
    apply RoutingFacts.nodes_has_spec. rewrite List.map_app, elem_of_app. right.
    apply list_elem_of_here.
  - unfold removeContact. rewrite Hbf1. cbn [mbind result_bind]. f_equal.
    assert (Hrm : KBucket.removeNode b1 n = b).
    { unfold KBucket.removeNode. subst b1. cbn [KBucket.nodes KBucket.with_nodes
        KBucket.replacementNodes KBucket.range KBucket.lastUpdated KBucket.ksize].
      assert (Hh : KBucket.nodes_has (Node.id n) (KBucket.nodes b ++ [n]) = true).
      { apply RoutingFacts.nodes_has_spec. rewrite List.map_app, elem_of_app. right.
        apply list_elem_of_here. }
      rewrite Hh, Hrep. cbn [negb OrderedSet.pop KBucket.with_nodes KBucket.range
        KBucket.replacementNodes KBucket.lastUpdated KBucket.ksize].
      rewrite (nodes_delete_snoc n _ Hnew). destruct b. cbn in *. now subst. }
    rewrite Hrm. subst rt1. cbn [buckets with_buckets node ksize].
    rewrite list_insert_insert_eq, (list_insert_id _ _ _ Hb). now destruct rt.
Qed.

Lemma addContact_then_removeContact_witness :
  let me := Node.mk 12345 None None in
  let n := Node.mk 5 (Some "10.0.0.1"%string) (Some 13001) in
  exists rt1,
    addContact 1 1000 (create 0 8 me) n = Ok (rt1, [])
    /\ removeContact rt1 n = Ok (create 0 8 me).
Proof.
  intros me n.
  destruct (addContact_then_removeContact 0 1000 (create 0 8 me) n 0
              (KBucket.create 0 (BN.of_Z 0) (BN.of_Z (2 ^ 160)) 8))
    as (rt1 & H1 & _ & H2).
  - vm_compute. reflexivity.
  - reflexivity.
  - cbn. lia.
  - reflexivity.
  - now exists rt1.
Defined.

End RoutingRoundTrips.

(* ===================================================================== *)
(** * Timeouts and the routing table *)
(* ===================================================================== *)

Module TimeoutFacts.
Import KademliaProtocol.

Lemma holds_spec (rt : RoutingTable.t) (i : Z) :
  RoutingTable.holds rt i
  <-> existsb (fun b => KBucket.nodes_has i (KBucket.nodes b)) (RoutingTable.buckets rt) = true.
Proof.
  unfold RoutingTable.holds. rewrite existsb_exists. split.
  - intros (b & Hb & Hi). exists b. split; [now apply list_elem_of_In|].
    now apply RoutingFacts.nodes_has_spec.
  - intros (b & Hb & Hi). exists b. split; [now apply list_elem_of_In|].
    now apply RoutingFacts.nodes_has_spec.
Qed.

Lemma pop_some_snoc (s rest : OrderedSet.t) (r : Node.t) :
  OrderedSet.pop s = (Some r, rest) -> s = rest ++ [r].
Proof.
  unfold OrderedSet.pop. destruct s as [|x s']; [discriminate|].
  intros H. injection H as <- <-.
  rewrite (app_removelast_last x) at 1 by discriminate. f_equal. f_equal.
  destruct s'; reflexivity.
Qed.

Lemma nodes_set_elem (r m : Node.t) (l : list Node.t) :
  m ∈ KBucket.nodes_set (Node.id r) r l -> m = r \/ m ∈ l.
Proof.
  induction l as [|x l IH]; simpl.
  - intros H. apply list_elem_of_singleton in H. now left.
  - destruct (Node.id x =? Node.id r); intros H; apply elem_of_cons in H as [->|H].
    + now left.
    + right. now apply list_elem_of_further.
    + right. apply list_elem_of_here.
    + destruct (IH H) as [->|Hl]; [now left|right; now apply list_elem_of_further].
Qed.

Lemma nodes_delete_elem (id0 : Z) (m : Node.t) (l : list Node.t) :
  m ∈ KBucket.nodes_delete id0 l -> m ∈ l /\ Node.id m <> id0.
Proof.
  unfold KBucket.nodes_delete. rewrite !list_elem_of_In, filter_In, negb_true_iff, Z.eqb_neq.
  tauto.
Qed.

(** After [removeNode(node)] only the replacement node that was popped can
    carry the id of [node]. *)
Lemma removeNode_leaves (b : KBucket.t) (n m : Node.t) :
  m ∈ KBucket.nodes (KBucket.removeNode b n) -> Node.id m = Node.id n ->
  exists rest, KBucket.replacementNodes b = rest ++ [m].
Proof.
  unfold KBucket.removeNode.
  destruct (KBucket.nodes_has (Node.id n) (KBucket.nodes b)) eqn:Hhas; cbn [negb].
  - destruct (OrderedSet.pop (KBucket.replacementNodes b)) as [[r|] rest] eqn:Hpop;
      cbn [KBucket.nodes KBucket.with_nodes]; intros Hm Hid.
    + apply nodes_set_elem in Hm as [->|Hm].
      * exists rest. now apply pop_some_snoc.
      * apply nodes_delete_elem in Hm as [_ Hne]. contradiction.
    + apply nodes_delete_elem in Hm as [_ Hne]. contradiction.
  - intros Hm Hid. exfalso.
    assert (Hin : Node.id n ∈ List.map Node.id (KBucket.nodes b)).
    { rewrite <- Hid. apply list_elem_of_In, in_map. now apply list_elem_of_In. }
    apply RoutingFacts.nodes_has_spec in Hin. congruence.
Qed.

(** [removeNode(node)] keeps the other ids of the bucket. *)
Lemma removeNode_keeps (b : KBucket.t) (n : Node.t) (i : Z) :
  i <> Node.id n -> i ∈ List.map Node.id (KBucket.nodes b) ->
  i ∈ List.map Node.id (KBucket.nodes (KBucket.removeNode b n)).
Proof.
  intros Hne Hi. unfold KBucket.removeNode.
  destruct (KBucket.nodes_has (Node.id n) (KBucket.nodes b)); cbn [negb]; [|exact Hi].
  assert (Hd : i ∈ List.map Node.id (KBucket.nodes_delete (Node.id n) (KBucket.nodes b))).
  { rewrite KBucketFacts.nodes_delete_ids. apply list_elem_of_In, filter_In.
    split; [now apply list_elem_of_In|]. apply negb_true_iff, Z.eqb_neq. exact Hne. }
  destruct (OrderedSet.pop (KBucket.replacementNodes b)) as [[r|] rest];
    cbn [KBucket.nodes KBucket.with_nodes]; [|exact Hd].
  rewrite KBucketFacts.nodes_set_ids.
  destruct (KBucket.nodes_has (Node.id r) _); [exact Hd|].
  apply elem_of_app. now left.
Qed.

Lemma removeContact_eq (rt rt1 : RoutingTable.t) (n : Node.t) :
  RoutingTable.removeContact rt n = Ok rt1 ->
  exists index b,
    RoutingTable.getBucketFor rt n = Some index
    /\ RoutingTable.buckets rt !! index = Some b
    /\ rt1 = RoutingTable.with_buckets rt
               (<[index := KBucket.removeNode b n]> (RoutingTable.buckets rt)).
Proof.
  unfold RoutingTable.removeContact.
  destruct (RoutingTable.bucketFor rt n) as [[index b]| |] eqn:Hb; try discriminate.
  simpl. intros H. injection H as <-.
  apply RoutingMore.bucketFor_inv in Hb as (Hg & Hl & _). now exists index, b.
Qed.

(** When the id of the contact is held where [getBucketFor] looks for it,
    after [removeContact] only the replacement node popped from that bucket
    can carry the id. *)
Lemma removeContact_leaves (rt rt1 : RoutingTable.t) (n m : Node.t) (b' : KBucket.t) :
  RoutingTable.removeContact rt n = Ok rt1 ->
  RoutingTable.held_where_mapped rt (Node.id n) ->
  b' ∈ RoutingTable.buckets rt1 -> m ∈ KBucket.nodes b' -> Node.id m = Node.id n ->
  exists j b rest,
    RoutingTable.getBucketFor rt n = Some j
    /\ RoutingTable.buckets rt !! j = Some b
    /\ KBucket.replacementNodes b = rest ++ [m].
Proof.
  intros Hrm Hheld Hb' Hm Hid.
  destruct (removeContact_eq rt rt1 n Hrm) as (index & b & Hg & Hl & ->).
  cbn [RoutingTable.buckets RoutingTable.with_buckets] in Hb'.
  apply list_elem_of_lookup in Hb' as [i Hi].
  destruct (Nat.eq_dec i index) as [->|Hne].
  - rewrite list_lookup_insert_eq in Hi by (now apply lookup_lt_Some in Hl).
    injection Hi as <-. destruct (removeNode_leaves b n m Hm Hid) as [rest Hrest].
    now exists index, b, rest.
  - rewrite list_lookup_insert_ne in Hi by congruence. exfalso.
    assert (Hin : Node.id n ∈ List.map Node.id (KBucket.nodes b')).
    { rewrite <- Hid. apply list_elem_of_In, in_map. now apply list_elem_of_In. }
    pose proof (Hheld i b' Hi Hin) as Hfirst.
    unfold RoutingTable.getBucketFor in Hg. congruence.
Qed.

(** [removeContact] keeps the other ids of the table. *)
Lemma removeContact_keeps (rt rt1 : RoutingTable.t) (n : Node.t) (i : Z) :
  RoutingTable.removeContact rt n = Ok rt1 ->
  i <> Node.id n -> RoutingTable.holds rt i -> RoutingTable.holds rt1 i.
Proof.
  intros Hrm Hne (b0 & Hb0 & Hi).
  destruct (removeContact_eq rt rt1 n Hrm) as (index & b & Hg & Hl & ->).
  apply list_elem_of_lookup in Hb0 as [k Hk].
  unfold RoutingTable.holds. cbn [RoutingTable.buckets RoutingTable.with_buckets].
  destruct (Nat.eq_dec k index) as [->|Hk'].
  - assert (b0 = b) by congruence. subst b0.
    exists (KBucket.removeNode b n). split; [|now apply removeNode_keeps].
    apply (list_elem_of_lookup_2 _ index).
    apply list_lookup_insert_eq. now apply lookup_lt_Some in Hl.
  - exists b0. split; [|exact Hi].
    apply (list_elem_of_lookup_2 _ k). now rewrite list_lookup_insert_ne by congruence.
Qed.

Section TimerFires.
Variable digest : Z -> Z.

(** C5, as the code has it.  An RPC whose pending entry is registered and
    whose promise is still pending, when its timer fires: the promise is
    resolved with [ [ false, null ] ], once; the entry is removed and the
    timer is spent.  When the RPC was made through [callFindNode],
    [callFindValue], [callPing] or [callStore], [removeContact] then runs on
    the contact; if the id of the contact is held only where [getBucketFor]
    looks for it, no node of the table carries the id afterwards, other than
    the replacement node popped from that bucket to take the place, and so
    none at all when no replacement node carries it; the other ids of the
    table stay.  For any other caller the table is left as it is.  A
    response arriving afterwards changes nothing.  Had the response arrived
    first, the promise would have been resolved once with [ [ true, data ] ],
    the entry removed and the timer cleared. *)
Theorem timeout_resolves_once (fuel : nat) (now msgid : Z) (st : t)
    (who : RPCProtocol.awaiter) :
  RPCProtocol._outstanding (rpc st) !! msgid = Some who ->
  RPCProtocol.completions msgid (rpc st) = 0%nat ->
  (forall n, who = RPCProtocol.ViaCall n -> RoutingTable.reaches (router st) (Node.id n)) ->
  exists st1,
    timerFires digest fuel now msgid st = ([], Ok st1)
    /\ RPCProtocol.resolved (rpc st1)
       = RPCProtocol.resolved (rpc st) ++ [(msgid, (false, None))]
    /\ RPCProtocol.completions msgid (rpc st1) = 1%nat
    /\ RPCProtocol._outstanding (rpc st1) !! msgid = None
    /\ (msgid ∉ RPCProtocol.timers (rpc st1))
    /\ (match who with
        | RPCProtocol.ViaCall n =>
            RoutingTable.removeContact (router st) n = Ok (router st1)
            /\ (RoutingTable.held_where_mapped (router st) (Node.id n) ->
                (forall b' m,
                    b' ∈ RoutingTable.buckets (router st1) -> m ∈ KBucket.nodes b' ->
                    Node.id m = Node.id n ->
                    exists j b rest,
                      RoutingTable.getBucketFor (router st) n = Some j
                      /\ RoutingTable.buckets (router st) !! j = Some b
                      /\ KBucket.replacementNodes b = rest ++ [m])
                /\ ((forall b r, b ∈ RoutingTable.buckets (router st) ->
                                 r ∈ KBucket.replacementNodes b -> Node.id r <> Node.id n) ->
                    ~ RoutingTable.holds (router st1) (Node.id n)))
            /\ (forall i, i <> Node.id n -> RoutingTable.holds (router st) i ->
                          RoutingTable.holds (router st1) i)
        | RPCProtocol.Plain _ => router st1 = router st
        end)
    /\ (forall fuel' now' data,
          responseArrives digest fuel' now' msgid data st1 = ([], Ok st1))
    /\ (forall data,
          let p1 := fst (RPCProtocol._acceptResponse msgid data (rpc st)) in
          RPCProtocol.resolved p1
          = RPCProtocol.resolved (rpc st) ++ [(msgid, (true, Some data))]
          /\ RPCProtocol.completions msgid p1 = 1%nat
          /\ RPCProtocol._outstanding p1 !! msgid = None
          /\ (msgid ∉ RPCProtocol.timers p1)
          /\ forall data', RPCProtocol._acceptResponse msgid data' p1 = (p1, None)).
Proof.
  intros Hout Hzero Hreach.
  destruct (ProtocolFacts.timer_fires_once digest fuel now msgid st who Hout Hzero Hreach)
    as (st1 & Hfire & Hres & Hone & Hgone & Htimer & Hrt & Hlate & Hresp).
  exists st1. do 5 (split; [assumption|]). split; [|split; assumption].
  destruct who as [n|a]; [|exact Hrt].
  split; [exact Hrt|]. split.
  - intros Hheld.
    assert (Hleaves : forall b' m,
               b' ∈ RoutingTable.buckets (router st1) -> m ∈ KBucket.nodes b' ->
               Node.id m = Node.id n ->
               exists j b rest,
                 RoutingTable.getBucketFor (router st) n = Some j
                 /\ RoutingTable.buckets (router st) !! j = Some b
                 /\ KBucket.replacementNodes b = rest ++ [m]).
    { intros b' m. now apply removeContact_leaves. }
    split; [exact Hleaves|].
    intros Hnone (b' & Hb' & Hin).
    apply list_elem_of_In, in_map_iff in Hin as (m & Hid & Hm).
    apply list_elem_of_In in Hm.
    destruct (Hleaves b' m Hb' Hm Hid) as (j & b & rest & _ & Hl & Hrest).
    apply (Hnone b m); [now apply list_elem_of_lookup_2 in Hl| |exact Hid].
    rewrite Hrest. apply elem_of_app. right. apply list_elem_of_here.
  - intros i. now apply removeContact_keeps.
Qed.

End TimerFires.

(** A table holding the contact of id 5, and a [store] sent to it through
    [callStore] under the message id 77, registered and timed out: the
    promise is resolved with [ [ false, null ] ] and the table holds no
    contact of id 5 any more. *)
Lemma timeout_resolves_once_witness :
  let n := Scenario.contactAt 5 in
  let me := Node.mk 12345 None None in
  let p := RPCProtocol.sent 77 (RPCProtocol.ViaCall n)
             (RPCProtocol.mk 5000 ∅ {[ 77 ]} []) in
  let st := mk p (Scenario.tableOf 12345 [5]) (Storage.create 20000) me in
  RoutingTable.holds (router st) 5
  /\ exists st1,
       timerFires (fun k => k) 8 6000 77 st = ([], Ok st1)
       /\ RPCProtocol.resolved (rpc st1) = [(77, (false, None))]
       /\ ~ RoutingTable.holds (router st1) 5.
Proof.
  intros n me p st. split.
  { eexists. split; [apply list_elem_of_here|]. vm_compute. apply list_elem_of_here. }
  destruct (timeout_resolves_once (fun k => k) 8 6000 77 st (RPCProtocol.ViaCall n))
    as (st1 & Hfire & Hres & _ & _ & _ & (_ & Hrm & _) & _ & _).
  - reflexivity.
  - reflexivity.
  - intros n0 Hn0. injection Hn0 as <-. eexists. split; [apply list_elem_of_here|].
    vm_compute. reflexivity.
  - exists st1. split; [exact Hfire|]. split; [exact Hres|].
    apply Hrm.
    + intros j b Hj _. destruct j as [|j]; [reflexivity|]. destruct j; discriminate.
    + intros b r Hb Hr. vm_compute in Hb. apply list_elem_of_singleton in Hb. subst b.
      inversion Hr.
Defined.

(** C5 as stated fails in three ways.
    - For an RPC made with the method itself: the [ping] that
      [bootstrap_node] sends to the address of the contact of id 5 times
      out; the promise is resolved with [ [ false, null ] ] and the entry is
      removed, but the table is left as it is and still holds the contact.
    - For a replacement node of the same id: the bucket of the node
      2^159 + 4 that holds 2 ... 7, 16 and the contact of id 17 at 10.0.0.1
      keeps the contact of id 17 at 10.0.0.2 as a replacement; a [callFindNode] to
      the latter times out, [removeNode] deletes the id 17, pops the
      replacement and sets it: the contact that did not answer is now a node
      of the bucket.
    - For a contact that [split] has put in a bucket other than the one
      [getBucketFor] gives: the table of the node 12345 after [addContact]
      of 2^159 and 1 ... 8 holds 2^159 in its second bucket, and
      [getBucketFor] gives the first for it; a [callPing] to that contact
      times out and the table still holds it. *)
Lemma timeout_keeps_contact :
  let me := Node.mk 12345 None None in
  let pending := fun who => RPCProtocol.sent 77 who (RPCProtocol.mk 5000 ∅ {[ 77 ]} []) in
  (let n := Scenario.contactAt 5 in
   let st := mk (pending (RPCProtocol.Plain ("10.0.0.1"%string, 13005)))
                (Scenario.tableOf 12345 [5]) (Storage.create 20000) me in
   exists st1,
     timerFires (fun k => k) 8 6000 77 st = ([], Ok st1)
     /\ RPCProtocol.resolved (rpc st1) = [(77, (false, None))]
     /\ RPCProtocol._outstanding (rpc st1) !! 77 = None
     /\ router st1 = router st
     /\ List.map KBucket.nodes (RoutingTable.buckets (router st1)) = [[n]])
  /\ (let me2 := Node.mk (2 ^ 159 + 4) None None in
      let a := Node.mk 17 (Some "10.0.0.2"%string) (Some 13017) in
      let b := Scenario.contactAt 17 in
      let full := Scenario.tableOf (2 ^ 159 + 4) [1; 2; 3; 4; 5; 6; 7; 16] in
      let rt := match RoutingTable.addContacts 8 0 full [a; b] with
                | Ok rt1 => match RoutingTable.removeContact rt1 (Scenario.contactAt 1) with
                            | Ok rt2 => rt2
                            | _ => full
                            end
                | _ => full
                end in
      let st := mk (pending (RPCProtocol.ViaCall a)) rt (Storage.create 20000) me2 in
      Scenario.idsOf rt = [([2; 3; 4; 5; 6; 7; 16; 17], [17]); ([], [])]
      /\ List.map KBucket.replacementNodes (RoutingTable.buckets rt) = [[a]; []]
      /\ RoutingTable.held_where_mapped rt 17
      /\ exists st1,
           timerFires (fun k => k) 8 6000 77 st = ([], Ok st1)
           /\ RPCProtocol.resolved (rpc st1) = [(77, (false, None))]
           /\ List.map KBucket.nodes (RoutingTable.buckets (router st1))
              = [List.map Scenario.contactAt [2; 3; 4; 5; 6; 7; 16] ++ [a]; []]
           /\ RoutingTable.holds (router st1) 17)
  /\ (let n := Scenario.contactAt (2 ^ 159) in
      let rt := Scenario.tableOf 12345 [2 ^ 159; 1; 2; 3; 4; 5; 6; 7; 8] in
      let st := mk (pending (RPCProtocol.ViaCall n)) rt (Storage.create 20000) me in
      Scenario.idsOf rt = [([1; 2; 3; 4; 5; 6; 7; 8], []); ([2 ^ 159], [])]
      /\ RoutingTable.getBucketFor rt n = Some 0%nat
      /\ exists st1,
           timerFires (fun k => k) 8 6000 77 st = ([], Ok st1)
           /\ RPCProtocol.resolved (rpc st1) = [(77, (false, None))]
           /\ router st1 = rt
           /\ RoutingTable.holds (router st1) (2 ^ 159)).
Proof.
  intros me pending. split; [|split].
  - eexists. split; [vm_compute; reflexivity|]. vm_compute. repeat split.
  - cbv zeta. split; [vm_compute; reflexivity|]. split; [vm_compute; reflexivity|]. split.
    + intros j b Hj Hin. destruct j as [|[|j]].
      * vm_compute. reflexivity.
      * vm_compute in Hj. injection Hj as <-. vm_compute in Hin. inversion Hin.
      * vm_compute in Hj. discriminate.
    + eexists. split; [vm_compute; reflexivity|]. split; [vm_compute; reflexivity|].
      split; [vm_compute; reflexivity|].
      eexists. split; [apply list_elem_of_here|]. vm_compute.
      do 7 apply list_elem_of_further. apply list_elem_of_here.
  - cbv zeta. split; [vm_compute; reflexivity|]. split; [vm_compute; reflexivity|].
    eexists. split; [vm_compute; reflexivity|]. split; [vm_compute; reflexivity|].
    split; [vm_compute; reflexivity|].
    eexists. split; [apply list_elem_of_further, list_elem_of_here|].
    vm_compute. apply list_elem_of_here.
Qed.

End TimeoutFacts.

(* ===================================================================== *)
(** * Senders and the routing table *)
(* ===================================================================== *)

Module WelcomeFacts.
Import KademliaProtocol.

(** ** Lookups change the stamps of the buckets only *)

Lemma findNeighbors_unstamped (now : Z) (rt rt1 : RoutingTable.t) (target : Node.t)
    (k : option nat) (exclude : option Node.t) (l : list Node.t) :
  RoutingTable.findNeighbors now rt target k exclude = Ok (l, rt1) ->
  RoutingTable.unstamped rt1 = RoutingTable.unstamped rt.
Proof.
  unfold RoutingTable.findNeighbors.
  destruct (RoutingTable.bucketFor rt target) as [[index b]| |] eqn:Hb; try discriminate.
  simpl. intros H. injection H as _ <-.
  apply RoutingMore.bucketFor_inv in Hb as (_ & Hl & _).
  unfold RoutingTable.unstamped, RoutingTable.with_buckets.
  cbn [RoutingTable.node RoutingTable.ksize RoutingTable.buckets]. f_equal.
  rewrite RoutingRoundTrips.map_insert. apply list_insert_id.
  rewrite RoutingFacts.lookup_map, Hl. reflexivity.
Qed.

Lemma welcomeLoop_unstamped (digest : Z -> Z) (now : Z) (node thisNode : Node.t)
    (storages : list (Z * Buffer)) :
  forall rt calls rt',
    welcomeLoop digest now node thisNode storages rt = (calls, Ok rt') ->
    RoutingTable.unstamped rt' = RoutingTable.unstamped rt.
Proof.
  induction storages as [|[key value] rest IH]; intros rt calls rt' H.
  { simpl in H. injection H as _ <-. reflexivity. }
  cbn [welcomeLoop] in H.
  destruct (RoutingTable.findNeighbors now rt (keynodeOf digest key) None None)
    as [[neighbors rt1]| |] eqn:Hf; try discriminate.
  unfold mbind, eff_bind, lift in H. cbn [fst snd] in H.
  apply findNeighbors_unstamped in Hf. rewrite <- Hf.
  destruct (shouldStore _ _ _ neighbors); unfold start, mret, eff_ret in H;
    destruct (welcomeLoop digest now node thisNode rest rt1) as [more [r| |]] eqn:Hloop;
    try discriminate; injection H as _ <-; exact (IH rt1 more r Hloop).
Qed.

(** Tables that differ in their stamps give the same bucket to a node. *)
Lemma unstamped_bucketFor (rt rt1 : RoutingTable.t) (n : Node.t) (index : nat)
    (b : KBucket.t) :
  RoutingTable.unstamped rt1 = RoutingTable.unstamped rt ->
  RoutingTable.bucketFor rt n = Ok (index, b) ->
  exists b1,
    RoutingTable.bucketFor rt1 n = Ok (index, b1)
    /\ KBucket.range b1 = KBucket.range b
    /\ KBucket.nodes b1 = KBucket.nodes b
    /\ KBucket.replacementNodes b1 = KBucket.replacementNodes b
    /\ KBucket.ksize b1 = KBucket.ksize b.
Proof.
  intros Hu Hb. apply RoutingMore.bucketFor_inv in Hb as (Hg & Hl & _).
  unfold RoutingTable.unstamped in Hu. injection Hu as _ _ Hm.
  assert (Hr : List.map KBucket.range (RoutingTable.buckets rt1)
               = List.map KBucket.range (RoutingTable.buckets rt)).
  { apply (f_equal (List.map (fun x => fst (fst (fst x))))) in Hm.
    rewrite !List.map_map in Hm. exact Hm. }
  apply (f_equal (fun l => l !! index)) in Hm.
  rewrite !RoutingFacts.lookup_map, Hl in Hm.
  destruct (RoutingTable.buckets rt1 !! index) as [b1|] eqn:Hl1; [|discriminate].
  simpl in Hm. injection Hm as H1 H2 H3 H4.
  exists b1. split; [|auto].
  unfold RoutingTable.bucketFor, RoutingTable.getBucketFor in *.
  rewrite (RoutingFacts.first_reaching_same_ranges _ _ _ _ Hr), Hg. simpl.
  rewrite Hl1. reflexivity.
Qed.

(** ** What [isNewNode] answers *)

Lemma isNewNode_held (rt : RoutingTable.t) (n : Node.t) :
  RoutingTable.holds rt (Node.id n) ->
  RoutingTable.held_where_mapped rt (Node.id n) ->
  RoutingTable.isNewNode rt n = Ok false.
Proof.
  intros (b & Hb & Hin) Hheld. apply list_elem_of_lookup in Hb as [j Hj].
  pose proof (Hheld j b Hj Hin) as Hfirst.
  unfold RoutingTable.isNewNode, RoutingTable.bucketFor, RoutingTable.getBucketFor.
  rewrite Hfirst. simpl. rewrite Hj. simpl. unfold KBucket.isNewNode.
  apply RoutingFacts.nodes_has_spec in Hin. now rewrite Hin.
Qed.

Lemma isNewNode_fresh (rt : RoutingTable.t) (n : Node.t) :
  ~ RoutingTable.holds rt (Node.id n) ->
  RoutingTable.reaches rt (Node.id n) ->
  exists index b,
    RoutingTable.bucketFor rt n = Ok (index, b)
    /\ KBucket.isNewNode b n = true
    /\ RoutingTable.isNewNode rt n = Ok true.
Proof.
  intros Hnot Hreach.
  destruct (RoutingFacts.bucketFor_defined rt n Hreach) as (index & b & Hb & Hl).
  assert (Hnew : KBucket.isNewNode b n = true).
  { unfold KBucket.isNewNode. apply negb_true_iff, not_true_is_false. intros Hhas.
    apply Hnot. exists b. split; [now apply list_elem_of_lookup_2 in Hl|].
    now apply RoutingFacts.nodes_has_spec. }
  exists index, b. split; [exact Hb|]. split; [exact Hnew|].
  unfold RoutingTable.isNewNode. rewrite Hb. simpl. now rewrite Hnew.
Qed.

(** ** [addContact] on a bucket that is full and does not split *)

Lemma addContact_full (fuel : nat) (now : Z) (rt : RoutingTable.t) (n : Node.t)
    (index : nat) (b : KBucket.t) (d : nat) :
  RoutingTable.bucketFor rt n = Ok (index, b) ->
  KBucket.isNewNode b n = true ->
  (KBucket.ksize b <= KBucket.len b)%nat ->
  KBucket.hasInRange b (RoutingTable.node rt) = false ->
  KBucket.depth b = Ok d -> (d mod 5 = 0)%nat ->
  RoutingTable.addContact (S fuel) now rt n
  = Ok (RoutingTable.with_buckets rt
          (<[index := KBucket.mk (KBucket.range b) (KBucket.nodes b)
                        (OrderedSet.push n (KBucket.replacementNodes b))
                        (KBucket.lastUpdated b) (KBucket.ksize b)]>
             (RoutingTable.buckets rt)),
        [KBucket.head b]).
Proof.
  intros Hb Hnew Hlen Hrng Hd Hmod. simpl. rewrite Hb. simpl.
  unfold KBucket.addNode, KBucket.isNewNode in *. apply negb_true_iff in Hnew.
  rewrite Hnew. apply Nat.ltb_ge in Hlen. rewrite Hlen.
  unfold KBucket.hasInRange, KBucket.depth in *. cbn [KBucket.range KBucket.nodes].
  rewrite Hrng. destruct (Bits.sharedPrefix _) as [prefix| |]; try discriminate.
  simpl in Hd. injection Hd as Hd. simpl. rewrite Hd.
  change (4 - snd (Nat.divmod d 4 0 4))%nat with (d mod 5)%nat.
  apply Nat.eqb_eq in Hmod. rewrite Hmod. reflexivity.
Qed.

Section Welcomed.
Variable digest : Z -> Z.

(** For a node that [isNewNode] takes for new, [welcomeIfNewNode] is the
    [callStore] calls of its loop followed by [addContact] on a table that
    differs from the table of the protocol in its stamps only. *)
Lemma welcome_unfolded (now : Z) (st : t) (node : Node.t) :
  (forall key value, (key, value) ∈ fst (Storage.items now (storage st)) ->
                     RoutingTable.reaches (router st) (digest key)) ->
  RoutingTable.isNewNode (router st) node = Ok true ->
  exists stores rt1,
    RoutingTable.unstamped rt1 = RoutingTable.unstamped (router st)
    /\ (forall c, c ∈ stores -> exists key value, c = callStore node key value)
    /\ forall fuel,
         welcomeIfNewNode digest fuel now st node
         = match RoutingTable.addContact fuel now rt1 node with
           | Ok (rt2, pings) =>
               (stores ++ List.map callPing pings,
                Ok (mk (rpc st) rt2 (snd (Storage.items now (storage st))) (sourceNode st)))
           | TypeError => (stores, TypeError)
           | OutOfFuel => (stores, OutOfFuel)
           end.
Proof.
  intros Hreach Hnew.
  destruct (Storage.items now (storage st)) as [storages storage1] eqn:Hitems.
  simpl in Hreach.
  destruct (ProtocolFacts.welcomeLoop_spec digest now node (sourceNode st) (router st)
              storages Hreach (router st) eq_refl eq_refl) as (rt1 & Hloop & _).
  set (stores := flat_map _ storages) in Hloop.
  exists stores, rt1. split; [exact (welcomeLoop_unstamped _ _ _ _ _ _ _ _ Hloop)|]. split.
  - intros c Hc. unfold stores in Hc. apply list_elem_of_In, in_flat_map in Hc
      as ([key value] & _ & Hc). simpl in Hc.
    destruct (shouldStore _ _ _ _); [|contradiction].
    destruct Hc as [<-|[]]. now exists key, value.
  - intros fuel. unfold welcomeIfNewNode. rewrite Hnew, Hitems.
    unfold mbind, eff_bind, lift. cbn [negb snd]. rewrite Hloop.
    destruct (RoutingTable.addContact fuel now rt1 node) as [[rt2 pings]| |];
      rewrite ?app_nil_r; reflexivity.
Qed.

Lemma pings_of (node : Node.t) (stores : list call) (pings : list (option Node.t))
    (p : option Node.t) :
  (forall c, c ∈ stores -> exists key value, c = callStore node key value) ->
  callPing p ∈ stores ++ List.map callPing pings <-> p ∈ pings.
Proof.
  intros Hstores. rewrite elem_of_app. split.
  - intros [H|H].
    + destruct (Hstores _ H) as (key & value & Hc). discriminate.
    + apply list_elem_of_In, in_map_iff in H as (q & Hq & Hin). injection Hq as ->.
      now apply list_elem_of_In.
  - intros H. right. apply list_elem_of_In, in_map. now apply list_elem_of_In.
Qed.


End Welcomed.



End WelcomeFacts.
